(** * ACTUNEO mortality engine: MortalityTable and SurvivalFunctions

    A shallow embedding of [actuneo/mortality/mortality_table.py] and
    [actuneo/mortality/survival_functions.py], of their callers in
    [actuneo/life] (life_assurance.py, annuities.py, reserves.py) and of
    [actuneo/finance/interest.py].

    Numbers.  Ages are Python/NumPy integers, embedded as [Z] (the tables
    hold ages far below the 64-bit range, so no wrap-around occurs in
    [x + n]).  A float is embedded as an exact rational ([Qc]) or one of
    the three IEEE special values; rounding, overflow, underflow and the
    sign of zero are not represented, so every finite operation is the
    exact one.  Division follows the two behaviours the code relies on:
    NumPy division (a zero divisor gives an infinity or NaN) and Python
    float division (a zero divisor raises [ZeroDivisionError]).  Where
    Python raises [OverflowError], for a power that leaves the range of
    the floats and for an int operand too large for a float, the life and
    finance modules raise it too.  Statements that need products of [px]
    to stay representable say so ([no_underflow]), and [Binary64] holds the
    construction of a table on the machine's floats, to evaluate it where
    a product underflows.

    Exceptions are values of [result]. *)

From Stdlib Require Import String ZArith List Bool Lia QArith Qcanon Qround.
From Stdlib Require PrimFloat.
Import ListNotations.

(** ** Exceptions *)

Inductive exn := ValueError | IndexError | ZeroDivisionError | OverflowError.

Inductive result (A : Type) : Type :=
| Ok (a : A)
| Raise (e : exn).

Arguments Ok {A} a.
Arguments Raise {A} e.

Definition bind {A B} (r : result A) (k : A -> result B) : result B :=
  match r with
  | Ok a => k a
  | Raise e => Raise e
  end.

Notation "x <- c ;; k" := (bind c (fun x => k))
  (at level 61, c at next level, right associativity).

(** ** Floats *)

Inductive fl := Fin (q : Qc) | PInf | NInf | NaN.

Definition qc (n : Z) (d : positive) : Qc := Q2Qc (n # d).
Definition of_Z (z : Z) : fl := Fin (qc z 1).

Definition f0 : fl := of_Z 0.
Definition f1 : fl := of_Z 1.
Definition fhalf : fl := Fin (qc 1 2).

Definition Qc_leb (a b : Qc) : bool := Qle_bool a b.
Definition Qc_ltb (a b : Qc) : bool := negb (Qle_bool b a).
Definition Qc_is0 (a : Qc) : bool := Qc_eq_bool a 0.

Definition fneg (a : fl) : fl :=
  match a with
  | Fin x => Fin (- x)
  | PInf => NInf
  | NInf => PInf
  | NaN => NaN
  end.

Definition fadd (a b : fl) : fl :=
  match a, b with
  | NaN, _ | _, NaN => NaN
  | Fin x, Fin y => Fin (x + y)
  | PInf, NInf | NInf, PInf => NaN
  | PInf, _ | _, PInf => PInf
  | NInf, _ | _, NInf => NInf
  end.

Definition fsub (a b : fl) : fl := fadd a (fneg b).

(** An infinity times a finite number: the sign of the number decides,
    and zero gives NaN. *)
Definition inf_times (pos : bool) (y : Qc) : fl :=
  if Qc_is0 y then NaN
  else if Bool.eqb pos (Qc_ltb 0 y) then PInf else NInf.

Definition fmul (a b : fl) : fl :=
  match a, b with
  | NaN, _ | _, NaN => NaN
  | Fin x, Fin y => Fin (x * y)
  | PInf, Fin y | Fin y, PInf => inf_times true y
  | NInf, Fin y | Fin y, NInf => inf_times false y
  | PInf, PInf | NInf, NInf => PInf
  | PInf, NInf | NInf, PInf => NInf
  end.

(** NumPy (IEEE) division: never raises. *)
Definition fdiv (a b : fl) : fl :=
  match a, b with
  | NaN, _ | _, NaN => NaN
  | Fin x, Fin y =>
      if Qc_is0 y then
        if Qc_is0 x then NaN else if Qc_ltb 0 x then PInf else NInf
      else Fin (x / y)
  | Fin _, _ => f0
  | PInf, Fin y => if Qc_ltb y 0 then NInf else PInf
  | NInf, Fin y => if Qc_ltb y 0 then PInf else NInf
  | _, _ => NaN
  end.

Definition fle (a b : fl) : bool :=
  match a, b with
  | NaN, _ | _, NaN => false
  | Fin x, Fin y => Qc_leb x y
  | NInf, _ | _, PInf => true
  | _, _ => false
  end.

Definition flt (a b : fl) : bool :=
  match a, b with
  | NaN, _ | _, NaN => false
  | Fin x, Fin y => Qc_ltb x y
  | PInf, _ | _, NInf => false
  | _, _ => true
  end.

Definition feqb (a b : fl) : bool :=
  match a, b with
  | Fin x, Fin y => Qc_eq_bool x y
  | PInf, PInf | NInf, NInf => true
  | _, _ => false
  end.

Definition isnan (a : fl) : bool :=
  match a with NaN => true | _ => false end.

(** [a ** k] for an integer exponent. *)
Definition fpow (a : fl) (k : Z) : fl :=
  match k with
  | Z0 => f1
  | Zpos p => Pos.iter (fmul a) f1 p
  | Zneg p => fdiv f1 (Pos.iter (fmul a) f1 p)
  end.

(** Python's [min(a, b)]: [b] when [b < a], else [a]. *)
Definition py_min (a b : fl) : fl := if flt b a then b else a.

(** Python's [int(t)]: truncation toward zero; raises on NaN and on an
    infinity. *)
Definition py_int (t : fl) : result Z :=
  match t with
  | Fin q => Ok (Z.quot (Qnum q) (Zpos (Qden q)))
  | NaN => Raise ValueError
  | _ => Raise OverflowError
  end.

(** A float scalar is a Python [float] or a [numpy.float64]; the two
    differ in what division by zero does. *)
Inductive scalar := PyFloat (x : fl) | NpFloat64 (x : fl).

Definition val (s : scalar) : fl :=
  match s with PyFloat x | NpFloat64 x => x end.

Definition is_py (s : scalar) : bool :=
  match s with PyFloat _ => true | NpFloat64 _ => false end.

Definition lift2 (op : fl -> fl -> fl) (a b : scalar) : scalar :=
  if is_py a && is_py b then PyFloat (op (val a) (val b))
  else NpFloat64 (op (val a) (val b)).

(** [a / b] on scalars: Python raises on a zero divisor when both are
    Python floats; as soon as one operand is a [numpy.float64] NumPy's
    division is used. *)
Definition truediv (a b : scalar) : result scalar :=
  if is_py a && is_py b then
    if feqb (val b) f0 then Raise ZeroDivisionError
    else Ok (PyFloat (fdiv (val a) (val b)))
  else Ok (NpFloat64 (fdiv (val a) (val b))).

(** ** Arrays *)

(** [arr[i]] for [0 <= i]. *)
Definition get {A} (l : list A) (i : nat) : result A :=
  match nth_error l i with
  | Some a => Ok a
  | None => Raise IndexError
  end.

(** [arr[-1]]. *)
Definition get_last {A} (l : list A) : result A :=
  match rev l with
  | a :: _ => Ok a
  | [] => Raise IndexError
  end.

(** [np.where(cond)[0]]: the indices at which the condition holds, in
    increasing order. *)
Fixpoint where_from (p : Z -> bool) (l : list Z) (i : nat) : list nat :=
  match l with
  | [] => []
  | a :: l' =>
      if p a then i :: where_from p l' (S i) else where_from p l' (S i)
  end.

Definition np_where (p : Z -> bool) (l : list Z) : list nat := where_from p l 0.

(** [a in arr]. *)
Definition contains (a : Z) (l : list Z) : bool := existsb (Z.eqb a) l.

(** [np.cumprod]. *)
Fixpoint cumprod_from (acc : fl) (l : list fl) : list fl :=
  match l with
  | [] => []
  | a :: l' => fmul acc a :: cumprod_from (fmul acc a) l'
  end.

Definition cumprod (l : list fl) : list fl :=
  match l with
  | [] => []
  | a :: l' => a :: cumprod_from a l'
  end.

(** [np.prod]. *)
Definition prod (l : list fl) : fl := fold_left fmul l f1.

(** [arr[s:e]]. *)
Definition slice {A} (l : list A) (s e : nat) : list A :=
  firstn (e - s) (skipn s l).

Fixpoint zip_with {A B C} (f : A -> B -> C) (la : list A) (lb : list B) : list C :=
  match la, lb with
  | a :: la', b :: lb' => f a b :: zip_with f la' lb'
  | _, _ => []
  end.

Fixpoint map_result {A B} (f : A -> result B) (l : list A) : result (list B) :=
  match l with
  | [] => Ok []
  | a :: l' => b <- f a ;; bs <- map_result f l' ;; Ok (b :: bs)
  end.

(** [range(k)] and [range(1, k + 1)]. *)
Definition range (k : Z) : list Z := map Z.of_nat (seq 0 (Z.to_nat k)).
Definition range1 (k : Z) : list Z := map Z.of_nat (seq 1 (Z.to_nat k)).

(** ** mortality_table.py *)

Module MortalityTable.

(** The attributes of a table.  [metadata], a dictionary that no
    operation reads, is left out. *)
Record t := mk {
  ages : list Z;
  qx : list fl;
  name : string;
  px : list fl;
  lx : list fl;
  dx : list fl
}.

(** [_calculate_survival_probabilities], run on the two validated
    arrays; [self.lx[0]] raises on an empty table. *)
Definition _calculate_survival_probabilities
    (ages : list Z) (qx : list fl) (name : string) : result t :=
  let px := map (fsub f1) qx in
  let lx := rev (cumprod (rev px)) in
  lx0 <- get lx 0 ;;
  let lx := map (fun l => fdiv l lx0) lx in
  let dx := zip_with fmul lx qx in
  Ok (mk ages qx name px lx dx).

Definition in_unit (q : fl) : bool := fle f0 q && fle q f1.

Definition __init__ (ages : list Z) (qx : list fl) (name : string) : result t :=
  if negb (length ages =? length qx)%nat then Raise ValueError
  else if negb (forallb in_unit qx) then Raise ValueError
  else _calculate_survival_probabilities ages qx name.

(** The argument of [get_qx] / [get_px]: one age or a sequence of ages;
    the value returned: a float or an array. *)
Inductive age_arg := One (a : Z) | Many (l : list Z).
Inductive value := Scalar (x : fl) | Array (l : list fl).

(** The body of the loop of [get_qx] for one age [a]. *)
Definition qx_at (self : t) (a : Z) : result fl :=
  if contains a (ages self) then
    i <- get (np_where (fun b => b =? a)%Z (ages self)) 0 ;;
    get (qx self) i
  else Ok NaN.

Definition get_qx (self : t) (age : age_arg) : result value :=
  let ages_array := match age with One a => [a] | Many l => l end in
  res <- map_result (qx_at self) ages_array ;;
  let scalar_like :=
    match age with One _ => true | Many l => (length l =? 1)%nat end in
  if scalar_like then r0 <- get res 0 ;; Ok (Scalar r0)
  else Ok (Array res).

Definition get_px (self : t) (age : age_arg) : result value :=
  qx_vals <- get_qx self age ;;
  match qx_vals with
  | Scalar q =>
      let px_vals := fsub f1 q in
      Ok (Scalar (if negb (isnan px_vals) then px_vals else NaN))
  | Array qs =>
      let px_vals := map (fsub f1) qs in
      Ok (Array (zip_with (fun q p => if isnan q then NaN else p) qs px_vals))
  end.

Definition life_expectancy (self : t) (age : Z) : result fl :=
  if negb (contains age (ages self)) then Raise ValueError
  else
    idx <- get (np_where (fun b => b =? age)%Z (ages self)) 0 ;;
    let remaining_lx := skipn idx (lx self) in
    if (length remaining_lx <=? 1)%nat then Ok f0
    else Ok (fold_left fadd (skipn 1 remaining_lx) fhalf).

End MortalityTable.

(** ** survival_functions.py *)

Module SurvivalFunctions.

Import MortalityTable.

Record t := mk {
  mt : MortalityTable.t;
  i : fl;
  v : fl
}.

(** [1 / (1 + interest_rate)] is a division of Python floats: it raises
    at a rate of -100%. *)
Definition __init__ (mortality_table : MortalityTable.t) (interest_rate : fl)
  : result t :=
  d <- truediv (PyFloat f1) (PyFloat (fadd f1 interest_rate)) ;;
  Ok (mk mortality_table interest_rate (val d)).

Definition npx (self : t) (x n : Z) : result scalar :=
  if (n <? 0)%Z then Ok (PyFloat f0)
  else if (n =? 0)%Z then Ok (PyFloat f1)
  else
    last_age <- get_last (ages (mt self)) ;;
    if (last_age <? x + n)%Z then
      let last_age_idx := np_where (fun a => a <=? x)%Z (ages (mt self)) in
      if (length last_age_idx =? 0)%nat then Ok (PyFloat f0)
      else
        last_idx <- get_last last_age_idx ;;
        a_last <- get (ages (mt self)) last_idx ;;
        let remaining_years := (x + n - a_last)%Z in
        p_last <- get (px (mt self)) last_idx ;;
        let px_remaining := fpow p_last remaining_years in
        l_last <- get (lx (mt self)) last_idx ;;
        ix <- get (np_where (fun a => a =? x)%Z (ages (mt self))) 0 ;;
        l_x <- get (lx (mt self)) ix ;;
        Ok (NpFloat64 (fdiv (fmul l_last px_remaining) l_x))
    else
      let start_idx := np_where (fun a => a =? x)%Z (ages (mt self)) in
      let end_idx := np_where (fun a => a =? x + n)%Z (ages (mt self)) in
      if (length start_idx =? 0)%nat || (length end_idx =? 0)%nat
      then Ok (PyFloat f0)
      else
        start_idx <- get start_idx 0 ;;
        end_idx <- get end_idx 0 ;;
        Ok (PyFloat (prod (slice (px (mt self)) start_idx end_idx))).

Definition nqx (self : t) (x n : Z) : result scalar :=
  p <- npx self x n ;;
  Ok (lift2 fsub (PyFloat f1) p).

(** [get_qx] on one age always takes the scalar exit. *)
Definition get_qx_float (m : MortalityTable.t) (a : Z) : result fl :=
  r <- get_qx m (One a) ;;
  match r with
  | Scalar q => Ok q
  | Array _ => Raise ValueError
  end.

Section Transcendental.

(** [np.exp] and [np.log], which have no rational model. *)
Variables np_exp np_log : fl -> fl.

Definition tpx (self : t) (x : Z) (tt : fl) : result scalar :=
  if feqb tt f0 then Ok (PyFloat f1)
  else if flt tt f0 then Ok (PyFloat f0)
  else
    n <- py_int tt ;;
    let frac := fsub tt (of_Z n) in
    n_year_survival <- npx self x n ;;
    last_age <- get_last (ages (mt self)) ;;
    if (last_age <=? n + x)%Z then
      if (last_age <=? x + n)%Z then
        let remaining_years := fsub tt (of_Z (last_age - x)) in
        q_last <- get_qx_float (mt self) last_age ;;
        let mu := fneg (np_log (fsub f1 q_last)) in
        Ok (NpFloat64 (fmul (val n_year_survival)
                            (np_exp (fmul (fneg mu) remaining_years))))
      else Ok n_year_survival
    else
      q_next <- get_qx_float (mt self) (x + n) ;;
      let survival_frac := fsub f1 (fmul frac q_next) in
      Ok (lift2 fmul n_year_survival (PyFloat survival_frac)).

(** The loop shared by the two branches of [annuity_due]; the state
    is [(annuity, v_t)]. *)
Fixpoint annuity_loop (self : t) (x : Z) (ts : list Z) (annuity v_t : fl)
  : result fl :=
  match ts with
  | [] => Ok annuity
  | t0 :: ts' =>
      p <- tpx self x (of_Z t0) ;;
      annuity_loop self x ts' (fadd annuity (fmul v_t (val p)))
                   (fmul v_t (v self))
  end.

Definition annuity_due (self : t) (x : Z) (n : option Z) : result fl :=
  match n with
  | None =>
      idx <- get (np_where (fun a => a =? x)%Z (ages (mt self))) 0 ;;
      annuity_loop self x
        (range (Z.of_nat (length (ages (mt self))) - Z.of_nat idx)) f0 f1
  | Some n => annuity_loop self x (range n) f0 f1
  end.

Definition annuity_immediate (self : t) (x : Z) (n : option Z) : result fl :=
  a <- annuity_due self x n ;;
  Ok (fsub a f1).

End Transcendental.

(** [q_xt] of the assurance loops. *)
Definition q_xt (self : t) (x t0 : Z) : result fl :=
  if (1 <? t0)%Z then
    a <- npx self x t0 ;;
    b <- npx self x (t0 - 1) ;;
    r <- truediv a b ;;
    Ok (fsub f1 (val r))
  else
    a <- npx self x 1 ;;
    Ok (fsub f1 (val a)).

(** The loop shared by the two branches of [assurance]; the state is
    [(assurance, v_t)]. *)
Fixpoint assurance_loop (self : t) (x : Z) (ts : list Z) (assurance v_t : fl)
  : result fl :=
  match ts with
  | [] => Ok assurance
  | t0 :: ts' =>
      q <- q_xt self x t0 ;;
      assurance_loop self x ts' (fadd assurance (fmul v_t (py_min q f1)))
                     (fmul v_t (v self))
  end.

Definition assurance (self : t) (x : Z) (n : option Z) : result fl :=
  match n with
  | None =>
      idx <- get (np_where (fun a => a =? x)%Z (ages (mt self))) 0 ;;
      let max_t := (Z.of_nat (length (ages (mt self))) - Z.of_nat idx - 1)%Z in
      assurance_loop self x (range1 max_t) f0 (v self)
  | Some n => assurance_loop self x (range1 n) f0 (v self)
  end.

Definition net_single_premium (self : t) (x : Z) (n : option Z) : result fl :=
  assurance self x n.

End SurvivalFunctions.

(** ** The table as an object *)

(** A table is one object: the program that built it and every
    [SurvivalFunctions] constructed on it hold the same reference
    ([self.mt = mortality_table]).  Here the operations of the two
    classes are the methods as they run on that object: each receives
    the table, and returns its answer together with the table as the
    method leaves it.  The constructor is the only code in the two files
    that assigns to an attribute of a table ([self.px], [self.lx],
    [self.dx]); no method assigns to one or writes into one of its
    arrays, and the arrays that [get_qx] and [get_px] return are built
    afresh. *)
Module TableObject.

Inductive call :=
| get_qx (age : MortalityTable.age_arg)
| get_px (age : MortalityTable.age_arg)
| life_expectancy (age : Z)
| npx (x n : Z)
| nqx (x n : Z)
| tpx (x : Z) (t : fl)
| annuity_due (x : Z) (n : option Z)
| annuity_immediate (x : Z) (n : option Z)
| assurance (x : Z) (n : option Z)
| net_single_premium (x : Z) (n : option Z).

Inductive answer :=
| Values (v : MortalityTable.value)
| Float (x : fl)
| Number (s : scalar).

Section Transcendental.

Variables np_exp np_log : fl -> fl.

(** One call on the table, made directly or through a
    [SurvivalFunctions] with the attributes [i] and [v]. *)
Definition perform (i v : fl) (c : call) (table : MortalityTable.t)
  : result answer * MortalityTable.t :=
  let sf := SurvivalFunctions.mk table i v in
  match c with
  | get_qx age =>
      (r <- MortalityTable.get_qx table age ;; Ok (Values r), table)
  | get_px age =>
      (r <- MortalityTable.get_px table age ;; Ok (Values r), table)
  | life_expectancy age =>
      (r <- MortalityTable.life_expectancy table age ;; Ok (Float r), table)
  | npx x n => (r <- SurvivalFunctions.npx sf x n ;; Ok (Number r), table)
  | nqx x n => (r <- SurvivalFunctions.nqx sf x n ;; Ok (Number r), table)
  | tpx x t =>
      (r <- SurvivalFunctions.tpx np_exp np_log sf x t ;; Ok (Number r), table)
  | annuity_due x n =>
      (r <- SurvivalFunctions.annuity_due np_exp np_log sf x n ;;
       Ok (Float r), table)
  | annuity_immediate x n =>
      (r <- SurvivalFunctions.annuity_immediate np_exp np_log sf x n ;;
       Ok (Float r), table)
  | assurance x n =>
      (r <- SurvivalFunctions.assurance sf x n ;; Ok (Float r), table)
  | net_single_premium x n =>
      (r <- SurvivalFunctions.net_single_premium sf x n ;; Ok (Float r), table)
  end.

(** A program: calls made one after the other on the same table; a call
    that raises is caught and the program goes on. *)
Fixpoint run (i v : fl) (calls : list call) (table : MortalityTable.t)
  : list (result answer) * MortalityTable.t :=
  match calls with
  | [] => ([], table)
  | c :: calls' =>
      let '(r, table') := perform i v c table in
      let '(rs, table'') := run i v calls' table' in
      (r :: rs, table'')
  end.

End Transcendental.

End TableObject.

(** ** The construction of a table in binary64 *)

(** The constructor once more, on the floats of the machine: the same
    statements in the same order, with the kernel's binary64 operations
    in place of the exact ones.  It serves to evaluate the construction
    where the products of [px] leave the range of the floats. *)
Module Binary64.

Import PrimFloat.
Local Open Scope float_scope.

Record t := mk {
  ages : list Z;
  qx : list float;
  px : list float;
  lx : list float;
  dx : list float
}.

Fixpoint cumprod_from (acc : float) (l : list float) : list float :=
  match l with
  | [] => []
  | a :: l' => acc * a :: cumprod_from (acc * a) l'
  end.

Definition cumprod (l : list float) : list float :=
  match l with
  | [] => []
  | a :: l' => a :: cumprod_from a l'
  end.

Definition _calculate_survival_probabilities
    (ages : list Z) (qx : list float) : result t :=
  let px := map (fun q => 1 - q) qx in
  let lx := rev (cumprod (rev px)) in
  lx0 <- get lx 0 ;;
  let lx := map (fun l => l / lx0) lx in
  let dx := zip_with mul lx qx in
  Ok (mk ages qx px lx dx).

Definition in_unit (q : float) : bool := (0 <=? q) && (q <=? 1).

Definition __init__ (ages : list Z) (qx : list float) : result t :=
  if negb (length ages =? length qx)%nat then Raise ValueError
  else if negb (forallb in_unit qx) then Raise ValueError
  else _calculate_survival_probabilities ages qx.

Definition below_one (q : float) : bool := q <? 1.

(** Ages 0..109, every rate 1023/1024: each [px] is 2^-10, and the
    product of all of them, 2^-1100, is below the smallest float. *)
Definition ages_long : list Z := map Z.of_nat (seq 0 110).
Definition rates_high : list float := repeat 0.9990234375 110.

End Binary64.

(** ** Python arithmetic of the life modules *)

(** The largest float is 2^1024 - 2^971; an int of magnitude
    2^1024 - 2^970 or more rounds past it, and its conversion to a float
    raises [OverflowError]. *)
Definition float_limit : Z := 2 ^ 1024 - 2 ^ 970.

(** The conversion of an int operand in [float * int] and
    [float / int]. *)
Definition float_of_int (z : Z) : result fl :=
  if (Z.abs z <? float_limit)%Z then Ok (of_Z z) else Raise OverflowError.

(** A number within the range of the finite floats. *)
Definition in_float_range (q : Qc) : bool :=
  Qc_ltb (- qc float_limit 1) q && Qc_ltb q (qc float_limit 1).

(** [a ** k] for a Python float and an int.  A zero base with a negative
    exponent raises [ZeroDivisionError]; a finite base whose power leaves
    the range of the floats raises [OverflowError]; an exponent of 0 gives
    1.0 whatever the base, and NaN and the infinities pass through
    without an exception.  A base that is itself beyond that range is no
    float, and nothing is raised for it.  (The exponent itself is an age
    or a term, far inside the range of the floats.) *)
Definition py_pow (a : fl) (k : Z) : result fl :=
  if feqb a f0 && (k <? 0)%Z then Raise ZeroDivisionError
  else
    match a, fpow a k with
    | Fin q, Fin r =>
        if in_float_range q && negb (in_float_range r)
        then Raise OverflowError
        else Ok (Fin r)
    | _, r => Ok r
    end.

(** [a / b] on Python numbers. *)
Definition py_div (a b : fl) : result fl :=
  if feqb b f0 then Raise ZeroDivisionError else Ok (fdiv a b).

(** [max(0, r)]: [r] when [r > 0], else the 0 given first. *)
Definition py_max0 (r : fl) : fl := if flt f0 r then r else f0.

(** ** life/life_assurance.py *)

Module LifeAssurance.

Record t := mk {
  mt : MortalityTable.t;
  sf : SurvivalFunctions.t;
  i : fl;
  v : fl;
  expense_loading : fl
}.

Definition __init__ (mortality_table : MortalityTable.t)
           (interest_rate expense_loading : fl) : result t :=
  sf <- SurvivalFunctions.__init__ mortality_table interest_rate ;;
  d <- truediv (PyFloat f1) (PyFloat (fadd f1 interest_rate)) ;;
  Ok (mk mortality_table sf interest_rate (val d) expense_loading).

(** The [discrete] flag of [term_assurance] is not read by the code. *)
Definition term_assurance (self : t) (x n : Z) : result fl :=
  SurvivalFunctions.assurance (sf self) x (Some n).

Definition pure_endowment (self : t) (x n : Z) : result scalar :=
  survival_prob <- SurvivalFunctions.npx (sf self) x n ;;
  p <- py_pow (v self) n ;;
  Ok (lift2 fmul survival_prob (PyFloat p)).

Definition endowment_assurance (self : t) (x n : Z) : result scalar :=
  term_assurance <- term_assurance self x n ;;
  pure_endowment <- pure_endowment self x n ;;
  Ok (lift2 fadd (PyFloat term_assurance) pure_endowment).

Definition deferred_assurance (self : t) (x u n : Z) : result scalar :=
  survival_to_deferment <- SurvivalFunctions.npx (sf self) x u ;;
  if feqb (val survival_to_deferment) f0 then Ok (PyFloat f0)
  else
    deferred_assurance <- term_assurance self (x + u) n ;;
    p <- py_pow (v self) u ;;
    Ok (lift2 fmul (lift2 fmul survival_to_deferment (PyFloat p))
                   (PyFloat deferred_assurance)).

Section Transcendental.

Variables np_exp np_log : fl -> fl.

Definition temporary_life_annuity (self : t) (x n : Z) : result fl :=
  SurvivalFunctions.annuity_immediate np_exp np_log (sf self) x (Some n).

(** The reserves return the value of the quotient; the divisor has just
    been compared with 0, so neither kind of division can raise. *)
Definition reserve_term (self : t) (x n duration : Z) : result fl :=
  let current_age := (x + duration)%Z in
  let remaining_term := (n - duration)%Z in
  if (remaining_term <=? 0)%Z then Ok f0
  else
    remaining_assurance <- term_assurance self current_age remaining_term ;;
    remaining_annuity <-
      temporary_life_annuity self current_age remaining_term ;;
    if feqb remaining_annuity f0 then Ok remaining_assurance
    else Ok (fdiv remaining_assurance remaining_annuity).

Definition reserve_endowment (self : t) (x n duration : Z) : result fl :=
  let current_age := (x + duration)%Z in
  let remaining_term := (n - duration)%Z in
  if (remaining_term <=? 0)%Z then Ok f0
  else
    remaining_endowment <-
      endowment_assurance self current_age remaining_term ;;
    remaining_annuity <-
      temporary_life_annuity self current_age remaining_term ;;
    if feqb remaining_annuity f0 then Ok (val remaining_endowment)
    else Ok (fdiv (val remaining_endowment) remaining_annuity).

End Transcendental.

End LifeAssurance.

(** ** life/reserves.py *)

Module Reserves.

Record t := mk {
  mt : MortalityTable.t;
  sf : SurvivalFunctions.t;
  i : fl;
  v : fl;
  expense_rate : fl;
  profit_margin : fl
}.

Definition __init__ (mortality_table : MortalityTable.t)
           (interest_rate expense_rate profit_margin : fl) : result t :=
  sf <- SurvivalFunctions.__init__ mortality_table interest_rate ;;
  d <- truediv (PyFloat f1) (PyFloat (fadd f1 interest_rate)) ;;
  Ok (mk mortality_table sf interest_rate (val d) expense_rate profit_margin).

Section Transcendental.

Variables np_exp np_log : fl -> fl.

(** The tail shared by the prospective reserves. *)
Definition prospective_tail (remaining_assurance remaining_annuity
                             annual_premium : fl) : fl :=
  if feqb remaining_annuity f0 then fsub remaining_assurance annual_premium
  else
    let reserve :=
      fdiv (fsub remaining_assurance (fmul annual_premium remaining_annuity))
           remaining_annuity in
    py_max0 reserve.

Definition prospective_reserve_term (self : t) (x n duration : Z)
           (annual_premium sum_assured : fl) : result fl :=
  let current_age := (x + duration)%Z in
  let remaining_term := (n - duration)%Z in
  if (remaining_term <=? 0)%Z then Ok f0
  else
    a <- SurvivalFunctions.assurance (sf self) current_age
                                     (Some remaining_term) ;;
    let remaining_assurance := fmul a sum_assured in
    remaining_annuity <-
      SurvivalFunctions.annuity_immediate np_exp np_log (sf self) current_age
                                          (Some remaining_term) ;;
    Ok (prospective_tail remaining_assurance remaining_annuity annual_premium).

Definition prospective_reserve_endowment (self : t) (x n duration : Z)
           (annual_premium sum_assured : fl) : result fl :=
  let current_age := (x + duration)%Z in
  let remaining_term := (n - duration)%Z in
  if (remaining_term <=? 0)%Z then Ok f0
  else
    a <- SurvivalFunctions.assurance (sf self) current_age
                                     (Some remaining_term) ;;
    let term_assurance := fmul a sum_assured in
    s <- SurvivalFunctions.npx (sf self) current_age remaining_term ;;
    p <- py_pow (v self) remaining_term ;;
    let pure_endowment := fmul (fmul (val s) p) sum_assured in
    let remaining_assurance := fadd term_assurance pure_endowment in
    remaining_annuity <-
      SurvivalFunctions.annuity_immediate np_exp np_log (sf self) current_age
                                          (Some remaining_term) ;;
    Ok (prospective_tail remaining_assurance remaining_annuity annual_premium).

End Transcendental.

(** [duration] and [amortization_period] are ints: the product and the
    quotient convert them to floats, and the quotient is a Python
    division. *)
Definition zillmerized_reserve (net_reserve initial_expenses : fl)
           (duration amortization_period : Z) : result fl :=
  if (amortization_period <=? duration)%Z then Ok net_reserve
  else
    remaining <- float_of_int (amortization_period - duration) ;;
    period <- float_of_int amortization_period ;;
    amortized_expenses <- py_div (fmul initial_expenses remaining) period ;;
    let zillmer_reserve := fsub net_reserve amortized_expenses in
    Ok (py_max0 zillmer_reserve).

End Reserves.

(** ** life/annuities.py *)

Module Annuities.

(** [mt] and [sf] are set together: [sf] exists exactly when a table was
    given, so the two attributes are one optional pair. *)
Record t := mk {
  mt_sf : option (MortalityTable.t * SurvivalFunctions.t);
  i : fl;
  v : fl
}.

Definition __init__ (mortality_table : option MortalityTable.t)
           (interest_rate : fl) : result t :=
  ms <- match mortality_table with
        | Some m =>
            s <- SurvivalFunctions.__init__ m interest_rate ;;
            Ok (Some (m, s))
        | None => Ok None
        end ;;
  d <- truediv (PyFloat f1) (PyFloat (fadd f1 interest_rate)) ;;
  Ok (mk ms interest_rate (val d)).

(** One entry of the withdrawal schedule, and the dictionary returned by
    [annuity_with_withdrawal]: ['periods'] is the string ['perpetual'] or
    the number of periods, and ['schedule'] exists for a finite plan
    only. *)
Record schedule_row := mk_row {
  period : Z;
  starting_balance : fl;
  interest : fl;
  withdrawal : fl;
  ending_balance : fl
}.

Inductive periods_entry := Perpetual | Periods (n : Z).

Record withdrawal_plan := mk_plan {
  annual_payment : fl;
  remaining_principal : fl;
  periods : periods_entry;
  schedule : option (list schedule_row)
}.

(** The loop of [annuity_with_withdrawal]; the state is
    [(remaining, schedule)]. *)
Fixpoint withdrawal_loop (self : t) (payment : fl) (ts : list Z)
         (remaining : fl) (schedule : list schedule_row)
  : fl * list schedule_row :=
  match ts with
  | [] => (remaining, schedule)
  | t0 :: ts' =>
      let interest := fmul remaining (i self) in
      let withdrawal := payment in
      let remaining := fsub (fadd remaining interest) withdrawal in
      withdrawal_loop self payment ts' remaining
        (schedule ++
         [mk_row t0 (fsub (fadd remaining withdrawal) interest) interest
                 withdrawal remaining])
  end.

Definition annuity_with_withdrawal (self : t) (principal withdrawal_rate : fl)
           (periods : option Z) : result withdrawal_plan :=
  match periods with
  | None =>
      let payment := fmul principal withdrawal_rate in
      Ok (mk_plan payment principal Perpetual None)
  | Some periods =>
      g <- py_pow (fsub (fadd f1 withdrawal_rate) (i self)) (- periods) ;;
      q <- py_div withdrawal_rate (fsub f1 g) ;;
      let payment := fmul principal q in
      let '(remaining, schedule) :=
        withdrawal_loop self payment (range1 periods) principal [] in
      Ok (mk_plan payment remaining (Periods periods) (Some schedule))
  end.

Section Transcendental.

Variables np_exp np_log : fl -> fl.

Definition life_annuity_immediate (self : t) (x : Z) (payment : fl)
  : result fl :=
  match mt_sf self with
  | None => Raise ValueError
  | Some (_, sf) =>
      a <- SurvivalFunctions.annuity_immediate np_exp np_log sf x None ;;
      Ok (fmul payment a)
  end.

Definition life_annuity_due (self : t) (x : Z) (payment : fl) : result fl :=
  match mt_sf self with
  | None => Raise ValueError
  | Some (_, sf) =>
      a <- SurvivalFunctions.annuity_due np_exp np_log sf x None ;;
      Ok (fmul payment a)
  end.

Definition temporary_life_annuity_immediate (self : t) (x n : Z)
           (payment : fl) : result fl :=
  match mt_sf self with
  | None => Raise ValueError
  | Some (_, sf) =>
      a <- SurvivalFunctions.annuity_immediate np_exp np_log sf x (Some n) ;;
      Ok (fmul payment a)
  end.

Definition temporary_life_annuity_due (self : t) (x n : Z) (payment : fl)
  : result fl :=
  match mt_sf self with
  | None => Raise ValueError
  | Some (_, sf) =>
      a <- SurvivalFunctions.annuity_due np_exp np_log sf x (Some n) ;;
      Ok (fmul payment a)
  end.

Definition deferred_life_annuity (self : t) (x u : Z) (payment : fl)
  : result fl :=
  match mt_sf self with
  | None => Raise ValueError
  | Some (_, sf) =>
      survival_prob <- SurvivalFunctions.npx sf x u ;;
      annuity_value <- life_annuity_immediate self (x + u) payment ;;
      p <- py_pow (v self) u ;;
      Ok (fmul (fmul (val survival_prob) p) annuity_value)
  end.

Definition guaranteed_annuity (self : t) (x n : Z) (payment : fl)
  : result fl :=
  match mt_sf self with
  | None => Raise ValueError
  | Some _ =>
      temp_annuity <- temporary_life_annuity_immediate self x n payment ;;
      deferred_annuity <- deferred_life_annuity self x n payment ;;
      Ok (fadd temp_annuity deferred_annuity)
  end.

Definition annuity_certain_with_life_contingency (self : t) (x n : Z)
           (payment : fl) : result fl :=
  match mt_sf self with
  | None => Raise ValueError
  | Some _ => temporary_life_annuity_immediate self x n payment
  end.

End Transcendental.

End Annuities.

(** ** finance/interest.py *)

Module InterestTheory.

Record t := mk {
  i : fl;
  m : Z;
  i_m : fl;
  v : fl
}.

(** [interest_rate if interest_rate is not None else self.i]. *)
Definition rate (self : t) (interest_rate : option fl) : fl :=
  match interest_rate with
  | Some r => r
  | None => i self
  end.

Definition annuity_present_value (self : t) (payment : fl) (periods : Z)
           (interest_rate : option fl) (immediate : bool) : result fl :=
  let i := rate self interest_rate in
  if feqb i f0 then
    n <- float_of_int periods ;;
    Ok (fmul payment n)
  else
    g <- py_pow (fadd f1 i) (- periods) ;;
    let a := fmul payment (fdiv (fsub f1 g) i) in
    if immediate then Ok a else Ok (fmul a (fadd f1 i)).

Definition loan_payment (self : t) (principal : fl) (periods : Z)
           (interest_rate : option fl) : result fl :=
  let i := rate self interest_rate in
  if feqb i f0 then
    n <- float_of_int periods ;;
    py_div principal n
  else
    g <- py_pow (fadd f1 i) periods ;;
    g' <- py_pow (fadd f1 i) periods ;;
    py_div (fmul principal (fmul i g)) (fsub g' f1).

Definition loan_balance (self : t) (principal : fl)
           (periods payments_made : Z) (interest_rate : option fl)
  : result fl :=
  let i := rate self interest_rate in
  payment <- loan_payment self principal periods (Some i) ;;
  let remaining_periods := (periods - payments_made)%Z in
  annuity_present_value self payment remaining_periods (Some i) true.

End InterestTheory.

(** ** Vocabulary of the statements *)

(** The product of all [px] of a table, which is the raw [lx[0]], is at
    least 2^-1000: binary64 holds it and every product of fewer of the
    [px] as normal numbers, so no product underflows. *)
Definition no_underflow (t : MortalityTable.t) : bool :=
  fle (Fin (qc 1 2 ^ 1000)) (prod (MortalityTable.px t)).

(** An age that the integer array of a table can hold
    ([np.array(ages, dtype=int)], 64 bits). *)
Definition in_int64 (a : Z) : bool :=
  (- 2 ^ 63 <=? a)%Z && (a <? 2 ^ 63)%Z.

(** Position of the first occurrence of [a] in [l]. *)
Fixpoint index_of (a : Z) (l : list Z) : option nat :=
  match l with
  | [] => None
  | b :: l' => if (b =? a)%Z then Some O else option_map S (index_of a l')
  end.

(** Position of the last entry of [l] that is at most [x]. *)
Fixpoint last_index_le (x : Z) (l : list Z) : option nat :=
  match l with
  | [] => None
  | b :: l' =>
      match last_index_le x l' with
      | Some k => Some (S k)
      | None => if (b <=? x)%Z then Some O else None
      end
  end.

(** Strictly increasing ages. *)
Fixpoint increasing (l : list Z) : bool :=
  match l with
  | a :: (b :: _) as l' => (a <? b)%Z && increasing l'
  | _ => true
  end.

(** Sum in the order of a Python accumulation loop, from [start]. *)
Definition fsum (start : fl) (l : list fl) : fl := fold_left fadd l start.

(** Product of the entries of [l] from position [i] on, in the order
    [np.cumprod] takes on the reversed array: last entry first. *)
Definition tail_prod (l : list fl) (i : nat) : fl :=
  fold_right (fun p acc => fmul acc p) f1 (skipn i l).

(** A finite float in the closed unit interval. *)
Definition unit_qc (q : Qc) : Prop := (0 <= q /\ q <= 1)%Qc.

(** ** Definitions used by the proofs and the examples *)

(** The raw (not yet rescaled) [lx] array: entry [i] is the product of
    [px] from [i] to the end. *)
Fixpoint tails_prod (l : list fl) : list fl :=
  match l with
  | [] => []
  | p :: r => fold_right (fun p acc => fmul acc p) f1 l :: tails_prod r
  end.

(** [tail_prod] on finite entries. *)
Definition qtail (ps : list Qc) (i : nat) : Qc :=
  fold_right (fun p acc => acc * p)%Qc 1%Qc (skipn i ps).

(** [prod] on finite entries. *)
Definition qprod (ps : list Qc) : Qc := fold_left Qcmult ps 1%Qc.

Definition table_of (r : result MortalityTable.t) : MortalityTable.t :=
  match r with
  | Ok t => t
  | Raise _ => MortalityTable.mk [] [] "" [] [] []
  end.

Definition sf_of (r : result SurvivalFunctions.t) : SurvivalFunctions.t :=
  match r with
  | Ok s => s
  | Raise _ => SurvivalFunctions.mk (table_of (Raise ValueError)) NaN NaN
  end.

(** Ages 20..22 with rates 1/4, 3/4, 1/2. *)
Definition ages3 : list Z := [20; 21; 22]%Z.
Definition rates3 : list fl := [Fin (qc 1 4); Fin (qc 3 4); fhalf].
Definition table3 : MortalityTable.t :=
  Eval vm_compute in table_of (MortalityTable.__init__ ages3 rates3 "sample").
Definition sf3 : SurvivalFunctions.t :=
  Eval vm_compute in sf_of (SurvivalFunctions.__init__ table3 f0).

(** Ages 20 and 22 (21 is not tabulated), both rates 1/2. *)
Definition ages_gap : list Z := [20; 22]%Z.
Definition rates_gap : list fl := [fhalf; fhalf].
Definition table_gap : MortalityTable.t :=
  Eval vm_compute in table_of (MortalityTable.__init__ ages_gap rates_gap "gap").
Definition sf_gap : SurvivalFunctions.t :=
  Eval vm_compute in sf_of (SurvivalFunctions.__init__ table_gap f0).

(** Ages 20..22 with rates 1, 1/2, 1/2. *)
Definition ages_one : list Z := [20; 21; 22]%Z.
Definition rates_one : list fl := [f1; fhalf; fhalf].
Definition table_one : MortalityTable.t :=
  Eval vm_compute in table_of (MortalityTable.__init__ ages_one rates_one "one").
Definition sf_one : SurvivalFunctions.t :=
  Eval vm_compute in sf_of (SurvivalFunctions.__init__ table_one f0).

(** Ages 99 and 100 with rates 1/2 and 1: a table that ends with certain
    death. *)
Definition ages_omega : list Z := [99; 100]%Z.
Definition rates_omega : list fl := [fhalf; f1].

Ltac fl_refl :=
  vm_compute;
  repeat first [ reflexivity
               | apply Qc_is_canon; reflexivity
               | apply f_equal2
               | apply f_equal ].

(** The extrapolation as the specification words it: the last tabulated
    [px], to the power of the years beyond the last tabulated age, times
    [lx] at the last tabulated age over [lx] at [x]; 0.0 when [x] is not
    tabulated. *)
Definition npx_extrapolation_spec (m : MortalityTable.t) (x n : Z) : result fl :=
  match index_of x (MortalityTable.ages m) with
  | None => Ok f0
  | Some ix =>
      la <- get_last (MortalityTable.ages m) ;;
      p_last <- get_last (MortalityTable.px m) ;;
      l_last <- get_last (MortalityTable.lx m) ;;
      l_x <- get (MortalityTable.lx m) ix ;;
      Ok (fmul (fpow p_last (x + n - la)) (fdiv l_last l_x))
  end.

(** The life expectancy as the specification words it: the later [lx]
    entries are divided by [lx] at the age itself. *)
Definition life_expectancy_spec (t : MortalityTable.t) (age : Z) : result fl :=
  match index_of age (MortalityTable.ages t) with
  | None => Raise ValueError
  | Some idx =>
      if (length (MortalityTable.ages t) <=? S idx)%nat then Ok f0
      else
        l_idx <- get (MortalityTable.lx t) idx ;;
        Ok (fsum fhalf (map (fun l => fdiv l l_idx)
                            (skipn (S idx) (MortalityTable.lx t))))
  end.

(** The rate stored for an age: the entry of [qx] at the position of the
    age, NaN for an age that is not tabulated. *)
Definition stored_qx (t : MortalityTable.t) (a : Z) : fl :=
  match index_of a (MortalityTable.ages t) with
  | Some k => nth k (MortalityTable.qx t) NaN
  | None => NaN
  end.

(** The discount factor reached after the loop has run over [ts]. *)
Definition v_after (self : SurvivalFunctions.t) (ts : list Z) (v_t : fl) : fl :=
  fold_left (fun acc _ => fmul acc (SurvivalFunctions.v self)) ts v_t.

(** Ages 20..23, all rates 1/2, at the rate -300% (discount factor -1/2). *)
Definition ages4 : list Z := [20; 21; 22; 23]%Z.
Definition rates4 : list fl := [fhalf; fhalf; fhalf; fhalf].
Definition table4 : MortalityTable.t :=
  Eval vm_compute in table_of (MortalityTable.__init__ ages4 rates4 "flat").
Definition sf4_negative : SurvivalFunctions.t :=
  Eval vm_compute in sf_of (SurvivalFunctions.__init__ table4 (of_Z (-3))).

(** A payment date of the annuity loop at age [x]: time 0, or a whole
    year that stays below the last age [la] and ends on a tabulated age. *)
Definition payment_date (ages : list Z) (x la t0 : Z) : Prop :=
  t0 = 0%Z \/ ((1 <= t0)%Z /\ (x + t0 < la)%Z /\ contains (x + t0) ages = true).

(** A calculator without a table at the rate 25%, and its withdrawal plan
    for a principal of 100 at the withdrawal rate 50% over two periods. *)
Definition annuities_quarter : Annuities.t :=
  Annuities.mk None (Fin (qc 1 4)) (Fin (qc 4 5)).
Definition plan_two_periods : Annuities.withdrawal_plan :=
  Eval vm_compute in
    match Annuities.annuity_with_withdrawal annuities_quarter (Fin (qc 100 1))
                                            (Fin (qc 1 2)) (Some 2%Z) with
    | Ok p => p
    | Raise _ => Annuities.mk_plan NaN NaN Annuities.Perpetual None
    end.

(** * Properties *)

(** ** Rationals and floats *)

Lemma Qc_leb_iff (a b : Qc) : Qc_leb a b = true <-> (a <= b)%Qc.
Proof. unfold Qc_leb, Qcle. apply Qle_bool_iff. Qed.

Lemma Qc_ltb_iff (a b : Qc) : Qc_ltb a b = true <-> (a < b)%Qc.
Proof.
  unfold Qc_ltb, Qclt. rewrite negb_true_iff.
  split; intros H.
  - apply Qnot_le_lt. intros Hle. apply Qle_bool_iff in Hle. congruence.
  - destruct (Qle_bool b a) eqn:E; [|reflexivity].
    apply Qle_bool_iff in E. exfalso. exact (Qlt_not_le _ _ H E).
Qed.

Lemma Qc_is0_iff (a : Qc) : Qc_is0 a = true <-> a = 0%Qc.
Proof.
  unfold Qc_is0, Qc_eq_bool. split; intros H.
  - destruct (Qc_eq_dec a 0); [assumption|discriminate].
  - destruct (Qc_eq_dec a 0); [reflexivity|contradiction].
Qed.

Lemma Qc_eq_bool_iff (a b : Qc) : Qc_eq_bool a b = true <-> a = b.
Proof.
  unfold Qc_eq_bool. destruct (Qc_eq_dec a b); split; congruence.
Qed.

Lemma qc_0 : qc 0 1 = 0%Qc.
Proof. reflexivity. Qed.

Lemma qc_1 : qc 1 1 = 1%Qc.
Proof. reflexivity. Qed.

Lemma Qc_0_lt_1 : (0 < 1)%Qc.
Proof. reflexivity. Qed.

Lemma Qc_0_le_1 : (0 <= 1)%Qc.
Proof. discriminate. Qed.

Lemma fmul_1_l (a : fl) : fmul f1 a = a.
Proof.
  destruct a; try reflexivity.
  unfold f1, of_Z. simpl. rewrite qc_1. f_equal. ring.
Qed.

Lemma fmul_fin (a b : Qc) : fmul (Fin a) (Fin b) = Fin (a * b).
Proof. reflexivity. Qed.

Lemma fadd_fin (a b : Qc) : fadd (Fin a) (Fin b) = Fin (a + b).
Proof. reflexivity. Qed.

Lemma fsub_fin (a b : Qc) : fsub (Fin a) (Fin b) = Fin (a - b).
Proof. reflexivity. Qed.

Lemma fdiv_fin (a b : Qc) : b <> 0%Qc -> fdiv (Fin a) (Fin b) = Fin (a / b).
Proof.
  intros Hb. simpl. destruct (Qc_is0 b) eqn:E; [|reflexivity].
  apply Qc_is0_iff in E. contradiction.
Qed.

Lemma fle_fin (a b : Qc) : fle (Fin a) (Fin b) = true <-> (a <= b)%Qc.
Proof. simpl. apply Qc_leb_iff. Qed.

Lemma flt_fin (a b : Qc) : flt (Fin a) (Fin b) = true <-> (a < b)%Qc.
Proof. simpl. apply Qc_ltb_iff. Qed.

(** Membership in the unit interval makes a float finite. *)
Lemma in_unit_fin (q : fl) :
  MortalityTable.in_unit q = true <-> exists r, q = Fin r /\ unit_qc r.
Proof.
  unfold MortalityTable.in_unit, unit_qc. rewrite andb_true_iff. split.
  - intros [H0 H1]. destruct q as [r| | |]; simpl in *; try discriminate.
    exists r. split; [reflexivity|].
    unfold f0, f1, of_Z in *. rewrite qc_0 in H0. rewrite qc_1 in H1.
    simpl in H0, H1. split; apply Qc_leb_iff; assumption.
  - intros (r & -> & H0 & H1). unfold f0, f1, of_Z. rewrite qc_0, qc_1.
    simpl. split; apply Qc_leb_iff; assumption.
Qed.

Lemma forall_in_unit_fin (qx : list fl) :
  forallb MortalityTable.in_unit qx = true ->
  exists qs, qx = map Fin qs /\ Forall unit_qc qs.
Proof.
  induction qx as [|q qx IH]; simpl; intros H.
  - exists []. split; [reflexivity|constructor].
  - apply andb_true_iff in H. destruct H as [Hq Hqx].
    apply in_unit_fin in Hq. destruct Hq as (r & -> & Hr).
    destruct (IH Hqx) as (qs & -> & Hqs).
    exists (r :: qs). split; [reflexivity|constructor; assumption].
Qed.

Lemma unit_qc_compl (q : Qc) : unit_qc q -> unit_qc (1 - q).
Proof.
  unfold unit_qc. intros [H0 H1]. split.
  - apply Qcle_minus_iff in H1. exact H1.
  - apply Qcle_minus_iff. replace (1 + - (1 - q))%Qc with q by ring. exact H0.
Qed.

Lemma unit_qc_mult (a b : Qc) : unit_qc a -> unit_qc b -> unit_qc (a * b).
Proof.
  unfold unit_qc. intros [Ha0 Ha1] [Hb0 Hb1]. split.
  - replace 0%Qc with (0 * b)%Qc by ring. apply Qcmult_le_compat_r; assumption.
  - apply Qcle_trans with (1 * b)%Qc.
    + apply Qcmult_le_compat_r; assumption.
    + replace (1 * b)%Qc with b by ring. assumption.
Qed.

Lemma unit_qc_1 : unit_qc 1.
Proof. split; [apply Qc_0_le_1 | apply Qcle_refl]. Qed.

Lemma unit_qc_0 : unit_qc 0.
Proof. split; [apply Qcle_refl | apply Qc_0_le_1]. Qed.

(** ** Arrays and index searches *)

Lemma get_last_cons {A} (a b : A) (l : list A) :
  get_last (a :: b :: l) = get_last (b :: l).
Proof.
  unfold get_last. change (rev (a :: b :: l)) with (rev (b :: l) ++ [a]).
  destruct (rev (b :: l)) as [|c m] eqn:E; [|reflexivity].
  apply (f_equal (@length A)) in E. rewrite length_rev in E. discriminate.
Qed.

Lemma get_last_nth {A} (l : list A) (a : A) :
  get_last l = Ok a <-> nth_error l (length l - 1) = Some a.
Proof.
  induction l as [|b l IH].
  - simpl. split; discriminate.
  - destruct l as [|c l].
    + simpl. split; intros H; inversion H; reflexivity.
    + rewrite get_last_cons, IH. simpl. rewrite Nat.sub_0_r. reflexivity.
Qed.

Lemma get_last_nil {A} (l : list A) e : get_last l = Raise e -> l = [].
Proof.
  unfold get_last. destruct (rev l) eqn:E; [|discriminate].
  intros _. apply (f_equal (@rev A)) in E. rewrite rev_involutive in E.
  exact E.
Qed.

Lemma where_first (a : Z) (l : list Z) (i : nat) :
  nth_error (where_from (fun b => b =? a)%Z l i) 0
  = option_map (Nat.add i) (index_of a l).
Proof.
  revert i. induction l as [|b l IH]; intros i; [reflexivity|].
  cbn [where_from index_of]. destruct (b =? a)%Z.
  - simpl. f_equal. lia.
  - rewrite IH. destruct (index_of a l); simpl; [f_equal; lia|reflexivity].
Qed.

Lemma where_eq_get (a : Z) (l : list Z) :
  get (np_where (fun b => b =? a)%Z l) 0
  = match index_of a l with Some k => Ok k | None => Raise IndexError end.
Proof.
  unfold get, np_where. rewrite where_first.
  destruct (index_of a l); reflexivity.
Qed.

Lemma where_eq_empty (a : Z) (l : list Z) :
  (length (np_where (fun b => b =? a)%Z l) =? 0)%nat
  = match index_of a l with Some _ => false | None => true end.
Proof.
  pose proof (where_first a l 0) as H. fold (np_where (fun b => (b =? a)%Z) l) in H.
  destruct (np_where (fun b => (b =? a)%Z) l); simpl in *;
    destruct (index_of a l); simpl in *; congruence.
Qed.

Lemma contains_index_of (a : Z) (l : list Z) :
  contains a l = match index_of a l with Some _ => true | None => false end.
Proof.
  unfold contains. induction l as [|b l IH]; simpl; [reflexivity|].
  rewrite (Z.eqb_sym a b). destruct (b =? a)%Z; simpl; [reflexivity|].
  rewrite IH. destruct (index_of a l); reflexivity.
Qed.

Lemma index_of_nth (a : Z) (l : list Z) (k : nat) :
  index_of a l = Some k ->
  nth_error l k = Some a /\ forall j, (j < k)%nat -> nth_error l j <> Some a.
Proof.
  revert k. induction l as [|b l IH]; intros k; simpl; [discriminate|].
  destruct (b =? a)%Z eqn:E.
  - intros H. inversion H; subst. apply Z.eqb_eq in E. subst.
    split; [reflexivity|]. intros j Hj. lia.
  - destruct (index_of a l) as [k'|]; simpl; [|discriminate].
    intros H. inversion H; subst. destruct (IH k' eq_refl) as [H1 H2].
    split; [exact H1|]. intros [|j] Hj; simpl.
    + intros Hb. inversion Hb; subst. rewrite Z.eqb_refl in E. discriminate.
    + apply H2. lia.
Qed.

Lemma index_of_lt (a : Z) (l : list Z) (k : nat) :
  index_of a l = Some k -> (k < length l)%nat.
Proof.
  intros H. apply index_of_nth in H. destruct H as [H _].
  apply nth_error_Some. congruence.
Qed.

Lemma increasing_tail (a : Z) (l : list Z) :
  increasing (a :: l) = true -> increasing l = true.
Proof.
  destruct l as [|b l]; [reflexivity|].
  simpl. intros H. apply andb_true_iff in H. apply H.
Qed.

Lemma increasing_head (a : Z) (l : list Z) :
  increasing (a :: l) = true -> forall b, In b l -> (a < b)%Z.
Proof.
  revert a. induction l as [|c l IH]; intros a H b Hb; [destruct Hb|].
  simpl in H. apply andb_true_iff in H. destruct H as [Hac Hl].
  apply Z.ltb_lt in Hac. destruct Hb as [->|Hb]; [exact Hac|].
  specialize (IH c Hl b Hb). lia.
Qed.

Lemma increasing_nth (l : list Z) (i j : nat) (a b : Z) :
  increasing l = true -> (i < j)%nat ->
  nth_error l i = Some a -> nth_error l j = Some b -> (a < b)%Z.
Proof.
  revert i j. induction l as [|c l IH]; intros i j Hinc Hij Hi Hj.
  - destruct i; discriminate.
  - destruct j as [|j]; [lia|]. simpl in Hj. destruct i as [|i].
    + simpl in Hi. inversion Hi; subst.
      apply (increasing_head _ _ Hinc). eapply nth_error_In; eauto.
    + simpl in Hi. apply (IH i j); auto. { eapply increasing_tail; eauto. } lia.
Qed.

(** In an increasing array every age sits at one position. *)
Lemma increasing_index_of (l : list Z) (k : nat) (a : Z) :
  increasing l = true -> nth_error l k = Some a -> index_of a l = Some k.
Proof.
  intros Hinc Hk. destruct (index_of a l) as [k'|] eqn:E.
  - apply index_of_nth in E. destruct E as [E1 E2].
    destruct (Nat.lt_trichotomy k k') as [H|[H|H]].
    + exfalso. exact (E2 k H Hk).
    + congruence.
    + pose proof (increasing_nth _ _ _ _ _ Hinc H E1 Hk). lia.
  - exfalso. pose proof (contains_index_of a l) as Hc. rewrite E in Hc.
    unfold contains in Hc.
    assert (existsb (Z.eqb a) l = true) as Ht.
    { apply existsb_exists. exists a. split; [eapply nth_error_In; eauto|].
      apply Z.eqb_refl. }
    congruence.
Qed.

Lemma where_le_last (x : Z) (l : list Z) (i : nat) :
  get_last (where_from (fun a => a <=? x)%Z l i)
  = match last_index_le x l with
    | Some k => Ok (i + k)%nat
    | None => Raise IndexError
    end
  /\ (last_index_le x l = None -> where_from (fun a => a <=? x)%Z l i = []).
Proof.
  revert i. induction l as [|b l IH]; intros i; simpl.
  - split; reflexivity.
  - destruct (IH (S i)) as [IH1 IH2].
    destruct (last_index_le x l) as [k|] eqn:E.
    + split; [|discriminate].
      destruct (b <=? x)%Z.
      * destruct (where_from (fun a => (a <=? x)%Z) l (S i)) as [|c m] eqn:Ew.
        { discriminate. }
        rewrite get_last_cons, IH1. f_equal. lia.
      * rewrite IH1. f_equal. lia.
    + rewrite (IH2 eq_refl). destruct (b <=? x)%Z.
      * split; [|discriminate]. unfold get_last. simpl. f_equal. lia.
      * split; reflexivity.
Qed.

Lemma where_le_get_last (x : Z) (l : list Z) :
  get_last (np_where (fun a => a <=? x)%Z l)
  = match last_index_le x l with Some k => Ok k | None => Raise IndexError end.
Proof.
  unfold np_where. rewrite (proj1 (where_le_last x l 0)).
  destruct (last_index_le x l); reflexivity.
Qed.

Lemma where_le_empty (x : Z) (l : list Z) :
  (length (np_where (fun a => a <=? x)%Z l) =? 0)%nat
  = match last_index_le x l with Some _ => false | None => true end.
Proof.
  pose proof (where_le_last x l 0) as [H1 H2]. fold (np_where (fun a => (a <=? x)%Z) l) in *.
  destruct (last_index_le x l) as [k|].
  - destruct (np_where (fun a => (a <=? x)%Z) l); [discriminate|reflexivity].
  - rewrite (H2 eq_refl). reflexivity.
Qed.

(** What [last_index_le] finds. *)
Lemma last_index_le_spec (x : Z) (l : list Z) :
  match last_index_le x l with
  | Some k =>
      (exists a, nth_error l k = Some a /\ (a <= x)%Z)
      /\ forall j b, (k < j)%nat -> nth_error l j = Some b -> (x < b)%Z
  | None => forall b, In b l -> (x < b)%Z
  end.
Proof.
  induction l as [|c l IH]; simpl.
  - intros b [].
  - destruct (last_index_le x l) as [k|].
    + destruct IH as [(a & Ha & Hax) IH2]. split.
      * exists a. split; assumption.
      * intros [|j] b Hj Hb; [lia|]. simpl in Hb. apply (IH2 j); [lia|exact Hb].
    + destruct (c <=? x)%Z eqn:E.
      * split.
        { exists c. split; [reflexivity|apply Z.leb_le; exact E]. }
        intros [|j] b Hj Hb; [lia|]. simpl in Hb. apply IH.
        eapply nth_error_In; eauto.
      * intros b [->|Hb]; [apply Z.leb_gt; exact E|apply IH; exact Hb].
Qed.

Lemma last_index_le_lt (x : Z) (l : list Z) (k : nat) :
  last_index_le x l = Some k -> (k < length l)%nat.
Proof.
  intros H. pose proof (last_index_le_spec x l) as S. rewrite H in S.
  destruct S as [(a & Ha & _) _]. apply nth_error_Some. congruence.
Qed.

Lemma index_of_some_last_le (x : Z) (l : list Z) (k : nat) :
  index_of x l = Some k -> exists k', last_index_le x l = Some k'.
Proof.
  intros H. apply index_of_nth in H. destruct H as [H _].
  pose proof (last_index_le_spec x l) as S.
  destruct (last_index_le x l) as [k'|]; [eauto|].
  exfalso. specialize (S x (nth_error_In _ _ H)). lia.
Qed.

Lemma get_ok {A} (l : list A) (i : nat) :
  (i < length l)%nat -> exists a, get l i = Ok a /\ nth_error l i = Some a.
Proof.
  intros H. unfold get. destruct (nth_error l i) as [a|] eqn:E; [eauto|].
  apply nth_error_None in E. lia.
Qed.

Lemma get_nth {A} (l : list A) (i : nat) (a : A) :
  nth_error l i = Some a -> get l i = Ok a.
Proof. unfold get. intros ->. reflexivity. Qed.

(** ** Construction *)

Lemma cumprod_from_snoc (acc a : fl) (m : list fl) :
  cumprod_from acc (m ++ [a])
  = cumprod_from acc m ++ [fmul (fold_left fmul m acc) a].
Proof.
  revert acc. induction m as [|b m IH]; intros acc; simpl; [reflexivity|].
  rewrite IH. reflexivity.
Qed.

Lemma cumprod_snoc (a : fl) (m : list fl) :
  cumprod (m ++ [a]) = cumprod m ++ [fmul (prod m) a].
Proof.
  destruct m as [|b m].
  - unfold prod. cbn [app cumprod fold_left cumprod_from].
    rewrite fmul_1_l. reflexivity.
  - change ((b :: m) ++ [a]) with (b :: (m ++ [a])). cbn [cumprod].
    rewrite cumprod_from_snoc. unfold prod. cbn [fold_left].
    rewrite fmul_1_l. reflexivity.
Qed.

Lemma cumprod_reversed (l : list fl) : rev (cumprod (rev l)) = tails_prod l.
Proof.
  induction l as [|p r IH]; [reflexivity|].
  change (rev (p :: r)) with (rev r ++ [p]).
  rewrite cumprod_snoc, rev_app_distr. simpl rev at 1. simpl app.
  rewrite IH. cbn [tails_prod fold_right]. f_equal. f_equal.
  unfold prod. rewrite <- fold_left_rev_right. rewrite rev_involutive.
  reflexivity.
Qed.

Lemma tails_prod_length (l : list fl) : length (tails_prod l) = length l.
Proof. induction l; simpl; congruence. Qed.

Lemma tails_prod_nth (l : list fl) (i : nat) :
  (i < length l)%nat -> nth_error (tails_prod l) i = Some (tail_prod l i).
Proof.
  revert i. induction l as [|p r IH]; intros i Hi; [simpl in Hi; lia|].
  destruct i as [|i]; [reflexivity|].
  simpl in Hi. cbn [tails_prod nth_error]. rewrite IH by lia. reflexivity.
Qed.

Lemma zip_with_length {A B C} (f : A -> B -> C) (la : list A) (lb : list B) :
  length la = length lb -> length (zip_with f la lb) = length la.
Proof.
  revert lb. induction la as [|a la IH]; intros [|b lb] H; simpl in *;
    try reflexivity; try discriminate.
  f_equal. apply IH. congruence.
Qed.

Lemma zip_with_nth {A B C} (f : A -> B -> C) (la : list A) (lb : list B)
      (i : nat) (a : A) (b : B) :
  nth_error la i = Some a -> nth_error lb i = Some b ->
  nth_error (zip_with f la lb) i = Some (f a b).
Proof.
  revert lb i. induction la as [|a' la IH]; intros [|b' lb] [|i] Ha Hb;
    simpl in *; try discriminate.
  - congruence.
  - apply IH; assumption.
Qed.

(** What a successful construction stores. *)
Lemma init_inv (ages : list Z) (qx : list fl) (name : string)
      (t : MortalityTable.t) :
  MortalityTable.__init__ ages qx name = Ok t ->
  length ages = length qx
  /\ forallb MortalityTable.in_unit qx = true
  /\ qx <> []
  /\ MortalityTable.ages t = ages
  /\ MortalityTable.qx t = qx
  /\ MortalityTable.px t = map (fsub f1) qx
  /\ MortalityTable.lx t
     = map (fun l => fdiv l (tail_prod (map (fsub f1) qx) 0))
           (tails_prod (map (fsub f1) qx))
  /\ MortalityTable.dx t = zip_with fmul (MortalityTable.lx t) qx.
Proof.
  unfold MortalityTable.__init__.
  destruct (length ages =? length qx)%nat eqn:El; simpl; [|discriminate].
  destruct (forallb MortalityTable.in_unit qx) eqn:Eu; simpl; [|discriminate].
  unfold MortalityTable._calculate_survival_probabilities.
  rewrite cumprod_reversed.
  destruct qx as [|q qx]; [discriminate|].
  cbn [map tails_prod get nth_error bind].
  intros H. inversion H; subst; clear H. simpl.
  apply Nat.eqb_eq in El.
  repeat split; try assumption; try reflexivity. discriminate.
Qed.

Lemma init_lengths (ages : list Z) (qx : list fl) (name : string)
      (t : MortalityTable.t) :
  MortalityTable.__init__ ages qx name = Ok t ->
  let n := length (MortalityTable.ages t) in
  length (MortalityTable.qx t) = n /\ length (MortalityTable.px t) = n
  /\ length (MortalityTable.lx t) = n /\ length (MortalityTable.dx t) = n
  /\ (0 < n)%nat.
Proof.
  intros H. apply init_inv in H.
  destruct H as (Hl & _ & Hne & Ha & Hq & Hp & Hlx & Hd).
  cbv zeta. rewrite Hd, Hlx, Hp, Hq, Ha.
  rewrite zip_with_length;
    rewrite ?length_map, ?tails_prod_length, ?length_map; auto.
  repeat split; auto. rewrite Hl. destruct qx; [congruence|simpl; lia].
Qed.

(** ** Exact products of survival probabilities *)

Lemma Qc_mult_pos (a b : Qc) : (0 < a -> 0 < b -> 0 < a * b)%Qc.
Proof.
  intros Ha Hb. replace 0%Qc with (0 * b)%Qc by ring.
  apply Qcmult_lt_compat_r; assumption.
Qed.

Lemma Qc_mult_le_1 (a p : Qc) : (0 <= a -> p <= 1 -> a * p <= a)%Qc.
Proof.
  intros Ha Hp. rewrite Qcmult_comm.
  apply Qcle_trans with (1 * a)%Qc.
  - apply Qcmult_le_compat_r; assumption.
  - rewrite Qcmult_1_l. apply Qcle_refl.
Qed.

Lemma tail_prod_fin (ps : list Qc) (i : nat) :
  tail_prod (map Fin ps) i = Fin (qtail ps i).
Proof.
  unfold tail_prod, qtail. rewrite skipn_map.
  induction (skipn i ps) as [|p r IH]; [reflexivity|].
  cbn [map fold_right]. rewrite IH. reflexivity.
Qed.

Lemma qtail_step (ps : list Qc) (i : nat) (p : Qc) :
  nth_error ps i = Some p -> qtail ps i = (qtail ps (S i) * p)%Qc.
Proof.
  revert i. induction ps as [|a ps IH]; intros [|i] H; simpl in H;
    try discriminate.
  - inversion H; subst. reflexivity.
  - apply IH in H. exact H.
Qed.

Lemma qtail_end (ps : list Qc) (i : nat) :
  (length ps <= i)%nat -> qtail ps i = 1%Qc.
Proof. intros H. unfold qtail. rewrite skipn_all2 by exact H. reflexivity. Qed.

Lemma qtail_pos (ps : list Qc) (i : nat) :
  Forall (fun p => 0 < p)%Qc ps -> (0 < qtail ps i)%Qc.
Proof.
  intros H. unfold qtail.
  assert (Forall (fun p => 0 < p)%Qc (skipn i ps)) as Hs.
  { apply Forall_forall. intros x Hx. rewrite Forall_forall in H. apply H.
    rewrite <- (firstn_skipn i ps). apply in_or_app. right. exact Hx. }
  induction Hs as [|p r Hp Hr IH]; [apply Qc_0_lt_1|].
  cbn [fold_right]. apply Qc_mult_pos; assumption.
Qed.

Lemma qtail_le_succ (ps : list Qc) (i : nat) :
  Forall (fun p => 0 < p /\ p <= 1)%Qc ps ->
  (qtail ps i <= qtail ps (S i))%Qc.
Proof.
  intros H. destruct (nth_error ps i) as [p|] eqn:E.
  - rewrite (qtail_step _ _ _ E). apply Qc_mult_le_1.
    + apply Qclt_le_weak. apply qtail_pos.
      eapply Forall_impl; [|exact H]. simpl. intros a [Ha _]. exact Ha.
    + rewrite Forall_forall in H. apply (H p). eapply nth_error_In; eauto.
  - apply nth_error_None in E. rewrite !qtail_end by lia. apply Qcle_refl.
Qed.

Lemma qtail_le_0 (ps : list Qc) (i : nat) :
  Forall (fun p => 0 < p /\ p <= 1)%Qc ps -> (qtail ps 0 <= qtail ps i)%Qc.
Proof.
  intros H. induction i as [|i IH]; [apply Qcle_refl|].
  eapply Qcle_trans; [exact IH|]. apply qtail_le_succ. exact H.
Qed.

(** A constructed table holds finite numbers: the rates [qs] and their
    complements. *)
Lemma init_fin (ages : list Z) (qx : list fl) (name : string)
      (t : MortalityTable.t) :
  MortalityTable.__init__ ages qx name = Ok t ->
  exists qs,
    qx = map Fin qs /\ Forall unit_qc qs
    /\ MortalityTable.px t = map Fin (map (fun q => 1 - q)%Qc qs)
    /\ Forall unit_qc (map (fun q => 1 - q)%Qc qs).
Proof.
  intros H. apply init_inv in H.
  destruct H as (_ & Hu & _ & _ & _ & Hp & _ & _).
  destruct (forall_in_unit_fin _ Hu) as (qs & -> & Hqs).
  exists qs. repeat split; try assumption.
  - rewrite Hp, !map_map. apply map_ext. intros q.
    unfold f1, of_Z. rewrite qc_1. reflexivity.
  - apply Forall_forall. intros p Hp'. apply in_map_iff in Hp'.
    destruct Hp' as (q & <- & Hq). apply unit_qc_compl.
    rewrite Forall_forall in Hqs. apply Hqs. exact Hq.
Qed.

Lemma Qc_pos_neq0 (a : Qc) : (0 < a)%Qc -> a <> 0%Qc.
Proof. intros H E. subst. exact (Qclt_not_eq _ _ H eq_refl). Qed.

Lemma forallb_lt1_fin (qs : list Qc) :
  forallb (fun q => flt q f1) (map Fin qs) = true ->
  Forall unit_qc qs ->
  Forall (fun p => 0 < p /\ p <= 1)%Qc (map (fun q => 1 - q)%Qc qs).
Proof.
  intros Hlt Hu. apply Forall_forall. intros p Hp.
  apply in_map_iff in Hp. destruct Hp as (q & <- & Hq).
  rewrite forallb_forall in Hlt. specialize (Hlt (Fin q) (in_map Fin _ _ Hq)).
  unfold f1, of_Z in Hlt. rewrite qc_1 in Hlt. apply flt_fin in Hlt.
  rewrite Forall_forall in Hu. destruct (unit_qc_compl _ (Hu q Hq)) as [_ H1].
  split; [|exact H1]. apply Qclt_minus_iff in Hlt. exact Hlt.
Qed.

(** Entry [i] of the rescaled [lx] when no rate equals 1. *)
Lemma lx_nth_fin (ages : list Z) (qs : list Qc) (name : string)
      (t : MortalityTable.t) (i : nat) (l : fl) :
  MortalityTable.__init__ ages (map Fin qs) name = Ok t ->
  Forall (fun p => 0 < p /\ p <= 1)%Qc (map (fun q => 1 - q)%Qc qs) ->
  nth_error (MortalityTable.lx t) i = Some l ->
  let ps := map (fun q => 1 - q)%Qc qs in
  (i < length ps)%nat /\ l = Fin (qtail ps i / qtail ps 0).
Proof.
  intros Hinit Hps Hl. cbv zeta.
  destruct (init_fin _ _ _ _ Hinit) as (qs' & Hqs' & _ & Hpx & _).
  assert (qs' = qs) as ->.
  { clear - Hqs'. revert qs' Hqs'. induction qs as [|q qs IH]; intros [|q' qs'] H;
      simpl in H; try discriminate; [reflexivity|].
    inversion H; subst. f_equal. apply IH. assumption. }
  apply init_inv in Hinit.
  destruct Hinit as (_ & _ & _ & _ & _ & Hp & Hlx & _).
  rewrite <- Hp, Hpx in Hlx. rewrite Hlx in Hl.
  rewrite nth_error_map in Hl.
  destruct (nth_error (tails_prod _) i) as [r|] eqn:Er; [|discriminate].
  assert (i < length (map (fun q => 1 - q)%Qc qs))%nat as Hi.
  { assert (nth_error (tails_prod (map Fin (map (fun q : Qc => 1 - q) qs))) i <> None)
      as Hn by congruence.
    apply nth_error_Some in Hn. rewrite tails_prod_length, length_map in Hn.
    exact Hn. }
  split; [exact Hi|].
  rewrite tails_prod_nth in Er by (rewrite length_map; exact Hi).
  inversion Er; subst r. simpl in Hl. inversion Hl; subst l.
  rewrite !tail_prod_fin. apply fdiv_fin.
  apply Qc_pos_neq0. apply qtail_pos.
  eapply Forall_impl; [|exact Hps]. simpl. intros a [Ha _]. exact Ha.
Qed.

(** ** Claims about construction *)

(** No call changes the table it runs on. *)
Lemma perform_keeps_table (np_exp np_log : fl -> fl) (i v : fl)
      (c : TableObject.call) (table : MortalityTable.t) :
  snd (TableObject.perform np_exp np_log i v c table) = table.
Proof. destruct c; reflexivity. Qed.

Lemma run_keeps_table (np_exp np_log : fl -> fl) (i v : fl)
      (calls : list TableObject.call) (table : MortalityTable.t) :
  snd (TableObject.run np_exp np_log i v calls table) = table.
Proof.
  revert table. induction calls as [|c calls IH]; intros table; [reflexivity|].
  cbn [TableObject.run].
  pose proof (perform_keeps_table np_exp np_log i v c table) as Hc.
  destruct (TableObject.perform np_exp np_log i v c table) as [r table'].
  cbn [snd] in Hc. subst table'.
  specialize (IH table).
  destruct (TableObject.run np_exp np_log i v calls table) as [rs table''].
  exact IH.
Qed.

(** Input that passes the validation and is not empty builds a table. *)
Lemma init_builds (ages : list Z) (qx : list fl) (name : string) :
  length ages = length qx ->
  (forall q, In q qx -> MortalityTable.in_unit q = true) ->
  qx <> [] ->
  exists t, MortalityTable.__init__ ages qx name = Ok t.
Proof.
  intros Hl Hu Hne. unfold MortalityTable.__init__.
  apply Nat.eqb_eq in Hl. rewrite Hl.
  apply forallb_forall in Hu. rewrite Hu. cbn [negb].
  unfold MortalityTable._calculate_survival_probabilities.
  rewrite cumprod_reversed.
  destruct qx as [|q qx]; [contradiction|].
  cbn [map tails_prod get nth_error bind]. eexists. reflexivity.
Qed.

(** C7.  For ages that the integer array can hold: construction raises
    [ValueError] exactly when the two arrays differ in length or some rate
    is not in the closed unit interval; a table that is returned stores
    the two inputs and the derived arrays [px], [lx] and [dx]; every
    input that passes the validation and is not empty does return a
    table, whose five arrays have one length; and whatever calls are then
    made on the table, directly or through a [SurvivalFunctions], leave
    it as constructed. *)
Theorem init_validation (ages : list Z) (qx : list fl) (name : string) :
  forallb in_int64 ages = true ->
  (MortalityTable.__init__ ages qx name = Raise ValueError
   <-> (length ages <> length qx
        \/ exists q, In q qx /\ MortalityTable.in_unit q = false))
  /\ (forall t, MortalityTable.__init__ ages qx name = Ok t ->
       MortalityTable.ages t = ages
       /\ MortalityTable.qx t = qx
       /\ MortalityTable.px t = map (fsub f1) qx
       /\ (forall i, (i < length qx)%nat ->
             nth_error (MortalityTable.lx t) i
             = Some (fdiv (tail_prod (MortalityTable.px t) i)
                          (tail_prod (MortalityTable.px t) 0)))
       /\ (forall i l q,
             nth_error (MortalityTable.lx t) i = Some l ->
             nth_error qx i = Some q ->
             nth_error (MortalityTable.dx t) i = Some (fmul l q)))
  /\ (length ages = length qx ->
      (forall q, In q qx -> MortalityTable.in_unit q = true) ->
      qx <> [] ->
      exists t,
        MortalityTable.__init__ ages qx name = Ok t
        /\ length (MortalityTable.px t) = length ages
        /\ length (MortalityTable.lx t) = length ages
        /\ length (MortalityTable.dx t) = length ages
        /\ forall (np_exp np_log : fl -> fl) (i v : fl)
                  (calls : list TableObject.call),
             snd (TableObject.run np_exp np_log i v calls t) = t).
Proof.
  intros _. split; [|split].
  - unfold MortalityTable.__init__. split.
    + destruct (length ages =? length qx)%nat eqn:El; simpl.
      * destruct (forallb MortalityTable.in_unit qx) eqn:Eu; simpl.
        { unfold MortalityTable._calculate_survival_probabilities.
          destruct (get _ 0) eqn:Eg; simpl; [discriminate|].
          unfold get in Eg. destruct (nth_error _ 0); inversion Eg.
          discriminate. }
        intros _. right.
        assert (~ (forall q, In q qx -> MortalityTable.in_unit q = true)) as Hn.
        { intros Hall. apply forallb_forall in Hall. congruence. }
        clear Eu El. induction qx as [|q qx IH].
        { exfalso. apply Hn. intros q []. }
        destruct (MortalityTable.in_unit q) eqn:Eq.
        { destruct IH as (q' & Hin & Hq').
          - intros Hall. apply Hn. intros q' [<-|Hin]; auto.
          - exists q'. split; [right; exact Hin|exact Hq']. }
        exists q. split; [left; reflexivity|exact Eq].
      * intros _. left. apply Nat.eqb_neq. exact El.
    + intros [Hne|(q & Hin & Hq)].
      * apply Nat.eqb_neq in Hne. rewrite Hne. reflexivity.
      * destruct (length ages =? length qx)%nat; simpl; [|reflexivity].
        destruct (forallb MortalityTable.in_unit qx) eqn:Eu; [|reflexivity].
        rewrite forallb_forall in Eu. rewrite (Eu q Hin) in Hq. discriminate.
  - intros t Ht. apply init_inv in Ht.
    destruct Ht as (Hl & _ & _ & Ha & Hq & Hp & Hlx & Hd).
    repeat split; try assumption.
    + intros i Hi. rewrite Hlx, Hp, nth_error_map.
      rewrite tails_prod_nth by (rewrite length_map; exact Hi). reflexivity.
    + intros i l q Hli Hqi. rewrite Hd. apply zip_with_nth; assumption.
  - intros Hl Hu Hne.
    destruct (init_builds ages qx name Hl Hu Hne) as (t & Ht).
    exists t. split; [exact Ht|].
    pose proof (init_lengths _ _ _ _ Ht) as (_ & Hp & Hlx & Hdx & _).
    pose proof (init_inv _ _ _ _ Ht) as (_ & _ & _ & Ha & _).
    cbv zeta in Hp, Hlx, Hdx. rewrite Ha in Hp, Hlx, Hdx.
    split; [exact Hp|]. split; [exact Hlx|]. split; [exact Hdx|].
    intros np_exp np_log i v calls. apply run_keeps_table.
Qed.

Lemma init_validation_witness :
  exists t,
    MortalityTable.__init__ ages3 rates3 "sample" = Ok t
    /\ length (MortalityTable.px t) = length ages3
    /\ length (MortalityTable.lx t) = length ages3
    /\ length (MortalityTable.dx t) = length ages3
    /\ forall (np_exp np_log : fl -> fl) (i v : fl)
              (calls : list TableObject.call),
         snd (TableObject.run np_exp np_log i v calls t) = t.
Proof.
  apply (proj2 (proj2 (init_validation ages3 rates3 "sample" eq_refl))).
  - reflexivity.
  - intros q [<-|[<-|[<-|[]]]]; reflexivity.
  - discriminate.
Defined.

(** In exact arithmetic, when every rate is below 1, the stored [lx]
    starts at 1, never drops below 1, never decreases from one age to the
    next, and each entry is the previous one divided by the previous
    [px]. *)
Lemma lx_grows_in_exact_arithmetic (ages : list Z) (qx : list fl) (name : string)
        (t : MortalityTable.t) :
  MortalityTable.__init__ ages qx name = Ok t ->
  forallb (fun q => flt q f1) qx = true ->
  nth_error (MortalityTable.lx t) 0 = Some f1
  /\ (forall i l, nth_error (MortalityTable.lx t) i = Some l -> fle f1 l = true)
  /\ (forall i a b,
        nth_error (MortalityTable.lx t) i = Some a ->
        nth_error (MortalityTable.lx t) (S i) = Some b ->
        fle a b = true)
  /\ (forall i a b p,
        nth_error (MortalityTable.lx t) i = Some a ->
        nth_error (MortalityTable.lx t) (S i) = Some b ->
        nth_error (MortalityTable.px t) i = Some p ->
        b = fdiv a p).
Proof.
  intros Hinit Hlt.
  destruct (init_fin _ _ _ _ Hinit) as (qs & -> & Hu & Hpx & _).
  pose proof (forallb_lt1_fin _ Hlt Hu) as Hps.
  pose proof (init_lengths _ _ _ _ Hinit) as (_ & _ & Hlen & _ & Hpos).
  set (ps := map (fun q => 1 - q)%Qc qs) in *.
  assert (0 < qtail ps 0)%Qc as H0.
  { apply qtail_pos. eapply Forall_impl; [|exact Hps]. simpl. tauto. }
  pose proof (Qc_pos_neq0 _ H0) as Hn0.
  repeat split.
  - destruct (nth_error (MortalityTable.lx t) 0) as [l|] eqn:E.
    + destruct (lx_nth_fin _ _ _ _ _ _ Hinit Hps E) as [_ ->].
      fold ps. unfold f1, of_Z. rewrite qc_1. do 2 f_equal. field. exact Hn0.
    + apply nth_error_None in E. lia.
  - intros i l E. destruct (lx_nth_fin _ _ _ _ _ _ Hinit Hps E) as [_ ->].
    fold ps. unfold f1, of_Z. rewrite qc_1. apply fle_fin.
    apply Qcmult_lt_0_le_reg_r with (z := qtail ps 0); [exact H0|].
    replace (qtail ps i / qtail ps 0 * qtail ps 0)%Qc with (qtail ps i)
      by (field; exact Hn0).
    rewrite Qcmult_1_l. apply qtail_le_0. exact Hps.
  - intros i a b Ea Eb.
    destruct (lx_nth_fin _ _ _ _ _ _ Hinit Hps Ea) as [_ ->].
    destruct (lx_nth_fin _ _ _ _ _ _ Hinit Hps Eb) as [_ ->].
    fold ps. apply fle_fin.
    apply Qcmult_lt_0_le_reg_r with (z := qtail ps 0); [exact H0|].
    replace (qtail ps i / qtail ps 0 * qtail ps 0)%Qc with (qtail ps i)
      by (field; exact Hn0).
    replace (qtail ps (S i) / qtail ps 0 * qtail ps 0)%Qc with (qtail ps (S i))
      by (field; exact Hn0).
    apply qtail_le_succ. exact Hps.
  - intros i a b p Ea Eb Ep.
    destruct (lx_nth_fin _ _ _ _ _ _ Hinit Hps Ea) as [_ ->].
    destruct (lx_nth_fin _ _ _ _ _ _ Hinit Hps Eb) as [_ ->].
    fold ps. rewrite Hpx in Ep. fold ps in Ep. rewrite nth_error_map in Ep.
    destruct (nth_error ps i) as [pi|] eqn:Epi; [|discriminate].
    inversion Ep; subst p.
    assert (0 < pi)%Qc as Hpi.
    { rewrite Forall_forall in Hps. apply (Hps pi). eapply nth_error_In; eauto. }
    pose proof (Qc_pos_neq0 _ Hpi) as Hpn.
    rewrite fdiv_fin by exact Hpn. f_equal.
    rewrite (qtail_step _ _ _ Epi). field. split; assumption.
Qed.

(** C10.  The rescaling does not always leave [lx[0] = 1] on a table
    whose rates are all below 1.  With ages 0..109 and every rate
    1023/1024 the table passes the validation, every [px] is 2^-10, and in
    binary64 the running product reaches 0.0 before it reaches the first
    age: the raw [lx[0]] is 0.0, the division by it makes [lx[0]] NaN and
    [lx] at the last age infinite. *)
Theorem lx_rescaling_underflows :
  exists t,
    Binary64.__init__ Binary64.ages_long Binary64.rates_high = Ok t
    /\ forallb Binary64.below_one (Binary64.qx t) = true
    /\ length (Binary64.lx t) = 110%nat
    /\ option_map PrimFloat.is_nan (nth_error (Binary64.lx t) 0) = Some true
    /\ nth_error (Binary64.lx t) 109 = Some PrimFloat.infinity
    /\ option_map PrimFloat.is_nan (nth_error (Binary64.dx t) 0) = Some true.
Proof.
  eexists. split; [vm_compute; reflexivity|].
  repeat split; vm_compute; reflexivity.
Qed.

(** ** Sample tables *)

Example table3_built : MortalityTable.__init__ ages3 rates3 "sample" = Ok table3.
Proof. vm_compute. reflexivity. Qed.

Example sf3_built : SurvivalFunctions.__init__ table3 f0 = Ok sf3.
Proof. vm_compute. reflexivity. Qed.

Example table_gap_built :
  MortalityTable.__init__ ages_gap rates_gap "gap" = Ok table_gap.
Proof. vm_compute. reflexivity. Qed.

Example sf_gap_built : SurvivalFunctions.__init__ table_gap f0 = Ok sf_gap.
Proof. vm_compute. reflexivity. Qed.

Example table_one_built :
  MortalityTable.__init__ ages_one rates_one "one" = Ok table_one.
Proof. vm_compute. reflexivity. Qed.

Example sf_one_built : SurvivalFunctions.__init__ table_one f0 = Ok sf_one.
Proof. vm_compute. reflexivity. Qed.

Example table4_built : MortalityTable.__init__ ages4 rates4 "flat" = Ok table4.
Proof. vm_compute. reflexivity. Qed.

Example sf4_negative_built :
  SurvivalFunctions.__init__ table4 (of_Z (-3)) = Ok sf4_negative.
Proof. vm_compute. reflexivity. Qed.

Example sf4_negative_v : SurvivalFunctions.v sf4_negative = Fin (qc (-1) 2).
Proof. fl_refl. Qed.

(** A rate of -100% cannot be given: the discount factor divides by zero. *)
Example sf_init_raises :
  SurvivalFunctions.__init__ table3 (of_Z (-1)) = Raise ZeroDivisionError.
Proof. vm_compute. reflexivity. Qed.

(** An empty table passes both validations and fails at [lx[0]]. *)
Example init_empty : MortalityTable.__init__ [] [] "" = Raise IndexError.
Proof. reflexivity. Qed.

Example sf3_tpx_fraction :
  SurvivalFunctions.tpx (fun a => a) (fun a => a) sf3 20 (Fin (qc 3 2))
  = Ok (PyFloat (Fin (qc 15 32))).
Proof. fl_refl. Qed.

Example table3_lx :
  MortalityTable.lx table3 = [f1; Fin (qc 4 3); Fin (qc 16 3)].
Proof. fl_refl. Qed.

Example sf3_npx_2 : SurvivalFunctions.npx sf3 20 2 = Ok (PyFloat (Fin (qc 3 16))).
Proof. fl_refl. Qed.

Example sf3_npx_3 : SurvivalFunctions.npx sf3 20 3 = Ok (NpFloat64 (Fin (qc 27 64))).
Proof. fl_refl. Qed.

Example sf_gap_npx : SurvivalFunctions.npx sf_gap 21 5 = Raise IndexError.
Proof. vm_compute. reflexivity. Qed.

(** ** The two branches of [npx] *)

Lemma npx_early (self : SurvivalFunctions.t) (x n : Z) :
  (n <= 0)%Z ->
  SurvivalFunctions.npx self x n
  = Ok (PyFloat (if (n <? 0)%Z then f0 else f1)).
Proof.
  intros H. unfold SurvivalFunctions.npx.
  destruct (n <? 0)%Z eqn:E; [reflexivity|].
  apply Z.ltb_ge in E. assert (n = 0)%Z as -> by lia. reflexivity.
Qed.

Lemma npx_beyond (self : SurvivalFunctions.t) (x n la : Z) :
  let m := SurvivalFunctions.mt self in
  get_last (MortalityTable.ages m) = Ok la ->
  (0 < n)%Z -> (la < x + n)%Z ->
  SurvivalFunctions.npx self x n
  = match last_index_le x (MortalityTable.ages m) with
    | None => Ok (PyFloat f0)
    | Some k =>
        a_last <- get (MortalityTable.ages m) k ;;
        p_last <- get (MortalityTable.px m) k ;;
        l_last <- get (MortalityTable.lx m) k ;;
        ix <- match index_of x (MortalityTable.ages m) with
              | Some ix => Ok ix
              | None => Raise IndexError
              end ;;
        l_x <- get (MortalityTable.lx m) ix ;;
        Ok (NpFloat64 (fdiv (fmul l_last (fpow p_last (x + n - a_last))) l_x))
    end.
Proof.
  intros m Hla Hn Hx. unfold SurvivalFunctions.npx. fold m.
  replace (n <? 0)%Z with false by (symmetry; apply Z.ltb_ge; lia).
  replace (n =? 0)%Z with false by (symmetry; apply Z.eqb_neq; lia).
  rewrite Hla. cbn [bind].
  replace (la <? x + n)%Z with true by (symmetry; apply Z.ltb_lt; lia).
  rewrite where_le_empty, where_le_get_last, where_eq_get.
  destruct (last_index_le x (MortalityTable.ages m)); reflexivity.
Qed.

Lemma npx_within (self : SurvivalFunctions.t) (x n la : Z) :
  let m := SurvivalFunctions.mt self in
  get_last (MortalityTable.ages m) = Ok la ->
  (0 < n)%Z -> (x + n <= la)%Z ->
  SurvivalFunctions.npx self x n
  = match index_of x (MortalityTable.ages m),
          index_of (x + n) (MortalityTable.ages m) with
    | Some s, Some e => Ok (PyFloat (prod (slice (MortalityTable.px m) s e)))
    | _, _ => Ok (PyFloat f0)
    end.
Proof.
  intros m Hla Hn Hx. unfold SurvivalFunctions.npx. fold m.
  replace (n <? 0)%Z with false by (symmetry; apply Z.ltb_ge; lia).
  replace (n =? 0)%Z with false by (symmetry; apply Z.eqb_neq; lia).
  rewrite Hla. cbn [bind].
  replace (la <? x + n)%Z with false by (symmetry; apply Z.ltb_ge; lia).
  rewrite !where_eq_empty, !where_eq_get.
  destruct (index_of x (MortalityTable.ages m));
    destruct (index_of (x + n) (MortalityTable.ages m)); reflexivity.
Qed.

(** In an increasing array the last entry that is at most a tabulated
    age is that age's own entry. *)
Lemma increasing_last_index_le (l : list Z) (x : Z) (ix : nat) :
  increasing l = true -> index_of x l = Some ix -> last_index_le x l = Some ix.
Proof.
  intros Hinc Hix. apply index_of_nth in Hix. destruct Hix as [Hix _].
  pose proof (last_index_le_spec x l) as S.
  destruct (last_index_le x l) as [k|].
  - destruct S as [(a & Ha & Hax) Hafter]. f_equal.
    destruct (Nat.lt_trichotomy k ix) as [H|[H|H]]; [|exact H|].
    + specialize (Hafter ix x H Hix). lia.
    + pose proof (increasing_nth _ _ _ _ _ Hinc H Hix Ha). lia.
  - specialize (S x (nth_error_In _ _ Hix)). lia.
Qed.

(** ** Claims about [npx] past the end of the table *)

(** What the extrapolation branch computes.  Past the last tabulated age
    of a constructed table, [npx(x, n)] is 0.0 when no tabulated age is at
    most [x]; when [x] is tabulated it is
    [lx[k] * px[k] ** (x + n - ages[k]) / lx[index of x]], where [k] is
    the last position whose age is at most [x]; for increasing ages [k]
    is the position of [x] itself, so it is the survival probability at
    age [x] that is held constant, for all [n] years. *)
Lemma npx_extrapolation_branch (ages : list Z) (qx : list fl) (name : string)
        (self : SurvivalFunctions.t) (x n la : Z) :
  let m := SurvivalFunctions.mt self in
  MortalityTable.__init__ ages qx name = Ok m ->
  get_last ages = Ok la ->
  (0 < n)%Z -> (la < x + n)%Z ->
  (last_index_le x ages = None ->
   SurvivalFunctions.npx self x n = Ok (PyFloat f0))
  /\ (forall ix, index_of x ages = Some ix ->
        exists k a_k p_k l_k l_x,
          last_index_le x ages = Some k
          /\ nth_error ages k = Some a_k
          /\ nth_error (MortalityTable.px m) k = Some p_k
          /\ nth_error (MortalityTable.lx m) k = Some l_k
          /\ nth_error (MortalityTable.lx m) ix = Some l_x
          /\ SurvivalFunctions.npx self x n
             = Ok (NpFloat64 (fdiv (fmul l_k (fpow p_k (x + n - a_k))) l_x))
          /\ (increasing ages = true -> k = ix /\ a_k = x)).
Proof.
  intros m Hinit Hla Hn Hx.
  pose proof (init_lengths _ _ _ _ Hinit) as (_ & Hp & Hl & _).
  pose proof (init_inv _ _ _ _ Hinit) as (_ & _ & _ & Ha & _).
  cbv zeta in Hp, Hl. fold m in Hp, Hl, Ha. rewrite Ha in Hp, Hl.
  rewrite <- Ha in Hla.
  pose proof (npx_beyond self x n la Hla Hn Hx) as E.
  fold m in E. rewrite Ha in E. split.
  - intros Hnone. rewrite E, Hnone. reflexivity.
  - intros ix Hix.
    destruct (index_of_some_last_le _ _ _ Hix) as (k & Hk).
    pose proof (last_index_le_lt _ _ _ Hk) as Hklt.
    pose proof (index_of_lt _ _ _ Hix) as Hixlt.
    destruct (get_ok ages k Hklt) as (a_k & Ga & Na).
    destruct (get_ok (MortalityTable.px m) k) as (p_k & Gp & Np); [lia|].
    destruct (get_ok (MortalityTable.lx m) k) as (l_k & Gl & Nl); [lia|].
    destruct (get_ok (MortalityTable.lx m) ix) as (l_x & Gx & Nx); [lia|].
    exists k, a_k, p_k, l_k, l_x.
    do 5 (split; [assumption|]). split.
    + rewrite E, Hk, Hix, Ga, Gp, Gl. cbn [bind]. rewrite Gx. reflexivity.
    + intros Hinc.
      pose proof (increasing_last_index_le _ _ _ Hinc Hix) as Hk'.
      assert (k = ix) as -> by congruence. split; [reflexivity|].
      apply index_of_nth in Hix. destruct Hix as [Hix _]. congruence.
Qed.

(** C1.  The extrapolation branch of [npx] does not do what its comment
    and the specification say.  On the table with ages 20..22 and rates
    1/4, 3/4, 1/2 the last tabulated survival probability is 1/2 and age
    23 lies one year beyond the table, yet [npx(20, 3)] is (3/4)^3: the
    rate of age 20 held for all three years, with an [lx] ratio of
    [lx[20] / lx[20]].  It is larger than the two-year probability
    [npx(20, 2) = 3/16] computed inside the table.  On the table with ages
    20 and 22 the untabulated age 21 makes [npx(21, 5)] raise
    [IndexError], where the branch inside the table returns 0.0 for the
    same age. *)
Theorem npx_extrapolation_defects :
  MortalityTable.__init__ ages3 rates3 "sample" = Ok table3
  /\ SurvivalFunctions.__init__ table3 f0 = Ok sf3
  /\ get_last (MortalityTable.ages table3) = Ok 22%Z
  /\ get_last (MortalityTable.px table3) = Ok fhalf
  /\ SurvivalFunctions.npx sf3 20 3 = Ok (NpFloat64 (Fin (qc 27 64)))
  /\ npx_extrapolation_spec table3 20 3 = Ok (Fin (qc 8 3))
  /\ SurvivalFunctions.npx sf3 20 2 = Ok (PyFloat (Fin (qc 3 16)))
  /\ flt (Fin (qc 3 16)) (Fin (qc 27 64)) = true
  /\ MortalityTable.__init__ ages_gap rates_gap "gap" = Ok table_gap
  /\ SurvivalFunctions.__init__ table_gap f0 = Ok sf_gap
  /\ index_of 21 (MortalityTable.ages table_gap) = None
  /\ SurvivalFunctions.npx sf_gap 21 5 = Raise IndexError
  /\ SurvivalFunctions.npx sf_gap 21 1 = Ok (PyFloat f0).
Proof. repeat split; fl_refl. Qed.

(** C3.  Operations of [SurvivalFunctions] do raise.  On the table with
    ages 20 and 22, the untabulated age 21 makes [npx], [nqx], [tpx],
    both annuities and the assurances raise [IndexError]; on the table
    with ages 20..22 whose first rate is 1 the assurance of the tabulated
    age 20 divides 0.0 by 0.0. *)
Theorem survival_functions_raise (np_exp np_log : fl -> fl) :
  MortalityTable.__init__ ages_gap rates_gap "gap" = Ok table_gap
  /\ SurvivalFunctions.__init__ table_gap f0 = Ok sf_gap
  /\ index_of 21 ages_gap = None
  /\ MortalityTable.__init__ ages_one rates_one "one" = Ok table_one
  /\ SurvivalFunctions.__init__ table_one f0 = Ok sf_one
  /\ SurvivalFunctions.npx sf_gap 21 5 = Raise IndexError
  /\ SurvivalFunctions.nqx sf_gap 21 5 = Raise IndexError
  /\ SurvivalFunctions.tpx np_exp np_log sf_gap 21 (of_Z 5) = Raise IndexError
  /\ SurvivalFunctions.annuity_due np_exp np_log sf_gap 21 None = Raise IndexError
  /\ SurvivalFunctions.annuity_immediate np_exp np_log sf_gap 21 None
     = Raise IndexError
  /\ SurvivalFunctions.assurance sf_gap 21 None = Raise IndexError
  /\ SurvivalFunctions.assurance sf_gap 21 (Some 2%Z) = Raise IndexError
  /\ SurvivalFunctions.net_single_premium sf_gap 21 (Some 2%Z) = Raise IndexError
  /\ SurvivalFunctions.assurance sf_one 20 None = Raise ZeroDivisionError
  /\ SurvivalFunctions.assurance sf_one 20 (Some 2%Z) = Raise ZeroDivisionError.
Proof. repeat split; vm_compute; reflexivity. Qed.

(** ** Products over slices of [px] *)

Lemma firstn_plus {A} (a b : nat) (l : list A) :
  firstn (a + b) l = firstn a l ++ firstn b (skipn a l).
Proof.
  revert l. induction a as [|a IH]; intros l; [reflexivity|].
  destruct l as [|x l]; simpl.
  - rewrite firstn_nil. reflexivity.
  - f_equal. apply IH.
Qed.

Lemma slice_split {A} (l : list A) (s m e : nat) :
  (s <= m)%nat -> (m <= e)%nat -> slice l s e = slice l s m ++ slice l m e.
Proof.
  intros Hsm Hme. unfold slice.
  replace (e - s)%nat with ((m - s) + (e - m))%nat by lia.
  rewrite firstn_plus, skipn_skipn.
  replace (m - s + s)%nat with m by lia. reflexivity.
Qed.

Lemma slice_map {A B} (f : A -> B) (l : list A) (s e : nat) :
  slice (map f l) s e = map f (slice l s e).
Proof. unfold slice. rewrite skipn_map, firstn_map. reflexivity. Qed.

Lemma slice_forall {A} (P : A -> Prop) (l : list A) (s e : nat) :
  Forall P l -> Forall P (slice l s e).
Proof.
  intros H. apply Forall_forall. intros x Hx. rewrite Forall_forall in H.
  apply H. unfold slice in Hx.
  rewrite <- (firstn_skipn s l). apply in_or_app. right.
  rewrite <- (firstn_skipn (e - s) (skipn s l)). apply in_or_app. left.
  exact Hx.
Qed.

Lemma fold_left_Qcmult (l : list Qc) (a : Qc) :
  fold_left Qcmult l a = (a * qprod l)%Qc.
Proof.
  unfold qprod. revert a. induction l as [|p l IH]; intros a; simpl.
  - ring.
  - rewrite IH, (IH (1 * p)%Qc). ring.
Qed.

Lemma qprod_app (l1 l2 : list Qc) : qprod (l1 ++ l2) = (qprod l1 * qprod l2)%Qc.
Proof.
  unfold qprod at 1. rewrite fold_left_app.
  fold (qprod l1). apply fold_left_Qcmult.
Qed.

Lemma qprod_unit (l : list Qc) : Forall unit_qc l -> unit_qc (qprod l).
Proof.
  induction 1 as [|p l Hp Hl IH].
  - apply unit_qc_1.
  - change (p :: l) with ([p] ++ l). rewrite qprod_app.
    apply unit_qc_mult; [|exact IH].
    unfold qprod. simpl. rewrite Qcmult_1_l. exact Hp.
Qed.

Lemma prod_fin (l : list Qc) : prod (map Fin l) = Fin (qprod l).
Proof.
  unfold prod, qprod, f1, of_Z. rewrite qc_1.
  generalize 1%Qc. induction l as [|p l IH]; intros a; [reflexivity|].
  cbn [map fold_left]. rewrite fmul_fin. apply IH.
Qed.

Lemma index_of_order (l : list Z) (x y : Z) (s e : nat) :
  increasing l = true -> (x <= y)%Z ->
  index_of x l = Some s -> index_of y l = Some e -> (s <= e)%nat.
Proof.
  intros Hinc Hxy Hs He.
  apply index_of_nth in Hs. apply index_of_nth in He.
  destruct Hs as [Hs _]. destruct He as [He _].
  destruct (Nat.le_gt_cases s e) as [H|H]; [exact H|].
  pose proof (increasing_nth _ _ _ _ _ Hinc H He Hs). lia.
Qed.

(** Within the table, [npx] of a constructed table is a finite float in
    the unit interval. *)
Lemma npx_within_unit (ages : list Z) (qx : list fl) (name : string)
      (self : SurvivalFunctions.t) (x n la : Z) :
  MortalityTable.__init__ ages qx name = Ok (SurvivalFunctions.mt self) ->
  get_last ages = Ok la -> (x + n <= la)%Z ->
  exists r, SurvivalFunctions.npx self x n = Ok (PyFloat (Fin r)) /\ unit_qc r.
Proof.
  intros Hinit Hla Hx.
  destruct (Z_le_gt_dec n 0) as [Hn|Hn].
  - rewrite npx_early by exact Hn. unfold f0, f1, of_Z. rewrite qc_0, qc_1.
    destruct (n <? 0)%Z; eexists; split; try reflexivity;
      [apply unit_qc_0|apply unit_qc_1].
  - destruct (init_fin _ _ _ _ Hinit) as (qs & _ & _ & Hpx & Hps).
    pose proof (init_inv _ _ _ _ Hinit) as (_ & _ & _ & Ha & _).
    rewrite <- Ha in Hla.
    rewrite (npx_within self x n la Hla) by lia.
    destruct (index_of x _) as [s|];
      [|exists 0%Qc; split; [reflexivity|apply unit_qc_0]].
    destruct (index_of (x + n) _) as [e|];
      [|exists 0%Qc; split; [reflexivity|apply unit_qc_0]].
    rewrite Hpx, slice_map, prod_fin. eexists. split; [reflexivity|].
    apply qprod_unit. apply slice_forall. exact Hps.
Qed.

(** ** Monotonicity of [npx] *)

Lemma npx_within_mono
      (ages : list Z) (qx : list fl) (name : string)
      (self : SurvivalFunctions.t) (x m n la : Z) :
  MortalityTable.__init__ ages qx name = Ok (SurvivalFunctions.mt self) ->
  increasing ages = true ->
  get_last ages = Ok la ->
  (0 <= m)%Z -> (m <= n)%Z -> (x + n <= la)%Z ->
  (m =? 0)%Z || contains (x + m) ages = true ->
  exists a b,
    SurvivalFunctions.npx self x m = Ok a
    /\ SurvivalFunctions.npx self x n = Ok b
    /\ fle (val b) (val a) = true.
Proof.
  intros Hinit Hinc Hla Hm Hmn Hx Htab.
  destruct (npx_within_unit _ _ _ self x n la Hinit Hla Hx) as (rn & En & Un).
  destruct (Z.eq_dec m 0) as [->|Hm0].
  - exists (PyFloat f1), (PyFloat (Fin rn)). repeat split; [exact En|].
    simpl. unfold of_Z. rewrite qc_1. apply Qc_leb_iff. apply Un.
  - replace (m =? 0)%Z with false in Htab by (symmetry; apply Z.eqb_neq; exact Hm0).
    simpl in Htab.
    destruct (init_fin _ _ _ _ Hinit) as (qs & _ & _ & Hpx & Hps).
    pose proof (init_inv _ _ _ _ Hinit) as (_ & _ & _ & Ha & _).
    rewrite <- Ha in Hla, Htab, Hinc.
    pose proof (npx_within self x m la Hla) as Em.
    pose proof (npx_within self x n la Hla) as En'.
    cbv zeta in Em, En'. rewrite Em by lia. rewrite En' by lia. clear Em En' En.
    rewrite contains_index_of in Htab.
    destruct (index_of x (MortalityTable.ages _)) as [s|] eqn:Es.
    + destruct (index_of (x + m) (MortalityTable.ages _)) as [em|] eqn:Eem;
        [|discriminate].
      assert (x <= x + m)%Z as Hxm by lia.
      pose proof (index_of_order _ _ _ _ _ Hinc Hxm Es Eem) as Hsm.
      assert (unit_qc (qprod (slice (map (fun q => 1 - q)%Qc qs) s em))) as Um
        by (apply qprod_unit, slice_forall, Hps).
      destruct (index_of (x + n) (MortalityTable.ages _)) as [en|] eqn:Een.
      * assert (x + m <= x + n)%Z as Hxn by lia.
        pose proof (index_of_order _ _ _ _ _ Hinc Hxn Eem Een) as Hme.
        rewrite Hpx, !(slice_map Fin), !prod_fin.
        do 2 eexists. repeat split. cbn [val]. apply fle_fin.
        rewrite (slice_split _ s em en Hsm Hme), qprod_app.
        apply Qc_mult_le_1; [apply Um|].
        apply qprod_unit, slice_forall, Hps.
      * rewrite Hpx, !(slice_map Fin), !prod_fin.
        do 2 eexists. repeat split. cbn [val]. unfold f0, of_Z. rewrite qc_0.
        apply fle_fin. apply Um.
    + do 2 eexists. repeat split.
Qed.

(** C4 (as amended).  For a constructed table with increasing ages,
    [npx(x, n) <= npx(x, m)] whenever [0 <= m <= n], age [x + n] is not
    past the last tabulated age, and [x + m] is tabulated (or [m = 0]). *)
Theorem npx_nonincreasing_within_table
        (ages : list Z) (qx : list fl) (name : string)
        (self : SurvivalFunctions.t) (x m n la : Z) :
  MortalityTable.__init__ ages qx name = Ok (SurvivalFunctions.mt self) ->
  increasing ages = true ->
  get_last ages = Ok la ->
  (0 <= m)%Z -> (m <= n)%Z -> (x + n <= la)%Z ->
  (m =? 0)%Z || contains (x + m) ages = true ->
  exists a b,
    SurvivalFunctions.npx self x m = Ok a
    /\ SurvivalFunctions.npx self x n = Ok b
    /\ fle (val b) (val a) = true.
Proof. apply npx_within_mono. Qed.

Lemma npx_nonincreasing_within_table_witness :
  exists a b,
    SurvivalFunctions.npx sf3 20 1 = Ok a
    /\ SurvivalFunctions.npx sf3 20 2 = Ok b
    /\ fle (val b) (val a) = true.
Proof.
  apply (npx_nonincreasing_within_table ages3 rates3 "sample" sf3 20 1 2 22).
  - vm_compute. reflexivity.
  - reflexivity.
  - reflexivity.
  - lia.
  - lia.
  - lia.
  - reflexivity.
Defined.

(** C4 fails as stated: on the table with ages 20..22 the survival
    probability over 3 years (past the table) is above the one over 2
    years; and where age 21 is missing, the one over 2 years is above the
    one over 1 year. *)
Lemma npx_nonincreasing_counterexample :
  SurvivalFunctions.npx sf3 20 2 = Ok (PyFloat (Fin (qc 3 16)))
  /\ SurvivalFunctions.npx sf3 20 3 = Ok (NpFloat64 (Fin (qc 27 64)))
  /\ flt (Fin (qc 3 16)) (Fin (qc 27 64)) = true
  /\ SurvivalFunctions.npx sf_gap 20 1 = Ok (PyFloat f0)
  /\ SurvivalFunctions.npx sf_gap 20 2 = Ok (PyFloat fhalf)
  /\ flt f0 fhalf = true.
Proof. repeat split; fl_refl. Qed.

(** ** Claims about [life_expectancy] *)

(** C2 (as amended).  [life_expectancy(age)] raises [ValueError] when
    the age is not tabulated, returns 0 at the last position, and
    otherwise is 0.5 plus the sum of the later [lx] entries as stored
    (they are not divided by [lx] at the age). *)
Theorem life_expectancy_sum (ages : list Z) (qx : list fl) (name : string)
        (t : MortalityTable.t) (age : Z) :
  MortalityTable.__init__ ages qx name = Ok t ->
  (index_of age ages = None ->
   MortalityTable.life_expectancy t age = Raise ValueError)
  /\ (forall idx, index_of age ages = Some idx ->
        (S idx = length ages -> MortalityTable.life_expectancy t age = Ok f0)
        /\ ((S idx < length ages)%nat ->
            MortalityTable.life_expectancy t age
            = Ok (fsum fhalf (skipn (S idx) (MortalityTable.lx t))))).
Proof.
  intros Hinit.
  pose proof (init_lengths _ _ _ _ Hinit) as (_ & _ & Hlx & _).
  pose proof (init_inv _ _ _ _ Hinit) as (_ & _ & _ & Ha & _).
  rewrite Ha in Hlx. unfold MortalityTable.life_expectancy.
  rewrite contains_index_of, where_eq_get, Ha. split.
  - intros ->. reflexivity.
  - intros idx ->. cbn [negb bind]. rewrite length_skipn, Hlx.
    pose proof (index_of_lt age ages idx) as Hlt.
    split.
    + intros Hlast.
      replace (length ages - idx <=? 1)%nat with true
        by (symmetry; apply Nat.leb_le; lia).
      reflexivity.
    + intros Hmore.
      replace (length ages - idx <=? 1)%nat with false
        by (symmetry; apply Nat.leb_gt; lia).
      rewrite skipn_skipn. reflexivity.
Qed.

Lemma life_expectancy_sum_witness :
  MortalityTable.life_expectancy table3 21
  = Ok (fsum fhalf (skipn 2 (MortalityTable.lx table3))).
Proof.
  assert (MortalityTable.__init__ ages3 rates3 "sample" = Ok table3) as Hinit
    by (vm_compute; reflexivity).
  apply (proj2 (life_expectancy_sum ages3 rates3 "sample" table3 21 Hinit) 1%nat).
  - reflexivity.
  - simpl. lia.
Defined.

(** C2 fails as stated: at age 21 of the table with ages 20..22 the code
    returns 1/2 + 16/3, the sum with forward ratios is 1/2 + 4. *)
Lemma life_expectancy_counterexample :
  MortalityTable.life_expectancy table3 21 = Ok (Fin (qc 35 6))
  /\ life_expectancy_spec table3 21 = Ok (Fin (qc 9 2))
  /\ feqb (Fin (qc 35 6)) (Fin (qc 9 2)) = false.
Proof. repeat split; fl_refl. Qed.

(** ** Claims about [get_qx] and [get_px] *)

Lemma qx_at_stored (ages : list Z) (qx : list fl) (name : string)
      (t : MortalityTable.t) (a : Z) :
  MortalityTable.__init__ ages qx name = Ok t ->
  MortalityTable.qx_at t a = Ok (stored_qx t a).
Proof.
  intros Hinit.
  pose proof (init_lengths _ _ _ _ Hinit) as (Hq & _).
  unfold MortalityTable.qx_at, stored_qx.
  rewrite contains_index_of, where_eq_get.
  destruct (index_of a (MortalityTable.ages t)) as [k|] eqn:E; [|reflexivity].
  cbn [bind]. apply index_of_lt in E. rewrite <- Hq in E.
  destruct (get_ok _ _ E) as (q & Hg & Hn). rewrite Hg. f_equal.
  symmetry. apply nth_error_nth. exact Hn.
Qed.

Lemma map_result_ok {A B} (f : A -> result B) (g : A -> B) (l : list A) :
  (forall a, f a = Ok (g a)) -> map_result f l = Ok (map g l).
Proof.
  intros H. induction l as [|a l IH]; [reflexivity|].
  simpl. rewrite H, IH. reflexivity.
Qed.

Lemma zip_with_map_r {A B C} (f : A -> B -> C) (g : A -> B) (l : list A) :
  zip_with f l (map g l) = map (fun a => f a (g a)) l.
Proof. induction l as [|a l IH]; simpl; [reflexivity|]. f_equal. exact IH. Qed.

(** C9 (as amended).  On a constructed table, [get_qx] of one age is a
    float, [get_qx] of a sequence whose length is not 1 is an array of
    the same length, entry by entry the stored rate or NaN, and [get_qx]
    of a sequence of length 1 is a float, not an array; [get_px] has the
    same shapes with the complements. *)
Theorem get_qx_shape (ages : list Z) (qx : list fl) (name : string)
        (t : MortalityTable.t) :
  MortalityTable.__init__ ages qx name = Ok t ->
  (forall a,
      MortalityTable.get_qx t (MortalityTable.One a)
      = Ok (MortalityTable.Scalar (stored_qx t a))
      /\ MortalityTable.get_px t (MortalityTable.One a)
         = Ok (MortalityTable.Scalar (fsub f1 (stored_qx t a))))
  /\ (forall a,
      MortalityTable.get_qx t (MortalityTable.Many [a])
      = Ok (MortalityTable.Scalar (stored_qx t a))
      /\ MortalityTable.get_px t (MortalityTable.Many [a])
         = Ok (MortalityTable.Scalar (fsub f1 (stored_qx t a))))
  /\ (forall l, length l <> 1%nat ->
      MortalityTable.get_qx t (MortalityTable.Many l)
      = Ok (MortalityTable.Array (map (stored_qx t) l))
      /\ MortalityTable.get_px t (MortalityTable.Many l)
         = Ok (MortalityTable.Array (map (fun a => fsub f1 (stored_qx t a)) l))
      /\ length (map (stored_qx t) l) = length l)
  /\ (forall a,
      (index_of a ages = None -> stored_qx t a = NaN)
      /\ (forall k, index_of a ages = Some k ->
            nth_error qx k = Some (stored_qx t a))).
Proof.
  intros Hinit.
  pose proof (fun a => qx_at_stored _ _ _ _ a Hinit) as Hat.
  assert (forall q, (if negb (isnan (fsub f1 q)) then fsub f1 q else NaN)
                    = fsub f1 q) as Hnan.
  { intros q. destruct (fsub f1 q); reflexivity. }
  assert (forall a,
             MortalityTable.get_qx t (MortalityTable.One a)
             = Ok (MortalityTable.Scalar (stored_qx t a))) as H1.
  { intros a. unfold MortalityTable.get_qx.
    rewrite (map_result_ok _ _ _ Hat). reflexivity. }
  assert (forall a,
             MortalityTable.get_qx t (MortalityTable.Many [a])
             = Ok (MortalityTable.Scalar (stored_qx t a))) as H2.
  { intros a. unfold MortalityTable.get_qx.
    rewrite (map_result_ok _ _ _ Hat). reflexivity. }
  assert (forall l, length l <> 1%nat ->
             MortalityTable.get_qx t (MortalityTable.Many l)
             = Ok (MortalityTable.Array (map (stored_qx t) l))) as H3.
  { intros l Hl. unfold MortalityTable.get_qx.
    rewrite (map_result_ok _ _ _ Hat). cbn [bind].
    apply Nat.eqb_neq in Hl. rewrite Hl. reflexivity. }
  repeat split.
  - apply H1.
  - unfold MortalityTable.get_px. rewrite H1. cbn [bind]. rewrite Hnan.
    reflexivity.
  - apply H2.
  - unfold MortalityTable.get_px. rewrite H2. cbn [bind]. rewrite Hnan.
    reflexivity.
  - apply H3. assumption.
  - unfold MortalityTable.get_px. rewrite H3 by assumption. cbn [bind].
    rewrite zip_with_map_r, map_map. do 2 f_equal. apply map_ext.
    intros a. destruct (stored_qx t a); reflexivity.
  - apply length_map.
  - pose proof (init_inv _ _ _ _ Hinit) as (_ & _ & _ & Ha & _).
    unfold stored_qx. rewrite Ha. intros ->. reflexivity.
  - pose proof (init_inv _ _ _ _ Hinit) as (Hl & _ & _ & Ha & Hq & _).
    unfold stored_qx. rewrite Ha, Hq. intros k Hk. rewrite Hk.
    apply index_of_lt in Hk. rewrite Hl in Hk.
    destruct (get_ok _ _ Hk) as (q & _ & Hn). rewrite Hn. f_equal.
    symmetry. apply nth_error_nth. exact Hn.
Qed.

Lemma get_qx_shape_witness :
  MortalityTable.get_qx table3 (MortalityTable.Many [20; 25]%Z)
  = Ok (MortalityTable.Array (map (stored_qx table3) [20; 25]%Z)).
Proof.
  assert (MortalityTable.__init__ ages3 rates3 "sample" = Ok table3) as Hinit
    by (vm_compute; reflexivity).
  apply (proj1 (proj2 (proj2 (get_qx_shape ages3 rates3 "sample" table3 Hinit)))
               [20; 25]%Z).
  simpl. lia.
Defined.

(** C9 fails as stated: a sequence holding the single age 20 gives a
    float, not a sequence of length 1. *)
Lemma get_qx_shape_counterexample :
  MortalityTable.get_qx table3 (MortalityTable.Many [20]%Z)
  = Ok (MortalityTable.Scalar (Fin (qc 1 4)))
  /\ MortalityTable.get_px table3 (MortalityTable.Many [20]%Z)
     = Ok (MortalityTable.Scalar (Fin (qc 3 4))).
Proof. split; fl_refl. Qed.

(** ** Claims about [tpx] *)

Lemma get_qx_one (ages : list Z) (qx : list fl) (name : string)
      (t : MortalityTable.t) (a : Z) :
  MortalityTable.__init__ ages qx name = Ok t ->
  MortalityTable.get_qx t (MortalityTable.One a)
  = Ok (MortalityTable.Scalar (stored_qx t a)).
Proof.
  intros Hinit. unfold MortalityTable.get_qx. cbn [map_result].
  rewrite (qx_at_stored _ _ _ _ a Hinit). reflexivity.
Qed.

Lemma get_last_ok {A} (l : list A) :
  (0 < length l)%nat -> exists a, get_last l = Ok a.
Proof.
  intros H. destruct (get_last l) as [a|e] eqn:E; [eauto|].
  apply get_last_nil in E. subst. simpl in H. lia.
Qed.

(** [npx] of a tabulated age never raises. *)
Lemma npx_tabulated_ok (ages : list Z) (qx : list fl) (name : string)
      (self : SurvivalFunctions.t) (x n : Z) (ix : nat) :
  MortalityTable.__init__ ages qx name = Ok (SurvivalFunctions.mt self) ->
  index_of x ages = Some ix ->
  exists p, SurvivalFunctions.npx self x n = Ok p.
Proof.
  intros Hinit Hix.
  pose proof (init_lengths _ _ _ _ Hinit) as (_ & Hp & Hl & _ & Hpos).
  pose proof (init_inv _ _ _ _ Hinit) as (_ & _ & _ & Ha & _).
  cbv zeta in *. rewrite Ha in *.
  destruct (get_last_ok ages Hpos) as (la & Hla).
  destruct (Z_le_gt_dec n 0) as [Hn|Hn].
  { rewrite npx_early by exact Hn. eauto. }
  destruct (Z_le_gt_dec (x + n) la) as [Hx|Hx].
  - destruct (npx_within_unit _ _ _ self x n la Hinit Hla Hx) as (r & E & _).
    eauto.
  - rewrite <- Ha in Hla.
    rewrite (npx_beyond self x n la Hla) by lia. rewrite Ha.
    destruct (index_of_some_last_le _ _ _ Hix) as (k & Hk). rewrite Hk, Hix.
    pose proof (last_index_le_lt _ _ _ Hk) as Hklt.
    pose proof (index_of_lt _ _ _ Hix) as Hixlt.
    destruct (get_ok ages k Hklt) as (a & -> & _).
    destruct (get_ok (MortalityTable.px (SurvivalFunctions.mt self)) k) as (p & -> & _);
      [lia|].
    destruct (get_ok (MortalityTable.lx (SurvivalFunctions.mt self)) k) as (l & -> & _);
      [lia|].
    cbn [bind].
    destruct (get_ok (MortalityTable.lx (SurvivalFunctions.mt self)) ix) as (l' & -> & _);
      [lia|].
    cbn [bind]. eauto.
Qed.

Lemma py_int_floor (q : Qc) : (0 <= q)%Qc -> py_int (Fin q) = Ok (Qfloor q).
Proof.
  intros H. unfold py_int. f_equal. destruct q as [[n d] c].
  unfold Qcle, Qle in H. simpl in *.
  apply Z.quot_div_nonneg; lia.
Qed.

(** C8.  On a constructed table and for a tabulated age [x]:
    [tpx(x, 0) = 1.0]; [tpx(x, t) = 0.0] for [t < 0]; for [t > 0], with
    [n = floor(t)] and [frac = t - n], it is
    [npx(x, n) * (1 - frac * qx(x + n))] while [x + n] is below the last
    tabulated age and [npx(x, n) * exp(-mu * (t - (last_age - x)))] with
    [mu = -log(1 - qx(last_age))] from the last tabulated age on. *)
Theorem tpx_formula (np_exp np_log : fl -> fl)
        (ages : list Z) (qx : list fl) (name : string)
        (self : SurvivalFunctions.t) (x : Z) (q : Qc) :
  MortalityTable.__init__ ages qx name = Ok (SurvivalFunctions.mt self) ->
  contains x ages = true ->
  (q = 0%Qc ->
   SurvivalFunctions.tpx np_exp np_log self x (Fin q) = Ok (PyFloat f1))
  /\ ((q < 0)%Qc ->
      SurvivalFunctions.tpx np_exp np_log self x (Fin q) = Ok (PyFloat f0))
  /\ ((0 < q)%Qc ->
      let n := Qfloor q in
      let frac := fsub (Fin q) (of_Z n) in
      exists la p,
        get_last ages = Ok la
        /\ SurvivalFunctions.npx self x n = Ok p
        /\ ((x + n < la)%Z ->
            exists q_next r,
              MortalityTable.get_qx (SurvivalFunctions.mt self)
                                    (MortalityTable.One (x + n))
              = Ok (MortalityTable.Scalar q_next)
              /\ SurvivalFunctions.tpx np_exp np_log self x (Fin q) = Ok r
              /\ val r = fmul (val p) (fsub f1 (fmul frac q_next)))
        /\ ((la <= x + n)%Z ->
            exists q_last r,
              MortalityTable.get_qx (SurvivalFunctions.mt self)
                                    (MortalityTable.One la)
              = Ok (MortalityTable.Scalar q_last)
              /\ SurvivalFunctions.tpx np_exp np_log self x (Fin q) = Ok r
              /\ let mu := fneg (np_log (fsub f1 q_last)) in
                 let remaining_years := fsub (Fin q) (of_Z (la - x)) in
                 val r = fmul (val p) (np_exp (fmul (fneg mu) remaining_years)))).
Proof.
  intros Hinit Hx. repeat split.
  - intros ->. reflexivity.
  - intros Hq. unfold SurvivalFunctions.tpx.
    assert (feqb (Fin q) f0 = false) as ->.
    { unfold f0, of_Z. rewrite qc_0. simpl.
      destruct (Qc_eq_bool q 0) eqn:E; [|reflexivity].
      apply Qc_eq_bool_iff in E. subst. discriminate. }
    assert (flt (Fin q) f0 = true) as ->.
    { unfold f0, of_Z. rewrite qc_0. apply flt_fin. exact Hq. }
    reflexivity.
  - intros Hq n frac.
    rewrite contains_index_of in Hx.
    destruct (index_of x ages) as [ix|] eqn:Eix; [|discriminate].
    destruct (npx_tabulated_ok _ _ _ self x n ix Hinit Eix) as (p & Hp).
    pose proof (init_lengths _ _ _ _ Hinit) as (_ & _ & _ & _ & Hpos).
    pose proof (init_inv _ _ _ _ Hinit) as (_ & _ & _ & Ha & _).
    cbv zeta in Hpos. rewrite Ha in Hpos.
    destruct (get_last_ok ages Hpos) as (la & Hla).
    exists la, p. split; [exact Hla|]. split; [exact Hp|].
    assert (forall a, SurvivalFunctions.get_qx_float (SurvivalFunctions.mt self) a
                      = Ok (stored_qx (SurvivalFunctions.mt self) a)) as Hgq.
    { intros a. unfold SurvivalFunctions.get_qx_float.
      rewrite (get_qx_one _ _ _ _ a Hinit). reflexivity. }
    assert (SurvivalFunctions.tpx np_exp np_log self x (Fin q)
            = (if (la <=? n + x)%Z
               then
                 q_last <- SurvivalFunctions.get_qx_float
                             (SurvivalFunctions.mt self) la ;;
                 Ok (NpFloat64
                       (fmul (val p)
                          (np_exp (fmul (fneg (fneg (np_log (fsub f1 q_last))))
                                        (fsub (Fin q) (of_Z (la - x)))))))
               else
                 q_next <- SurvivalFunctions.get_qx_float
                             (SurvivalFunctions.mt self) (x + n) ;;
                 Ok (lift2 fmul p (PyFloat (fsub f1 (fmul frac q_next))))))
      as Ht.
    { unfold SurvivalFunctions.tpx.
      assert (feqb (Fin q) f0 = false) as ->.
      { unfold f0, of_Z. rewrite qc_0. simpl.
        destruct (Qc_eq_bool q 0) eqn:E; [|reflexivity].
        apply Qc_eq_bool_iff in E. subst. discriminate. }
      assert (flt (Fin q) f0 = false) as ->.
      { unfold f0, of_Z. rewrite qc_0. simpl. unfold Qc_ltb.
        apply negb_false_iff. apply Qle_bool_iff. apply Qclt_le_weak in Hq.
        exact Hq. }
      rewrite py_int_floor by (apply Qclt_le_weak; exact Hq).
      cbn [bind]. fold n. rewrite Hp. cbn [bind]. rewrite Ha, Hla. cbn [bind].
      rewrite (Z.add_comm x n).
      destruct (la <=? n + x)%Z; reflexivity. }
    split.
    + intros Hlt. exists (stored_qx (SurvivalFunctions.mt self) (x + n)).
      eexists. split; [apply (get_qx_one _ _ _ _ _ Hinit)|].
      rewrite Ht.
      replace (la <=? n + x)%Z with false by (symmetry; apply Z.leb_gt; lia).
      rewrite Hgq. cbn [bind]. split; [reflexivity|].
      destruct p; reflexivity.
    + intros Hge. exists (stored_qx (SurvivalFunctions.mt self) la).
      eexists. split; [apply (get_qx_one _ _ _ _ _ Hinit)|].
      rewrite Ht.
      replace (la <=? n + x)%Z with true by (symmetry; apply Z.leb_le; lia).
      rewrite Hgq. cbn [bind]. split; reflexivity.
Qed.

Lemma tpx_formula_witness :
  exists p q_next r,
    SurvivalFunctions.npx sf3 20 1 = Ok p
    /\ MortalityTable.get_qx (SurvivalFunctions.mt sf3) (MortalityTable.One 21)
       = Ok (MortalityTable.Scalar q_next)
    /\ SurvivalFunctions.tpx (fun a => a) (fun a => a) sf3 20 (Fin (qc 3 2))
       = Ok r
    /\ val r
       = fmul (val p) (fsub f1 (fmul (fsub (Fin (qc 3 2)) (of_Z 1)) q_next)).
Proof.
  assert (MortalityTable.__init__ ages3 rates3 "sample"
          = Ok (SurvivalFunctions.mt sf3)) as Hinit by (vm_compute; reflexivity).
  assert (contains 20 ages3 = true) as Hx by reflexivity.
  assert (0 < qc 3 2)%Qc as Hq by reflexivity.
  destruct (proj2 (proj2 (tpx_formula (fun a => a) (fun a => a) ages3 rates3
                                      "sample" sf3 20 (qc 3 2) Hinit Hx)) Hq)
    as (la & p & Hla & Hp & Hin & _).
  assert (la = 22%Z) as -> by (vm_compute in Hla; congruence).
  assert (20 + Qfloor (qc 3 2) < 22)%Z as Hlt by reflexivity.
  destruct (Hin Hlt) as (q_next & r & Hg & Ht & Hr).
  exists p, q_next, r. repeat split; assumption.
Defined.

(** ** Claims about [assurance] *)

Lemma increasing_gap (l : list Z) (i d : nat) (a b : Z) :
  increasing l = true ->
  nth_error l i = Some a -> nth_error l (i + d) = Some b ->
  (a + Z.of_nat d <= b)%Z.
Proof.
  intros Hinc Ha. revert b. induction d as [|d IH]; intros b Hb.
  - rewrite Nat.add_0_r in Hb. assert (a = b) by congruence. lia.
  - destruct (nth_error l (i + d)) as [c|] eqn:Ec.
    + specialize (IH c eq_refl).
      assert (i + d < i + S d)%nat as Hlt by lia.
      pose proof (increasing_nth _ _ _ _ _ Hinc Hlt Ec Hb). lia.
    + apply nth_error_None in Ec.
      assert (nth_error l (i + S d) <> None) as Hn by congruence.
      apply nth_error_Some in Hn. lia.
Qed.

(** The whole-life horizon stays inside the table. *)
Lemma horizon_within (l : list Z) (x la : Z) (idx : nat) :
  increasing l = true -> index_of x l = Some idx -> get_last l = Ok la ->
  (x + (Z.of_nat (length l) - Z.of_nat idx - 1) <= la)%Z.
Proof.
  intros Hinc Hidx Hla. pose proof (index_of_lt _ _ _ Hidx) as Hlt.
  apply index_of_nth in Hidx. destruct Hidx as [Hx _].
  apply get_last_nth in Hla.
  replace (length l - 1)%nat with (idx + (length l - 1 - idx))%nat in Hla by lia.
  pose proof (increasing_gap _ _ _ _ _ Hinc Hx Hla). lia.
Qed.

Lemma Qc_div_unit (a b : Qc) :
  (0 <= a)%Qc -> (a <= b)%Qc -> b <> 0%Qc -> unit_qc (a / b).
Proof.
  intros Ha Hab Hb.
  assert (0 < b)%Qc as Hpos.
  { destruct (Qcle_lt_or_eq _ _ (Qcle_trans _ _ _ Ha Hab)) as [H|H];
      [exact H|congruence]. }
  assert (a / b * b = a)%Qc as E by (field; exact Hb).
  split.
  - apply Qcmult_lt_0_le_reg_r with (z := b); [exact Hpos|].
    rewrite E, Qcmult_0_l. exact Ha.
  - apply Qcmult_lt_0_le_reg_r with (z := b); [exact Hpos|].
    rewrite E, Qcmult_1_l. exact Hab.
Qed.

Lemma assurance_loop_app (self : SurvivalFunctions.t) (x : Z)
      (ts1 ts2 : list Z) (a v_t : fl) :
  SurvivalFunctions.assurance_loop self x (ts1 ++ ts2) a v_t
  = (a1 <- SurvivalFunctions.assurance_loop self x ts1 a v_t ;;
     SurvivalFunctions.assurance_loop self x ts2 a1 (v_after self ts1 v_t)).
Proof.
  revert a v_t. induction ts1 as [|t0 ts1 IH]; intros a v_t; [reflexivity|].
  cbn [app SurvivalFunctions.assurance_loop].
  destruct (SurvivalFunctions.q_xt self x t0) as [q|e]; [|reflexivity].
  cbn [bind]. rewrite IH. reflexivity.
Qed.

Lemma v_after_fin (self : SurvivalFunctions.t) (ts : list Z) (vq w : Qc) :
  SurvivalFunctions.v self = Fin vq -> (0 <= vq)%Qc -> (0 <= w)%Qc ->
  exists w', v_after self ts (Fin w) = Fin w' /\ (0 <= w')%Qc.
Proof.
  intros Hv Hvq. unfold v_after. revert w.
  induction ts as [|t0 ts IH]; intros w Hw.
  { exists w. split; [reflexivity|exact Hw]. }
  cbn [fold_left].
  replace (fmul (Fin w) (SurvivalFunctions.v self)) with (Fin (w * vq))
    by (rewrite Hv; reflexivity).
  apply IH.
  replace 0%Qc with (0 * vq)%Qc by ring.
  apply Qcmult_le_compat_r; assumption.
Qed.

Section AssuranceWithinTable.

(** A constructed table with increasing ages, its last age, and a
    finite non-negative discount factor. *)
Variables (ages : list Z) (qx : list fl) (name : string).
Variable self : SurvivalFunctions.t.
Variables (x la : Z) (vq : Qc).
Hypothesis Hinit :
  MortalityTable.__init__ ages qx name = Ok (SurvivalFunctions.mt self).
Hypothesis Hinc : increasing ages = true.
Hypothesis Hla : get_last ages = Ok la.
Hypothesis Hv : SurvivalFunctions.v self = Fin vq.
Hypothesis Hvq : (0 <= vq)%Qc.

(** Inside the table, the yearly death probability the assurance loop
    derives is a finite float in the unit interval whenever its division
    does not raise. *)
Lemma q_xt_unit (t0 : Z) (q : fl) :
  (1 <= t0)%Z -> (x + t0 <= la)%Z ->
  SurvivalFunctions.q_xt self x t0 = Ok q ->
  exists r, q = Fin r /\ unit_qc r.
Proof.
  intros H1 Hx. unfold SurvivalFunctions.q_xt.
  destruct (npx_within_unit _ _ _ self x t0 la Hinit Hla Hx) as (rt & Et & Ut).
  destruct (1 <? t0)%Z eqn:E1.
  - apply Z.ltb_lt in E1.
    assert (x + (t0 - 1) <= la)%Z as Hx' by lia.
    destruct (npx_within_unit _ _ _ self x (t0 - 1) la Hinit Hla Hx')
      as (rp & Ep & Up).
    rewrite Et, Ep. cbn [bind]. unfold truediv. cbn [is_py andb val].
    destruct (feqb (Fin rp) f0) eqn:E0; [discriminate|].
    assert (rp <> 0%Qc) as Hrp.
    { intros ->. unfold f0, of_Z in E0. rewrite qc_0 in E0. simpl in E0.
      unfold Qc_eq_bool in E0. destruct (Qc_eq_dec 0 0); congruence. }
    cbn [bind val]. rewrite fdiv_fin by exact Hrp.
    intros H. inversion H; subst q; clear H.
    unfold f1, of_Z; rewrite ?qc_1, ?fsub_fin.
    eexists. split; [reflexivity|]. apply unit_qc_compl.
    apply Qc_div_unit; [apply Ut| |exact Hrp].
    assert ((t0 - 1 =? 0)%Z || contains (x + (t0 - 1)) ages = true) as Htab.
    { replace (t0 - 1 =? 0)%Z with false by (symmetry; apply Z.eqb_neq; lia).
      simpl. rewrite contains_index_of.
      destruct (index_of (x + (t0 - 1)) ages) eqn:Ei; [reflexivity|].
      exfalso. apply Hrp.
      pose proof (init_inv _ _ _ _ Hinit) as (_ & _ & _ & Ha & _).
      rewrite <- Ha in Hla, Ei.
      rewrite (npx_within self x (t0 - 1) la Hla) in Ep by lia.
      rewrite Ei in Ep.
      destruct (index_of x _) in Ep; inversion Ep; reflexivity. }
    destruct (npx_within_mono _ _ _ self x (t0 - 1) t0 la Hinit Hinc Hla
                ltac:(lia) ltac:(lia) Hx Htab) as (a & b & Ea & Eb & Hle).
    rewrite Ep in Ea. rewrite Et in Eb.
    inversion Ea; subst a. inversion Eb; subst b.
    apply fle_fin in Hle. exact Hle.
  - apply Z.ltb_ge in E1. assert (t0 = 1)%Z as -> by lia.
    rewrite Et. cbn [bind val]. intros H. inversion H; subst q.
    unfold f1, of_Z; rewrite ?qc_1, ?fsub_fin.
    eexists. split; [reflexivity|]. apply unit_qc_compl. exact Ut.
Qed.

(** Inside the table the loop only adds finite non-negative terms. *)
Lemma assurance_loop_grows (ts : list Z) :
  (forall t0, In t0 ts -> (1 <= t0)%Z /\ (x + t0 <= la)%Z) ->
  forall (a w : Qc) (res : fl),
    (0 <= w)%Qc ->
    SurvivalFunctions.assurance_loop self x ts (Fin a) (Fin w) = Ok res ->
    exists r, res = Fin r /\ (a <= r)%Qc.
Proof.
  induction ts as [|t0 ts IH]; intros Hts a w res Hw Hres.
  - simpl in Hres. inversion Hres; subst. exists a. split; [reflexivity|].
    apply Qcle_refl.
  - cbn [SurvivalFunctions.assurance_loop] in Hres.
    destruct (SurvivalFunctions.q_xt self x t0) as [q|e] eqn:Eq; [|discriminate].
    cbn [bind] in Hres.
    destruct (Hts t0 (or_introl eq_refl)) as [H1 Hx].
    destruct (q_xt_unit t0 q H1 Hx Eq)
      as (r & -> & [Hr0 Hr1]).
    assert (py_min (Fin r) f1 = Fin r) as Hmin.
    { unfold py_min, f1, of_Z. rewrite qc_1.
      destruct (flt (Fin 1%Qc) (Fin r)) eqn:E; [|reflexivity].
      apply flt_fin in E. exfalso. exact (Qclt_not_le _ _ E Hr1). }
    rewrite Hmin, Hv, !fmul_fin, fadd_fin in Hres.
    assert (0 <= w * r)%Qc as Hterm.
    { replace 0%Qc with (0 * r)%Qc by ring.
      apply Qcmult_le_compat_r; assumption. }
    assert (0 <= w * vq)%Qc as Hw'.
    { replace 0%Qc with (0 * vq)%Qc by ring.
      apply Qcmult_le_compat_r; assumption. }
    destruct (IH (fun t1 H => Hts t1 (or_intror H)) _ _ _ Hw' Hres)
      as (r' & -> & Hle).
    exists r'. split; [reflexivity|].
    eapply Qcle_trans; [|exact Hle].
    rewrite <- (Qcplus_0_r a) at 1. rewrite !(Qcplus_comm a).
    apply Qcplus_le_compat; [exact Hterm|apply Qcle_refl].
Qed.

End AssuranceWithinTable.

Lemma range1_split (n h : Z) :
  (0 <= n)%Z -> (n <= h)%Z ->
  range1 h = range1 n ++ map Z.of_nat (seq (1 + Z.to_nat n) (Z.to_nat (h - n))).
Proof.
  intros Hn Hh. unfold range1.
  replace (Z.to_nat h) with (Z.to_nat n + Z.to_nat (h - n))%nat by lia.
  rewrite seq_app, map_app. reflexivity.
Qed.

Lemma range1_in (h t0 : Z) : In t0 (range1 h) -> (1 <= t0)%Z /\ (t0 <= h)%Z.
Proof.
  unfold range1. intros H. apply in_map_iff in H.
  destruct H as (k & <- & Hk). apply in_seq in Hk. lia.
Qed.

(** A rate above -100% gives a finite, non-negative discount factor. *)
Lemma sf_init_discount (m : MortalityTable.t) (i : fl)
      (self : SurvivalFunctions.t) :
  SurvivalFunctions.__init__ m i = Ok self ->
  flt (of_Z (-1)) i = true ->
  SurvivalFunctions.mt self = m
  /\ exists vq, SurvivalFunctions.v self = Fin vq /\ (0 <= vq)%Qc.
Proof.
  unfold SurvivalFunctions.__init__, truediv. cbn [is_py andb val].
  destruct (feqb (fadd f1 i) f0) eqn:E0; [discriminate|].
  cbn [bind val]. intros H Hi. inversion H; subst self; clear H.
  cbn [SurvivalFunctions.mt SurvivalFunctions.v]. split; [reflexivity|].
  destruct i as [qi| | |]; try discriminate.
  - unfold of_Z in Hi. apply flt_fin in Hi.
    assert (0 < 1 + qi)%Qc as Hpos.
    { apply Qclt_minus_iff in Hi.
      replace (1 + qi)%Qc with (qi + - qc (-1) 1)%Qc; [exact Hi|].
      rewrite Qcplus_comm. f_equal. }
    rewrite qc_1. destruct (Qc_is0 (1 + qi)) eqn:Ez.
    { apply Qc_is0_iff in Ez. exfalso. exact (Qc_pos_neq0 _ Hpos Ez). }
    eexists. split; [reflexivity|].
    apply Qcmult_lt_0_le_reg_r with (z := (1 + qi)%Qc); [exact Hpos|].
    replace (1 / (1 + qi) * (1 + qi))%Qc with 1%Qc
      by (field; apply Qc_pos_neq0; exact Hpos).
    rewrite Qcmult_0_l. apply Qc_0_le_1.
  - exists 0%Qc. split; [reflexivity|apply Qcle_refl].
Qed.

(** A rate that is not negative lies above -100%. *)
Lemma rate_nonneg_above_minus_one (i : fl) :
  fle f0 i = true -> flt (of_Z (-1)) i = true.
Proof.
  destruct i as [qi| | |]; try discriminate; [|reflexivity].
  unfold f0, of_Z. rewrite qc_0. intros H. apply fle_fin in H.
  apply flt_fin. eapply Qclt_le_trans; [|exact H].
  unfold qc, Qclt, Q2Qc. cbn [this]. rewrite Qred_correct. reflexivity.
Qed.

(** C5 (as amended).  For a constructed table with increasing ages, an
    interest rate that is not negative (so that the discount factor lies
    in [0, 1] and the running power [v_t] cannot grow), a tabulated age
    [x] and a term [n] from 1 up to the number of tabulated ages after
    [x]: when the whole-life assurance returns a value, the term
    assurance returns a value that is not larger. *)
Theorem term_assurance_le_whole_life
        (ages : list Z) (qx : list fl) (name : string)
        (m : MortalityTable.t) (i : fl) (self : SurvivalFunctions.t)
        (x n : Z) (idx : nat) (w : fl) :
  MortalityTable.__init__ ages qx name = Ok m ->
  increasing ages = true ->
  SurvivalFunctions.__init__ m i = Ok self ->
  fle f0 i = true ->
  index_of x ages = Some idx ->
  (1 <= n)%Z ->
  (n <= Z.of_nat (length ages) - Z.of_nat idx - 1)%Z ->
  SurvivalFunctions.assurance self x None = Ok w ->
  exists u,
    SurvivalFunctions.assurance self x (Some n) = Ok u /\ fle u w = true.
Proof.
  intros Hinit Hinc Hsf Hi Hidx Hn1 Hnh Hw.
  apply rate_nonneg_above_minus_one in Hi.
  destruct (sf_init_discount _ _ _ Hsf Hi) as (Hmt & vq & Hv & Hvq).
  rewrite <- Hmt in Hinit.
  pose proof (init_lengths _ _ _ _ Hinit) as (_ & _ & _ & _ & Hpos).
  pose proof (init_inv _ _ _ _ Hinit) as (_ & _ & _ & Ha & _).
  cbv zeta in Hpos. rewrite Ha in Hpos.
  destruct (get_last_ok ages Hpos) as (la & Hla).
  pose proof (horizon_within _ _ _ _ Hinc Hidx Hla) as Hhor.
  unfold SurvivalFunctions.assurance in *.
  rewrite where_eq_get, Ha, Hidx in Hw. cbn [bind] in Hw.
  rewrite (range1_split n _ ltac:(lia) Hnh), assurance_loop_app in Hw.
  destruct (SurvivalFunctions.assurance_loop self x (range1 n) f0
              (SurvivalFunctions.v self)) as [u|e] eqn:Eu; [|discriminate].
  cbn [bind] in Hw. exists u. split; [reflexivity|].
  rewrite Hv in Eu, Hw. unfold f0, of_Z in Eu. rewrite qc_0 in Eu.
  assert (forall t0, In t0 (range1 n) -> (1 <= t0)%Z /\ (x + t0 <= la)%Z) as Hts1.
  { intros t0 Ht. apply range1_in in Ht. lia. }
  destruct (assurance_loop_grows ages qx name self x la vq Hinit Hinc Hla Hv
              Hvq _ Hts1 _ _ _ Hvq Eu) as (ru & -> & Hru).
  destruct (v_after_fin self (range1 n) vq vq Hv Hvq Hvq) as (w' & Hw' & Hw'0).
  rewrite Hw' in Hw.
  assert (forall t0,
             In t0 (map Z.of_nat
                        (seq (1 + Z.to_nat n)
                             (Z.to_nat (Z.of_nat (length ages) - Z.of_nat idx - 1 - n)))) ->
             (1 <= t0)%Z /\ (x + t0 <= la)%Z) as Hts2.
  { intros t0 Ht. apply in_map_iff in Ht. destruct Ht as (k & <- & Hk).
    apply in_seq in Hk. lia. }
  destruct (assurance_loop_grows ages qx name self x la vq Hinit Hinc Hla Hv
              Hvq _ Hts2 _ _ _ Hw'0 Hw) as (rw & -> & Hrw).
  apply fle_fin. exact Hrw.
Qed.

Lemma term_assurance_le_whole_life_witness :
  exists u,
    SurvivalFunctions.assurance sf3 20 (Some 1%Z) = Ok u /\ fle u f1 = true.
Proof.
  apply (term_assurance_le_whole_life ages3 rates3 "sample" table3 f0 sf3
                                      20 1 0 f1).
  - vm_compute. reflexivity.
  - reflexivity.
  - vm_compute. reflexivity.
  - reflexivity.
  - reflexivity.
  - lia.
  - simpl. lia.
  - fl_refl.
Defined.

(** C5 fails as stated: at the last tabulated age the whole-life value
    is 0 and the one-year term value is 1/2; and at the rate -300% the
    two-year term value -1/8 is above the whole-life value -3/16. *)
Lemma term_assurance_counterexample :
  SurvivalFunctions.assurance sf3 22 (Some 1%Z) = Ok fhalf
  /\ SurvivalFunctions.assurance sf3 22 None = Ok f0
  /\ fle fhalf f0 = false
  /\ SurvivalFunctions.assurance sf4_negative 20 (Some 2%Z) = Ok (Fin (qc (-1) 8))
  /\ SurvivalFunctions.assurance sf4_negative 20 None = Ok (Fin (qc (-3) 16))
  /\ fle (Fin (qc (-1) 8)) (Fin (qc (-3) 16)) = false.
Proof. repeat split; fl_refl. Qed.

(** ** The rescaling of [lx] *)

(** C6.  The arrays of a table whose last rate is 1: construction
    succeeds, [px] is the complement of [qx], the raw [lx] is zero
    throughout, and the rescaling divides zero by zero, so [lx[0]] is NaN
    and not 1, and [dx] is NaN as well. *)
Theorem lx_rescaling_at_rate_one :
  exists t,
    MortalityTable.__init__ ages_omega rates_omega "omega" = Ok t
    /\ MortalityTable.in_unit f1 = true
    /\ MortalityTable.px t = [fhalf; f0]
    /\ tail_prod (MortalityTable.px t) 0 = f0
    /\ MortalityTable.lx t = [NaN; NaN]
    /\ MortalityTable.dx t = [NaN; NaN].
Proof.
  eexists. split; [vm_compute; reflexivity|].
  repeat split; fl_refl.
Qed.

(** * Further properties of the mortality engine *)

(** ** [npx] inside the table *)

Lemma increasing_adjacent (l : list Z) (s e : nat) (x : Z) :
  increasing l = true ->
  nth_error l s = Some x -> nth_error l e = Some (x + 1)%Z -> e = S s.
Proof.
  intros Hinc Hs He.
  destruct (Nat.lt_trichotomy s e) as [H|[H|H]].
  - destruct (Nat.eq_dec e (S s)) as [E|E]; [exact E|].
    destruct (nth_error l (S s)) as [c|] eqn:Ec.
    + assert (s < S s)%nat as H1 by lia.
      assert (S s < e)%nat as H2 by lia.
      pose proof (increasing_nth _ _ _ _ _ Hinc H1 Hs Ec).
      pose proof (increasing_nth _ _ _ _ _ Hinc H2 Ec He). lia.
    + apply nth_error_None in Ec.
      assert (nth_error l e <> None) as Hn by congruence.
      apply nth_error_Some in Hn. lia.
  - subst. rewrite Hs in He. inversion He. lia.
  - pose proof (increasing_nth _ _ _ _ _ Hinc H He Hs). lia.
Qed.

Lemma slice_one {A} (l : list A) (s : nat) (a : A) :
  nth_error l s = Some a -> slice l s (S s) = [a].
Proof.
  intros H. unfold slice. replace (S s - s)%nat with 1%nat by lia.
  revert s H. induction l as [|b l IH]; intros [|s] H; simpl in H;
    try discriminate.
  - inversion H; subst. reflexivity.
  - simpl. apply IH. exact H.
Qed.

Lemma slice_empty {A} (l : list A) (s : nat) : slice l s s = [].
Proof. unfold slice. rewrite Nat.sub_diag. reflexivity. Qed.

(** The value of [npx] inside a constructed table, by cases on the two
    positions. *)
Lemma npx_within_value (ages : list Z) (qx : list fl) (name : string)
      (self : SurvivalFunctions.t) (x n la : Z) :
  MortalityTable.__init__ ages qx name = Ok (SurvivalFunctions.mt self) ->
  get_last ages = Ok la -> (0 < n)%Z -> (x + n <= la)%Z ->
  exists qs,
    qx = map Fin qs /\ Forall unit_qc qs
    /\ SurvivalFunctions.npx self x n
       = Ok (PyFloat (Fin
           match index_of x ages, index_of (x + n) ages with
           | Some s, Some e => qprod (slice (map (fun q => 1 - q)%Qc qs) s e)
           | _, _ => 0%Qc
           end)).
Proof.
  intros Hinit Hla Hn Hx.
  destruct (init_fin _ _ _ _ Hinit) as (qs & Hqx & Hqs & Hpx & _).
  pose proof (init_inv _ _ _ _ Hinit) as (_ & _ & _ & Ha & _).
  exists qs. split; [exact Hqx|]. split; [exact Hqs|].
  rewrite <- Ha in Hla.
  rewrite (npx_within self x n la Hla Hn Hx). rewrite Ha.
  destruct (index_of x ages) as [s|]; [|reflexivity].
  destruct (index_of (x + n) ages) as [e|]; [|reflexivity].
  rewrite Hpx, (slice_map Fin), prod_fin. reflexivity.
Qed.

Lemma map_Fin_inj (l1 l2 : list Qc) : map Fin l1 = map Fin l2 -> l1 = l2.
Proof.
  revert l2. induction l1 as [|a l1 IH]; intros [|b l2] H; simpl in H;
    try discriminate; [reflexivity|].
  inversion H; subst. f_equal. apply IH. assumption.
Qed.

(** X1.  Inside a constructed table ([x + n] not past the last age)
    [npx] never raises and returns a Python float in the unit interval,
    for every age and every [n], tabulated or not; [nqx] returns the
    complement, which is in the unit interval as well. *)
Theorem npx_within_table_is_probability
        (ages : list Z) (qx : list fl) (name : string)
        (self : SurvivalFunctions.t) (x n la : Z) :
  MortalityTable.__init__ ages qx name = Ok (SurvivalFunctions.mt self) ->
  get_last ages = Ok la -> (x + n <= la)%Z ->
  exists r,
    SurvivalFunctions.npx self x n = Ok (PyFloat (Fin r))
    /\ SurvivalFunctions.nqx self x n = Ok (PyFloat (Fin (1 - r)))
    /\ unit_qc r /\ unit_qc (1 - r).
Proof.
  intros Hinit Hla Hx.
  destruct (npx_within_unit _ _ _ self x n la Hinit Hla Hx) as (r & E & U).
  exists r. split; [exact E|]. split.
  - unfold SurvivalFunctions.nqx. rewrite E. cbn [bind].
    unfold lift2. cbn [is_py andb val]. unfold f1, of_Z. rewrite qc_1.
    reflexivity.
  - split; [exact U|apply unit_qc_compl; exact U].
Qed.

Lemma npx_within_table_is_probability_witness :
  exists r,
    SurvivalFunctions.npx sf_gap 21 1 = Ok (PyFloat (Fin r))
    /\ SurvivalFunctions.nqx sf_gap 21 1 = Ok (PyFloat (Fin (1 - r)))
    /\ unit_qc r /\ unit_qc (1 - r).
Proof.
  apply (npx_within_table_is_probability ages_gap rates_gap "gap" sf_gap
                                         21 1 22).
  - vm_compute. reflexivity.
  - reflexivity.
  - lia.
Defined.

Lemma npx_chain_aux (ages : list Z) (qx : list fl) (name : string)
      (self : SurvivalFunctions.t) (x m n la : Z) :
  MortalityTable.__init__ ages qx name = Ok (SurvivalFunctions.mt self) ->
  increasing ages = true ->
  get_last ages = Ok la ->
  (0 <= m)%Z -> (0 <= n)%Z -> (x + m + n <= la)%Z ->
  contains (x + m) ages = true ->
  exists a b c,
    SurvivalFunctions.npx self x (m + n) = Ok (PyFloat (Fin a))
    /\ SurvivalFunctions.npx self x m = Ok (PyFloat (Fin b))
    /\ SurvivalFunctions.npx self (x + m) n = Ok (PyFloat (Fin c))
    /\ a = (b * c)%Qc.
Proof.
  intros Hinit Hinc Hla Hm Hn Hx Htab.
  rewrite contains_index_of in Htab.
  destruct (index_of (x + m) ages) as [k|] eqn:Ek; [|discriminate].
  destruct (Z.eq_dec n 0) as [->|Hn0].
  { rewrite Z.add_0_r.
    destruct (npx_within_unit _ _ _ self x m la Hinit Hla ltac:(lia))
      as (b & Eb & _).
    exists b, b, 1%Qc. rewrite Eb.
    split; [reflexivity|]. split; [reflexivity|]. split; [|ring].
    rewrite npx_early by lia. simpl. unfold f1, of_Z. rewrite qc_1.
    reflexivity. }
  destruct (Z.eq_dec m 0) as [->|Hm0].
  { rewrite Z.add_0_l, Z.add_0_r in *.
    destruct (npx_within_unit _ _ _ self x n la Hinit Hla ltac:(lia))
      as (c & Ec & _).
    exists c, 1%Qc, c. rewrite Ec.
    split; [reflexivity|]. split; [|split; [reflexivity|ring]].
    rewrite npx_early by lia. simpl. unfold f1, of_Z. rewrite qc_1.
    reflexivity. }
  destruct (npx_within_value _ _ _ self x (m + n) la Hinit Hla
              ltac:(lia) ltac:(lia)) as (qs & Hqx & Hqs & Ea).
  destruct (npx_within_value _ _ _ self x m la Hinit Hla
              ltac:(lia) ltac:(lia)) as (qs1 & Hqx1 & _ & Eb).
  destruct (npx_within_value _ _ _ self (x + m) n la Hinit Hla
              ltac:(lia) ltac:(lia)) as (qs2 & Hqx2 & _ & Ec).
  assert (qs1 = qs) as -> by (apply map_Fin_inj; congruence).
  assert (qs2 = qs) as -> by (apply map_Fin_inj; congruence).
  rewrite Ek in Eb, Ec. rewrite <- Z.add_assoc in Ec.
  set (ps := map (fun q => 1 - q)%Qc qs) in *.
  do 3 eexists. split; [exact Ea|]. split; [exact Eb|]. split; [exact Ec|].
  destruct (index_of x ages) as [s|] eqn:Es; [|ring].
  destruct (index_of (x + (m + n)) ages) as [e|] eqn:Ee; [|ring].
  assert (x <= x + m)%Z as H1 by lia.
  assert (x + m <= x + (m + n))%Z as H2 by lia.
  pose proof (index_of_order _ _ _ _ _ Hinc H1 Es Ek) as Hsk.
  pose proof (index_of_order _ _ _ _ _ Hinc H2 Ek Ee) as Hke.
  rewrite (slice_split _ s k e Hsk Hke), qprod_app. reflexivity.
Qed.

(** X2.  Inside a constructed table with increasing ages, survival over
    [m + n] years is survival over [m] years times survival over the next
    [n] years, whenever the intermediate age [x + m] is tabulated. *)
Theorem npx_chain (ages : list Z) (qx : list fl) (name : string)
        (self : SurvivalFunctions.t) (x m n la : Z) :
  MortalityTable.__init__ ages qx name = Ok (SurvivalFunctions.mt self) ->
  increasing ages = true ->
  get_last ages = Ok la ->
  (0 <= m)%Z -> (0 <= n)%Z -> (x + m + n <= la)%Z ->
  contains (x + m) ages = true ->
  exists a b c,
    SurvivalFunctions.npx self x (m + n) = Ok (PyFloat (Fin a))
    /\ SurvivalFunctions.npx self x m = Ok (PyFloat (Fin b))
    /\ SurvivalFunctions.npx self (x + m) n = Ok (PyFloat (Fin c))
    /\ a = (b * c)%Qc.
Proof. apply npx_chain_aux. Qed.

Lemma npx_chain_witness :
  exists a b c,
    SurvivalFunctions.npx sf3 20 (1 + 1) = Ok (PyFloat (Fin a))
    /\ SurvivalFunctions.npx sf3 20 1 = Ok (PyFloat (Fin b))
    /\ SurvivalFunctions.npx sf3 (20 + 1) 1 = Ok (PyFloat (Fin c))
    /\ a = (b * c)%Qc.
Proof.
  apply (npx_chain ages3 rates3 "sample" sf3 20 1 1 22).
  - vm_compute. reflexivity.
  - reflexivity.
  - reflexivity.
  - lia.
  - lia.
  - lia.
  - reflexivity.
Defined.

Lemma get_px_one (ages : list Z) (qx : list fl) (name : string)
      (t : MortalityTable.t) (a : Z) :
  MortalityTable.__init__ ages qx name = Ok t ->
  MortalityTable.get_px t (MortalityTable.One a)
  = Ok (MortalityTable.Scalar (fsub f1 (stored_qx t a))).
Proof.
  intros Hinit. unfold MortalityTable.get_px.
  rewrite (get_qx_one _ _ _ _ a Hinit). cbn [bind].
  destruct (fsub f1 (stored_qx t a)); reflexivity.
Qed.

(** The rate stored for a tabulated age of a constructed table is the
    entry of the input at the position of the age. *)
Lemma stored_qx_fin (ages : list Z) (qs : list Qc) (name : string)
      (t : MortalityTable.t) (a : Z) (s : nat) :
  MortalityTable.__init__ ages (map Fin qs) name = Ok t ->
  index_of a ages = Some s ->
  exists q, nth_error qs s = Some q /\ stored_qx t a = Fin q.
Proof.
  intros Hinit Hs.
  pose proof (init_inv _ _ _ _ Hinit) as (Hl & _ & _ & Ha & Hq & _).
  pose proof (index_of_lt _ _ _ Hs) as Hlt.
  rewrite Hl, length_map in Hlt.
  destruct (nth_error qs s) as [q|] eqn:E.
  - exists q. split; [reflexivity|]. unfold stored_qx. rewrite Ha, Hs, Hq.
    apply nth_error_nth. rewrite nth_error_map, E. reflexivity.
  - apply nth_error_None in E. lia.
Qed.

Lemma qprod_one (p : Qc) : qprod [p] = p.
Proof. unfold qprod. simpl. apply Qcmult_1_l. Qed.

Lemma npx_one_year (ages : list Z) (qs : list Qc) (name : string)
      (self : SurvivalFunctions.t) (y la : Z) (s e : nat) :
  MortalityTable.__init__ ages (map Fin qs) name
  = Ok (SurvivalFunctions.mt self) ->
  increasing ages = true ->
  get_last ages = Ok la -> (y + 1 <= la)%Z ->
  index_of y ages = Some s -> index_of (y + 1) ages = Some e ->
  exists q,
    nth_error qs s = Some q
    /\ SurvivalFunctions.npx self y 1 = Ok (PyFloat (Fin (1 - q))).
Proof.
  intros Hinit Hinc Hla Hy Hs He.
  destruct (npx_within_value _ _ _ self y 1 la Hinit Hla ltac:(lia) Hy)
    as (qs' & Hqx & _ & E).
  apply map_Fin_inj in Hqx. subst qs'. rewrite Hs, He in E.
  pose proof (proj1 (index_of_nth _ _ _ Hs)) as Ns.
  pose proof (proj1 (index_of_nth _ _ _ He)) as Ne.
  pose proof (increasing_adjacent _ _ _ _ Hinc Ns Ne) as ->.
  destruct (stored_qx_fin _ _ _ _ _ _ Hinit Hs) as (q & Hq & _).
  exists q. split; [exact Hq|]. rewrite E.
  rewrite (slice_one _ s (1 - q)%Qc), qprod_one; [reflexivity|].
  rewrite nth_error_map, Hq. reflexivity.
Qed.

(** X3.  Inside a constructed table with increasing ages, one more year
    of survival multiplies by the tabulated one-year probability:
    [npx(x, n + 1) = npx(x, n) * get_px(x + n)] whenever [x + n] and
    [x + n + 1] are tabulated; with [n = 0], [npx(x, 1) = get_px(x)]. *)
Theorem npx_one_more_year (ages : list Z) (qx : list fl) (name : string)
        (self : SurvivalFunctions.t) (x n la : Z) :
  MortalityTable.__init__ ages qx name = Ok (SurvivalFunctions.mt self) ->
  increasing ages = true ->
  get_last ages = Ok la ->
  (0 <= n)%Z -> (x + n + 1 <= la)%Z ->
  contains (x + n) ages = true ->
  contains (x + n + 1) ages = true ->
  exists a b p,
    SurvivalFunctions.npx self x (n + 1) = Ok (PyFloat (Fin a))
    /\ SurvivalFunctions.npx self x n = Ok (PyFloat (Fin b))
    /\ MortalityTable.get_px (SurvivalFunctions.mt self)
                             (MortalityTable.One (x + n))
       = Ok (MortalityTable.Scalar (Fin p))
    /\ a = (b * p)%Qc.
Proof.
  intros Hinit Hinc Hla Hn Hx Ht1 Ht2.
  destruct (npx_chain_aux _ _ _ self x n 1 la Hinit Hinc Hla Hn
              ltac:(lia) Hx Ht1) as (a & b & c & Ea & Eb & Ec & Habc).
  rewrite contains_index_of in Ht1, Ht2.
  destruct (index_of (x + n) ages) as [s|] eqn:Es; [|discriminate].
  destruct (index_of (x + n + 1) ages) as [e|] eqn:Ee; [|discriminate].
  destruct (init_fin _ _ _ _ Hinit) as (qs & -> & _).
  destruct (npx_one_year _ _ _ self (x + n) la s e Hinit Hinc Hla Hx Es Ee)
    as (q & Hq & E1).
  destruct (stored_qx_fin _ _ _ _ _ _ Hinit Es) as (q' & Hq' & Hst).
  assert (q' = q) as -> by congruence.
  rewrite E1 in Ec. inversion Ec; subst c.
  exists a, b, (1 - q)%Qc. split; [exact Ea|]. split; [exact Eb|].
  split; [|exact Habc].
  rewrite (get_px_one _ _ _ _ _ Hinit), Hst. unfold f1, of_Z.
  rewrite qc_1. reflexivity.
Qed.

Lemma npx_one_more_year_witness :
  exists a b p,
    SurvivalFunctions.npx sf3 20 (1 + 1) = Ok (PyFloat (Fin a))
    /\ SurvivalFunctions.npx sf3 20 1 = Ok (PyFloat (Fin b))
    /\ MortalityTable.get_px (SurvivalFunctions.mt sf3)
                             (MortalityTable.One (20 + 1))
       = Ok (MortalityTable.Scalar (Fin p))
    /\ a = (b * p)%Qc.
Proof.
  apply (npx_one_more_year ages3 rates3 "sample" sf3 20 1 22).
  - vm_compute. reflexivity.
  - reflexivity.
  - reflexivity.
  - lia.
  - lia.
  - reflexivity.
  - reflexivity.
Defined.

(** ** [npx] past the end of the table *)

Lemma fpow_fin_pos (a : Qc) (k : Z) :
  (0 < k)%Z -> fpow (Fin a) k = Fin (a ^ Z.to_nat k)%Qc.
Proof.
  intros Hk. destruct k as [|p|p]; try lia.
  unfold fpow. rewrite Pos2Nat.inj_iter. simpl Z.to_nat.
  induction (Pos.to_nat p) as [|n IH]; simpl.
  - unfold f1, of_Z. rewrite qc_1. reflexivity.
  - rewrite IH. reflexivity.
Qed.

Lemma Qcpower_unit (p : Qc) (n : nat) : unit_qc p -> unit_qc (p ^ n)%Qc.
Proof.
  intros H. induction n as [|n IH]; simpl.
  - apply unit_qc_1.
  - apply unit_qc_mult; assumption.
Qed.

Lemma Qcpower_pos (a : Qc) (n : nat) : (0 < a)%Qc -> (0 < a ^ n)%Qc.
Proof.
  intros Ha. induction n as [|n IH].
  - simpl. apply Qc_0_lt_1.
  - change (a ^ S n)%Qc with (a * a ^ n)%Qc. apply Qc_mult_pos; assumption.
Qed.

Lemma qprod_cons (p : Qc) (l : list Qc) : qprod (p :: l) = (p * qprod l)%Qc.
Proof.
  change (p :: l) with ([p] ++ l). rewrite qprod_app, qprod_one. reflexivity.
Qed.

Lemma qprod_pos_inv (l : list Qc) :
  Forall unit_qc l -> (0 < qprod l)%Qc -> Forall (fun p => 0 < p)%Qc l.
Proof.
  induction l as [|p l IH]; intros Hu Hpos; [constructor|].
  inversion Hu as [|? ? [Hp0 Hp1] Hl]; subst.
  rewrite qprod_cons in Hpos.
  pose proof (qprod_unit l Hl) as [Hq0 _].
  assert (p <> 0)%Qc as Hp.
  { intros ->. rewrite Qcmult_0_l in Hpos. exact (Qclt_not_le _ _ Hpos (Qcle_refl _)). }
  assert (qprod l <> 0)%Qc as Hq.
  { intros E. rewrite E, Qcmult_0_r in Hpos. exact (Qclt_not_le _ _ Hpos (Qcle_refl _)). }
  constructor.
  - destruct (Qcle_lt_or_eq _ _ Hp0) as [H|H]; [exact H|].
    exfalso. apply Hp. symmetry. exact H.
  - apply IH; [exact Hl|].
    destruct (Qcle_lt_or_eq _ _ Hq0) as [H|H]; [exact H|].
    exfalso. apply Hq. symmetry. exact H.
Qed.

(** A table without underflow has all its rates below 1. *)
Lemma no_underflow_below_one (ages : list Z) (qx : list fl) (name : string)
      (t : MortalityTable.t) :
  MortalityTable.__init__ ages qx name = Ok t ->
  no_underflow t = true ->
  forallb (fun q => flt q f1) qx = true.
Proof.
  intros Hinit Hno.
  destruct (init_fin _ _ _ _ Hinit) as (qs & -> & Hu & Hpx & Hpu).
  unfold no_underflow in Hno. rewrite Hpx, prod_fin in Hno.
  apply fle_fin in Hno.
  assert (0 < qprod (map (fun q => 1 - q) qs))%Qc as Hpos.
  { eapply Qclt_le_trans; [|exact Hno].
    apply Qcpower_pos. unfold qc, Qclt, Q2Qc. cbn [this].
    rewrite Qred_correct. reflexivity. }
  pose proof (qprod_pos_inv _ Hpu Hpos) as Hps.
  clear - Hps. induction qs as [|q qs IH]; [reflexivity|].
  inversion Hps as [|? ? Hq Hl]; subst.
  cbn [map forallb]. rewrite (IH Hl), andb_true_r.
  unfold f1, of_Z. rewrite qc_1. apply flt_fin.
  apply Qclt_minus_iff. exact Hq.
Qed.

(** X4.  Past the last age of a constructed table with increasing ages
    whose products of [px] do not underflow (so all rates are below 1),
    [npx(x, n)] of a tabulated age is [get_px(x) ** n]: the one-year
    probability at age [x] itself, for all [n] years; so it does not
    increase with [n] there. *)
Theorem npx_beyond_table_is_power
        (ages : list Z) (qx : list fl) (name : string)
        (self : SurvivalFunctions.t) (x n la : Z) :
  MortalityTable.__init__ ages qx name = Ok (SurvivalFunctions.mt self) ->
  increasing ages = true ->
  no_underflow (SurvivalFunctions.mt self) = true ->
  get_last ages = Ok la ->
  (0 < n)%Z -> (la < x + n)%Z ->
  contains x ages = true ->
  exists p,
    MortalityTable.get_px (SurvivalFunctions.mt self) (MortalityTable.One x)
    = Ok (MortalityTable.Scalar (Fin p))
    /\ SurvivalFunctions.npx self x n
       = Ok (NpFloat64 (Fin (p ^ Z.to_nat n)))
    /\ SurvivalFunctions.npx self x (n + 1)
       = Ok (NpFloat64 (Fin (p ^ Z.to_nat (n + 1))))
    /\ (p ^ Z.to_nat (n + 1) <= p ^ Z.to_nat n)%Qc.
Proof.
  intros Hinit Hinc Hno Hla Hn Hx Htab.
  pose proof (no_underflow_below_one _ _ _ _ Hinit Hno) as Hlt.
  rewrite contains_index_of in Htab.
  destruct (index_of x ages) as [ix|] eqn:Eix; [|discriminate].
  destruct (init_fin _ _ _ _ Hinit) as (qs & -> & Hu & Hpx & Hpu).
  pose proof (forallb_lt1_fin _ Hlt Hu) as Hps.
  pose proof (init_inv _ _ _ _ Hinit) as (_ & _ & _ & Ha & _).
  pose proof (init_lengths _ _ _ _ Hinit) as (_ & _ & Hl & _).
  cbv zeta in Hl. rewrite Ha in Hl.
  destruct (stored_qx_fin _ _ _ _ _ _ Hinit Eix) as (q & Hq & Hst).
  pose proof (increasing_last_index_le _ _ _ Hinc Eix) as Hk.
  pose proof (proj1 (index_of_nth _ _ _ Eix)) as Nx.
  pose proof (index_of_lt _ _ _ Eix) as Hixlt.
  destruct (get_ok (MortalityTable.lx (SurvivalFunctions.mt self)) ix)
    as (l & Gl & Nl); [lia|].
  destruct (lx_nth_fin _ _ _ _ _ _ Hinit Hps Nl) as [_ Hlv].
  set (r := (qtail (map (fun q => 1 - q)%Qc qs) ix
             / qtail (map (fun q => 1 - q)%Qc qs) 0)%Qc) in *.
  assert (r <> 0%Qc) as Hr.
  { assert (0 < qtail (map (fun q => 1 - q)%Qc qs) 0)%Qc as H0.
    { apply qtail_pos. eapply Forall_impl; [|exact Hps]. simpl. tauto. }
    assert (0 < qtail (map (fun q => 1 - q)%Qc qs) ix)%Qc as H1.
    { apply qtail_pos. eapply Forall_impl; [|exact Hps]. simpl. tauto. }
    intros E. apply (Qc_pos_neq0 _ H1).
    replace (qtail (map (fun q => 1 - q)%Qc qs) ix)
      with (r * qtail (map (fun q => 1 - q)%Qc qs) 0)%Qc
      by (unfold r; field; apply Qc_pos_neq0; exact H0).
    rewrite E. ring. }
  assert (forall k, (0 < k)%Z -> (la < x + k)%Z ->
             SurvivalFunctions.npx self x k
             = Ok (NpFloat64 (Fin ((1 - q) ^ Z.to_nat k)))) as Hval.
  { intros k Hk0 Hkx. rewrite <- Ha in Hla.
    rewrite (npx_beyond self x k la Hla Hk0 Hkx). rewrite Ha, Hk, Eix.
    rewrite (get_nth _ _ _ Nx). cbn [bind].
    rewrite Hpx.
    rewrite (get_nth _ ix (Fin (1 - q)))
      by (rewrite !nth_error_map, Hq; reflexivity).
    cbn [bind]. rewrite Gl. cbn [bind].
    rewrite Hlv. replace (x + k - x)%Z with k by lia.
    rewrite fpow_fin_pos by exact Hk0. rewrite fmul_fin.
    rewrite fdiv_fin by exact Hr. do 3 f_equal. field. exact Hr. }
  exists (1 - q)%Qc. split.
  - rewrite (get_px_one _ _ _ _ _ Hinit), Hst. unfold f1, of_Z.
    rewrite qc_1. reflexivity.
  - split; [apply Hval; lia|]. split; [apply Hval; lia|].
    replace (Z.to_nat (n + 1)) with (S (Z.to_nat n)) by lia.
    cbn [Qcpower].
    assert (unit_qc (1 - q)) as Up.
    { rewrite Forall_forall in Hpu. apply Hpu. apply in_map_iff.
      exists q. split; [reflexivity|]. eapply nth_error_In; eauto. }
    rewrite Qcmult_comm. apply Qc_mult_le_1; [|apply Up].
    apply (Qcpower_unit _ (Z.to_nat n) Up).
Qed.

Lemma npx_beyond_table_is_power_witness :
  exists p,
    MortalityTable.get_px (SurvivalFunctions.mt sf3) (MortalityTable.One 20)
    = Ok (MortalityTable.Scalar (Fin p))
    /\ SurvivalFunctions.npx sf3 20 3 = Ok (NpFloat64 (Fin (p ^ Z.to_nat 3)))
    /\ SurvivalFunctions.npx sf3 20 (3 + 1)
       = Ok (NpFloat64 (Fin (p ^ Z.to_nat (3 + 1))))
    /\ (p ^ Z.to_nat (3 + 1) <= p ^ Z.to_nat 3)%Qc.
Proof.
  apply (npx_beyond_table_is_power ages3 rates3 "sample" sf3 20 3 22).
  - vm_compute. reflexivity.
  - reflexivity.
  - reflexivity.
  - reflexivity.
  - lia.
  - lia.
  - reflexivity.
Defined.

Lemma fold_prod_zero (l : list Qc) :
  In 0%Qc l -> fold_right (fun p acc => acc * p)%Qc 1%Qc l = 0%Qc.
Proof.
  induction l as [|p l IH]; intros H; [destruct H|].
  cbn [fold_right]. destruct H as [->|H].
  - ring.
  - rewrite (IH H). ring.
Qed.

Lemma fold_prod_unit (l : list Qc) :
  Forall unit_qc l -> unit_qc (fold_right (fun p acc => acc * p)%Qc 1%Qc l).
Proof.
  induction 1 as [|p l Hp Hl IH]; [apply unit_qc_1|].
  cbn [fold_right]. apply unit_qc_mult; assumption.
Qed.

Lemma rate_one_gives_zero_px (qs : list Qc) :
  existsb (fun q => feqb q f1) (map Fin qs) = true ->
  In 0%Qc (map (fun q => 1 - q)%Qc qs).
Proof.
  intros H. apply existsb_exists in H. destruct H as (q & Hin & Hq).
  apply in_map_iff in Hin. destruct Hin as (r & <- & Hr).
  unfold f1, of_Z in Hq. rewrite qc_1 in Hq. simpl in Hq.
  apply Qc_eq_bool_iff in Hq. subst r.
  apply in_map_iff. exists 1%Qc. split; [ring|exact Hr].
Qed.

(** With a rate equal to 1 every entry of the rescaled [lx] is NaN or
    an infinity. *)
Lemma lx_entry_degenerate (ages : list Z) (qx : list fl) (name : string)
      (t : MortalityTable.t) (i : nat) (l : fl) :
  MortalityTable.__init__ ages qx name = Ok t ->
  existsb (fun q => feqb q f1) qx = true ->
  nth_error (MortalityTable.lx t) i = Some l ->
  l = NaN \/ l = PInf.
Proof.
  intros Hinit Hone Hl.
  destruct (init_fin _ _ _ _ Hinit) as (qs & -> & Hu & Hpx & Hpu).
  pose proof (rate_one_gives_zero_px _ Hone) as Hz.
  pose proof (init_inv _ _ _ _ Hinit) as (_ & _ & _ & _ & _ & Hp & Hlx & _).
  rewrite <- Hp, Hpx in Hlx. rewrite Hlx, nth_error_map in Hl.
  destruct (nth_error (tails_prod _) i) as [r|] eqn:Er; [|discriminate].
  assert (i < length (map Fin (map (fun q => 1 - q)%Qc qs)))%nat as Hi.
  { rewrite <- tails_prod_length. apply nth_error_Some. congruence. }
  rewrite tails_prod_nth in Er by exact Hi. inversion Er; subst r; clear Er.
  simpl in Hl. inversion Hl; subst l; clear Hl.
  rewrite !tail_prod_fin.
  assert (qtail (map (fun q => 1 - q)%Qc qs) 0 = 0%Qc) as ->
    by (apply fold_prod_zero; exact Hz).
  assert (unit_qc (qtail (map (fun q => 1 - q)%Qc qs) i)) as [H0 _].
  { apply fold_prod_unit. apply Forall_forall. intros p Hp'.
    rewrite Forall_forall in Hpu. apply Hpu.
    rewrite <- (firstn_skipn i _). apply in_or_app. right. exact Hp'. }
  cbn [fdiv]. assert (Qc_is0 0 = true) as -> by (apply Qc_is0_iff; reflexivity).
  destruct (Qc_is0 _) eqn:Ez; [left; reflexivity|].
  destruct (Qc_ltb 0 _) eqn:El; [right; reflexivity|].
  exfalso. destruct (Qcle_lt_or_eq _ _ H0) as [H|H].
  - apply Qc_ltb_iff in H. congruence.
  - symmetry in H. apply Qc_is0_iff in H. congruence.
Qed.

Lemma degenerate_ratio (l1 l2 : fl) (y : Qc) :
  (l1 = NaN \/ l1 = PInf) -> (l2 = NaN \/ l2 = PInf) ->
  fdiv (fmul l1 (Fin y)) l2 = NaN.
Proof.
  intros [->| ->] [->| ->]; try reflexivity;
    cbn [fmul]; unfold inf_times;
    destruct (Qc_is0 y); try reflexivity;
    destruct (Bool.eqb true (Qc_ltb 0 y)); reflexivity.
Qed.

(** X5.  In a constructed table that holds a rate equal to 1 (as a life
    table that ends with certain death does), [npx(x, n)] of every
    tabulated age is NaN as soon as [x + n] passes the last age. *)
Theorem npx_beyond_table_nan_at_rate_one
        (ages : list Z) (qx : list fl) (name : string)
        (self : SurvivalFunctions.t) (x n la : Z) :
  MortalityTable.__init__ ages qx name = Ok (SurvivalFunctions.mt self) ->
  existsb (fun q => feqb q f1) qx = true ->
  get_last ages = Ok la ->
  (0 < n)%Z -> (la < x + n)%Z ->
  contains x ages = true ->
  SurvivalFunctions.npx self x n = Ok (NpFloat64 NaN).
Proof.
  intros Hinit Hone Hla Hn Hx Htab.
  rewrite contains_index_of in Htab.
  destruct (index_of x ages) as [ix|] eqn:Eix; [|discriminate].
  destruct (init_fin _ _ _ _ Hinit) as (qs & Hqx & _ & Hpx & _).
  pose proof (init_inv _ _ _ _ Hinit) as (_ & _ & _ & Ha & _).
  pose proof (init_lengths _ _ _ _ Hinit) as (_ & Hp & Hl & _).
  cbv zeta in Hp, Hl. rewrite Ha in Hp, Hl.
  rewrite <- Ha in Hla.
  rewrite (npx_beyond self x n la Hla Hn Hx). rewrite Ha, Eix.
  destruct (index_of_some_last_le _ _ _ Eix) as (k & Hk). rewrite Hk.
  pose proof (last_index_le_lt _ _ _ Hk) as Hklt.
  pose proof (index_of_lt _ _ _ Eix) as Hixlt.
  destruct (get_ok ages k Hklt) as (a_k & -> & Na).
  destruct (get_ok (MortalityTable.px (SurvivalFunctions.mt self)) k)
    as (p_k & Gp & Np); [lia|].
  destruct (get_ok (MortalityTable.lx (SurvivalFunctions.mt self)) k)
    as (l_k & Gl & Nl); [lia|].
  destruct (get_ok (MortalityTable.lx (SurvivalFunctions.mt self)) ix)
    as (l_x & Gx & Nx); [lia|].
  cbn [bind]. rewrite Gp. cbn [bind]. rewrite Gl. cbn [bind].
  rewrite Gx. cbn [bind].
  assert (exists y, fpow p_k (x + n - a_k) = Fin y) as (y & ->).
  { rewrite Hpx, nth_error_map in Np.
    destruct (nth_error (map (fun q => 1 - q)%Qc qs) k) as [p|];
      [|discriminate].
    simpl in Np. injection Np as <-.
    pose proof (last_index_le_spec x ages) as S. rewrite Hk in S.
    destruct S as [(a & Ha' & Hax) _].
    assert (a = a_k) by congruence. subst a.
    rewrite fpow_fin_pos by lia. eauto. }
  do 2 f_equal. apply degenerate_ratio.
  - exact (lx_entry_degenerate _ _ _ _ _ _ Hinit Hone Nl).
  - exact (lx_entry_degenerate _ _ _ _ _ _ Hinit Hone Nx).
Qed.

Lemma npx_beyond_table_nan_at_rate_one_witness :
  SurvivalFunctions.npx sf_one 21 2 = Ok (NpFloat64 NaN).
Proof.
  apply (npx_beyond_table_nan_at_rate_one ages_one rates_one "one" sf_one
                                          21 2 22).
  - vm_compute. reflexivity.
  - reflexivity.
  - reflexivity.
  - lia.
  - lia.
  - reflexivity.
Defined.

(** ** [tpx] on whole years and on untabulated ages *)

Lemma qc_Z_le (a b : Z) : (qc a 1 <= qc b 1)%Qc <-> (a <= b)%Z.
Proof.
  unfold qc, Qcle, Q2Qc. cbn [this]. rewrite !Qred_correct.
  unfold Qle. simpl. lia.
Qed.

Lemma qc_Z_lt (a b : Z) : (qc a 1 < qc b 1)%Qc <-> (a < b)%Z.
Proof.
  unfold qc, Qclt, Q2Qc. cbn [this]. rewrite !Qred_correct.
  unfold Qlt. simpl. lia.
Qed.

Lemma qc_Z_eq (a b : Z) : qc a 1 = qc b 1 <-> a = b.
Proof.
  split; [|congruence]. intros H.
  assert (qc a 1 <= qc b 1)%Qc as H1 by (rewrite H; apply Qcle_refl).
  assert (qc b 1 <= qc a 1)%Qc as H2 by (rewrite H; apply Qcle_refl).
  apply (proj1 (qc_Z_le _ _)) in H1. apply (proj1 (qc_Z_le _ _)) in H2. lia.
Qed.

Lemma qc_Z_add (a b : Z) : (qc a 1 + qc b 1)%Qc = qc (a + b) 1.
Proof.
  apply Qc_is_canon. unfold qc, Qcplus, Q2Qc. cbn [this].
  rewrite !Qred_correct. unfold Qeq, Qplus. cbn [Qnum Qden].
  rewrite !Pos.mul_1_r, !Z.mul_1_r. reflexivity.
Qed.

Lemma qc_Z_mul (a b : Z) : (qc a 1 * qc b 1)%Qc = qc (a * b) 1.
Proof.
  apply Qc_is_canon. unfold qc, Qcmult, Q2Qc. cbn [this].
  rewrite !Qred_correct. unfold Qeq, Qmult. cbn [Qnum Qden].
  reflexivity.
Qed.

Lemma py_int_of_Z (n : Z) : (0 <= n)%Z -> py_int (of_Z n) = Ok n.
Proof.
  intros H. unfold of_Z. rewrite py_int_floor by (rewrite <- qc_0; apply qc_Z_le; exact H).
  f_equal. unfold qc, Q2Qc. cbn [this]. rewrite Qred_correct. simpl.
  apply Z.div_1_r.
Qed.

Lemma of_Z_is_zero (n : Z) : feqb (of_Z n) f0 = (n =? 0)%Z.
Proof.
  unfold f0, of_Z. simpl. destruct (n =? 0)%Z eqn:E.
  - apply Z.eqb_eq in E. subst. apply Qc_eq_bool_iff. reflexivity.
  - destruct (Qc_eq_bool (qc n 1) (qc 0 1)) eqn:E'; [|reflexivity].
    apply Qc_eq_bool_iff in E'. apply (proj1 (qc_Z_eq _ _)) in E'.
    apply Z.eqb_neq in E. contradiction.
Qed.

Lemma of_Z_is_negative (n : Z) : flt (of_Z n) f0 = (n <? 0)%Z.
Proof.
  unfold f0, of_Z. destruct (n <? 0)%Z eqn:E.
  - apply flt_fin, qc_Z_lt, Z.ltb_lt. exact E.
  - destruct (flt (Fin (qc n 1)) (Fin (qc 0 1))) eqn:E'; [|reflexivity].
    apply flt_fin in E'. apply (proj1 (qc_Z_lt _ _)) in E'.
    apply Z.ltb_ge in E. lia.
Qed.

(** The common part of the two theorems on [tpx]: below the last age a
    positive duration takes the interpolation exit. *)
Lemma tpx_below_last (np_exp np_log : fl -> fl)
      (ages : list Z) (qx : list fl) (name : string)
      (self : SurvivalFunctions.t) (x la : Z) (q : Qc) :
  MortalityTable.__init__ ages qx name = Ok (SurvivalFunctions.mt self) ->
  get_last ages = Ok la ->
  (0 < q)%Qc -> (x + Qfloor q < la)%Z ->
  exists r,
    SurvivalFunctions.npx self x (Qfloor q) = Ok (PyFloat (Fin r))
    /\ unit_qc r
    /\ SurvivalFunctions.tpx np_exp np_log self x (Fin q)
       = Ok (PyFloat
               (fmul (Fin r)
                  (fsub f1
                     (fmul (fsub (Fin q) (of_Z (Qfloor q)))
                           (stored_qx (SurvivalFunctions.mt self)
                                      (x + Qfloor q)))))).
Proof.
  intros Hinit Hla Hq Hx.
  destruct (npx_within_unit _ _ _ self x (Qfloor q) la Hinit Hla ltac:(lia))
    as (r & Er & Ur).
  exists r. split; [exact Er|]. split; [exact Ur|].
  pose proof (init_inv _ _ _ _ Hinit) as (_ & _ & _ & Ha & _).
  unfold SurvivalFunctions.tpx.
  assert (feqb (Fin q) f0 = false) as ->.
  { unfold f0, of_Z. rewrite qc_0. simpl.
    destruct (Qc_eq_bool q 0) eqn:E; [|reflexivity].
    apply Qc_eq_bool_iff in E. subst. discriminate. }
  assert (flt (Fin q) f0 = false) as ->.
  { unfold f0, of_Z. rewrite qc_0. simpl. unfold Qc_ltb.
    apply negb_false_iff. apply Qle_bool_iff. apply Qclt_le_weak in Hq.
    exact Hq. }
  rewrite py_int_floor by (apply Qclt_le_weak; exact Hq).
  cbn [bind]. rewrite Er. cbn [bind]. rewrite Ha, Hla. cbn [bind].
  replace (la <=? Qfloor q + x)%Z with false
    by (symmetry; apply Z.leb_gt; lia).
  unfold SurvivalFunctions.get_qx_float.
  rewrite (get_qx_one _ _ _ _ _ Hinit). reflexivity.
Qed.

(** X6.  On a whole number of years [n >= 1] that ends at a tabulated
    age below the last one, [tpx(x, n)] of a constructed table returns
    exactly what [npx(x, n)] returns. *)
Theorem tpx_whole_years_is_npx (np_exp np_log : fl -> fl)
        (ages : list Z) (qx : list fl) (name : string)
        (self : SurvivalFunctions.t) (x n la : Z) :
  MortalityTable.__init__ ages qx name = Ok (SurvivalFunctions.mt self) ->
  get_last ages = Ok la ->
  (1 <= n)%Z -> (x + n < la)%Z ->
  contains (x + n) ages = true ->
  exists r,
    SurvivalFunctions.npx self x n = Ok (PyFloat (Fin r))
    /\ SurvivalFunctions.tpx np_exp np_log self x (of_Z n)
       = Ok (PyFloat (Fin r)).
Proof.
  intros Hinit Hla Hn Hx Htab.
  assert (Qfloor (qc n 1) = n) as Hfl.
  { unfold qc, Q2Qc. cbn [this]. rewrite Qred_correct. simpl.
    apply Z.div_1_r. }
  assert (0 < qc n 1)%Qc as Hq by (rewrite <- qc_0; apply qc_Z_lt; lia).
  destruct (tpx_below_last np_exp np_log _ _ _ self x la (qc n 1) Hinit Hla Hq)
    as (r & Er & _ & Et); [rewrite Hfl; exact Hx|].
  rewrite Hfl in Er, Et. exists r. split; [exact Er|].
  unfold of_Z at 1. rewrite Et.
  rewrite contains_index_of in Htab.
  destruct (index_of (x + n) ages) as [s|] eqn:Es; [|discriminate].
  destruct (init_fin _ _ _ _ Hinit) as (qs & -> & _).
  destruct (stored_qx_fin _ _ _ _ _ _ Hinit Es) as (q & _ & ->).
  unfold f1, of_Z. rewrite qc_1, !fsub_fin, !fmul_fin, fsub_fin, fmul_fin.
  do 3 f_equal. ring.
Qed.

Lemma tpx_whole_years_is_npx_witness :
  exists r,
    SurvivalFunctions.npx sf3 20 1 = Ok (PyFloat (Fin r))
    /\ SurvivalFunctions.tpx (fun a => a) (fun a => a) sf3 20 (of_Z 1)
       = Ok (PyFloat (Fin r)).
Proof.
  apply (tpx_whole_years_is_npx (fun a => a) (fun a => a)
                                ages3 rates3 "sample" sf3 20 1 22).
  - vm_compute. reflexivity.
  - reflexivity.
  - lia.
  - lia.
  - reflexivity.
Defined.

(** X7.  For a positive duration [t] whose whole part ends at an
    untabulated age below the last one, [tpx(x, t)] of a constructed
    table is NaN, although [npx] returns a number (0.0 or 1.0) for the
    same whole part: the NaN of the missing rate wins the product. *)
Theorem tpx_untabulated_is_nan (np_exp np_log : fl -> fl)
        (ages : list Z) (qx : list fl) (name : string)
        (self : SurvivalFunctions.t) (x la : Z) (q : Qc) :
  MortalityTable.__init__ ages qx name = Ok (SurvivalFunctions.mt self) ->
  get_last ages = Ok la ->
  (0 < q)%Qc -> (x + Qfloor q < la)%Z ->
  contains (x + Qfloor q) ages = false ->
  SurvivalFunctions.tpx np_exp np_log self x (Fin q) = Ok (PyFloat NaN)
  /\ exists r, SurvivalFunctions.npx self x (Qfloor q) = Ok (PyFloat (Fin r)).
Proof.
  intros Hinit Hla Hq Hx Htab.
  destruct (tpx_below_last np_exp np_log _ _ _ self x la q Hinit Hla Hq Hx)
    as (r & Er & _ & Et).
  split; [|exists r; exact Er].
  rewrite Et. pose proof (init_inv _ _ _ _ Hinit) as (_ & _ & _ & Ha & _).
  rewrite contains_index_of in Htab. unfold stored_qx. rewrite Ha.
  destruct (index_of (x + Qfloor q) ages); [discriminate|].
  reflexivity.
Qed.

Lemma tpx_untabulated_is_nan_witness :
  SurvivalFunctions.tpx (fun a => a) (fun a => a) sf_gap 20 (Fin (qc 3 2))
  = Ok (PyFloat NaN)
  /\ exists r,
       SurvivalFunctions.npx sf_gap 20 (Qfloor (qc 3 2)) = Ok (PyFloat (Fin r)).
Proof.
  apply (tpx_untabulated_is_nan (fun a => a) (fun a => a)
                                ages_gap rates_gap "gap" sf_gap 20 22 (qc 3 2)).
  - vm_compute. reflexivity.
  - reflexivity.
  - reflexivity.
  - reflexivity.
  - reflexivity.
Defined.

(** ** Annuities *)

(** X8.  A term of [n <= 0] years runs no payment: for every table and
    every age, tabulated or not, [annuity_due(x, n)] is 0.0 and
    [annuity_immediate(x, n)] is -1.0, a negative present value; a term
    of one year gives 1.0 and 0.0. *)
Theorem annuity_without_payments (np_exp np_log : fl -> fl)
        (self : SurvivalFunctions.t) (x n : Z) :
  (n <= 0)%Z ->
  SurvivalFunctions.annuity_due np_exp np_log self x (Some n) = Ok f0
  /\ SurvivalFunctions.annuity_immediate np_exp np_log self x (Some n)
     = Ok (of_Z (-1))
  /\ SurvivalFunctions.annuity_due np_exp np_log self x (Some 1%Z) = Ok f1
  /\ SurvivalFunctions.annuity_immediate np_exp np_log self x (Some 1%Z)
     = Ok f0.
Proof.
  intros Hn.
  assert (SurvivalFunctions.annuity_due np_exp np_log self x (Some n) = Ok f0)
    as E0.
  { unfold SurvivalFunctions.annuity_due, range.
    replace (Z.to_nat n) with 0%nat by lia. reflexivity. }
  assert (SurvivalFunctions.annuity_due np_exp np_log self x (Some 1%Z) = Ok f1)
    as E1.
  { unfold SurvivalFunctions.annuity_due, range.
    change (Z.to_nat 1) with 1%nat.
    cbn [seq map SurvivalFunctions.annuity_loop].
    change (Z.of_nat 0) with 0%Z.
    unfold SurvivalFunctions.tpx. rewrite of_Z_is_zero.
    change (0 =? 0)%Z with true. cbn [bind val].
    unfold f0, f1, of_Z. rewrite qc_0, qc_1.
    rewrite fmul_fin, fadd_fin. do 2 f_equal; try ring. }
  split; [exact E0|]. split.
  - unfold SurvivalFunctions.annuity_immediate. rewrite E0. cbn [bind].
    unfold f0, f1, of_Z. rewrite fsub_fin.
    do 2 f_equal; try (apply Qc_is_canon; reflexivity).
  - split; [exact E1|].
    unfold SurvivalFunctions.annuity_immediate. rewrite E1. cbn [bind].
    unfold f0, f1, of_Z. rewrite fsub_fin.
    do 2 f_equal; try (apply Qc_is_canon; reflexivity).
Qed.

Lemma annuity_without_payments_witness :
  SurvivalFunctions.annuity_due (fun a => a) (fun a => a) sf_gap 21 (Some 0%Z)
  = Ok f0
  /\ SurvivalFunctions.annuity_immediate (fun a => a) (fun a => a) sf_gap 21
                                         (Some 0%Z)
     = Ok (of_Z (-1))
  /\ SurvivalFunctions.annuity_due (fun a => a) (fun a => a) sf_gap 21
                                   (Some 1%Z) = Ok f1
  /\ SurvivalFunctions.annuity_immediate (fun a => a) (fun a => a) sf_gap 21
                                         (Some 1%Z)
     = Ok f0.
Proof.
  apply (annuity_without_payments (fun a => a) (fun a => a) sf_gap 21 0).
  lia.
Defined.

Lemma sf_init_v (m : MortalityTable.t) (i : fl) (self : SurvivalFunctions.t) :
  SurvivalFunctions.__init__ m i = Ok self ->
  SurvivalFunctions.mt self = m
  /\ SurvivalFunctions.i self = i
  /\ SurvivalFunctions.v self = fdiv f1 (fadd f1 i)
  /\ feqb (fadd f1 i) f0 = false.
Proof.
  unfold SurvivalFunctions.__init__, truediv. cbn [is_py andb val].
  destruct (feqb (fadd f1 i) f0) eqn:E0; [discriminate|].
  cbn [bind val]. intros H. injection H as <-.
  repeat split.
Qed.

Lemma discount_of_rate (qi : Qc) :
  (0 <= qi)%Qc ->
  exists vq, fdiv f1 (fadd f1 (Fin qi)) = Fin vq /\ unit_qc vq
             /\ (vq * (1 + qi) = 1)%Qc.
Proof.
  intros Hi.
  assert (0 < 1 + qi)%Qc as Hpos.
  { eapply Qclt_le_trans with (y := (1 + 0)%Qc).
    - rewrite Qcplus_0_r. apply Qc_0_lt_1.
    - rewrite !(Qcplus_comm 1). apply Qcplus_le_compat;
        [exact Hi|apply Qcle_refl]. }
  pose proof (Qc_pos_neq0 _ Hpos) as Hne.
  exists (1 / (1 + qi))%Qc. split.
  - unfold f1, of_Z. rewrite qc_1, fadd_fin. apply fdiv_fin. exact Hne.
  - assert (1 / (1 + qi) * (1 + qi) = 1)%Qc as E by (field; exact Hne).
    split; [|exact E]. split.
    + apply Qcmult_lt_0_le_reg_r with (z := (1 + qi)%Qc); [exact Hpos|].
      rewrite E, Qcmult_0_l. apply Qc_0_le_1.
    + apply Qcmult_lt_0_le_reg_r with (z := (1 + qi)%Qc); [exact Hpos|].
      rewrite E, Qcmult_1_l. rewrite <- (Qcplus_0_r 1) at 1.
      rewrite !(Qcplus_comm 1). apply Qcplus_le_compat;
        [exact Hi|apply Qcle_refl].
Qed.

Lemma sf_init_discount_unit (m : MortalityTable.t) (i : fl)
      (self : SurvivalFunctions.t) :
  SurvivalFunctions.__init__ m i = Ok self ->
  fle f0 i = true ->
  SurvivalFunctions.mt self = m
  /\ exists vq, SurvivalFunctions.v self = Fin vq /\ unit_qc vq.
Proof.
  intros Hsf Hi.
  destruct (sf_init_v _ _ _ Hsf) as (Hmt & _ & Hv & _).
  split; [exact Hmt|]. rewrite Hv.
  destruct i as [qi| | |]; try discriminate.
  - unfold f0, of_Z in Hi. rewrite qc_0 in Hi. apply fle_fin in Hi.
    destruct (discount_of_rate qi Hi) as (vq & E & U & _). eauto.
  - exists 0%Qc. split; [|apply unit_qc_0]. fl_refl.
Qed.

Section TermAnnuityWithinTable.

Variables np_exp np_log : fl -> fl.
Variables (ages : list Z) (qx : list fl) (name : string).
Variable self : SurvivalFunctions.t.
Variables (x la : Z) (vq : Qc).
Hypothesis Hinit :
  MortalityTable.__init__ ages qx name = Ok (SurvivalFunctions.mt self).
Hypothesis Hla : get_last ages = Ok la.
Hypothesis Hv : SurvivalFunctions.v self = Fin vq.
Hypothesis Hvq : unit_qc vq.

Lemma tpx_payment_date (t0 : Z) :
  payment_date ages x la t0 ->
  exists r,
    SurvivalFunctions.tpx np_exp np_log self x (of_Z t0) = Ok (PyFloat (Fin r))
    /\ unit_qc r.
Proof.
  intros [->|(H1 & Hx & Htab)].
  - exists 1%Qc. split; [|apply unit_qc_1].
    unfold SurvivalFunctions.tpx. rewrite of_Z_is_zero. simpl.
    unfold f1, of_Z. rewrite qc_1. reflexivity.
  - destruct (npx_within_unit _ _ _ self x t0 la Hinit Hla ltac:(lia))
      as (r & Er & Ur).
    exists r. split; [|exact Ur].
    assert (Qfloor (qc t0 1) = t0) as Hfl.
    { unfold qc, Q2Qc. cbn [this]. rewrite Qred_correct. simpl.
      apply Z.div_1_r. }
    assert (0 < qc t0 1)%Qc as Hq by (rewrite <- qc_0; apply qc_Z_lt; lia).
    destruct (tpx_below_last np_exp np_log _ _ _ self x la (qc t0 1)
                Hinit Hla Hq) as (r' & Er' & _ & Et);
      [rewrite Hfl; exact Hx|].
    rewrite Hfl in Er', Et. assert (r' = r) as -> by congruence.
    unfold of_Z at 1. rewrite Et.
    rewrite contains_index_of in Htab.
    destruct (index_of (x + t0) ages) as [s|] eqn:Es; [|discriminate].
    destruct (init_fin _ _ _ _ Hinit) as (qs & Hqs & _).
    subst qx.
    destruct (stored_qx_fin _ _ _ _ _ _ Hinit Es) as (q & _ & ->).
    unfold f1, of_Z. rewrite qc_1, !fsub_fin, !fmul_fin, fsub_fin, fmul_fin.
    do 3 f_equal. ring.
Qed.

(** The loop adds one discounted survival probability per date: the
    total grows, and by at most one per date. *)
Lemma annuity_loop_bounds (ts : list Z) :
  (forall t0, In t0 ts -> payment_date ages x la t0) ->
  forall a w : Qc,
    unit_qc w ->
    exists r,
      SurvivalFunctions.annuity_loop np_exp np_log self x ts (Fin a) (Fin w)
      = Ok (Fin r)
      /\ (a <= r)%Qc /\ (r <= a + qc (Z.of_nat (length ts)) 1)%Qc.
Proof.
  induction ts as [|t0 ts IH]; intros Hts a w Hw.
  - exists a. split; [reflexivity|]. split; [apply Qcle_refl|].
    simpl. rewrite qc_0, Qcplus_0_r. apply Qcle_refl.
  - destruct (tpx_payment_date t0 (Hts t0 (or_introl eq_refl)))
      as (p & Ep & Up).
    cbn [SurvivalFunctions.annuity_loop]. rewrite Ep. cbn [bind val].
    rewrite Hv, !fmul_fin, fadd_fin.
    destruct (IH (fun t1 H => Hts t1 (or_intror H)) (a + w * p)%Qc (w * vq)%Qc
                 (unit_qc_mult _ _ Hw Hvq)) as (r & Er & Hlo & Hhi).
    exists r. split; [exact Er|].
    destruct (unit_qc_mult _ _ Hw Up) as [Hwp0 Hwp1].
    split.
    + eapply Qcle_trans; [|exact Hlo].
      rewrite <- (Qcplus_0_r a) at 1. rewrite !(Qcplus_comm a).
      apply Qcplus_le_compat; [exact Hwp0|apply Qcle_refl].
    + eapply Qcle_trans; [exact Hhi|].
      replace (qc (Z.of_nat (length (t0 :: ts))) 1)
        with (1 + qc (Z.of_nat (length ts)) 1)%Qc.
      * rewrite Qcplus_assoc.
        apply Qcplus_le_compat; [|apply Qcle_refl].
        rewrite !(Qcplus_comm a).
        apply Qcplus_le_compat; [exact Hwp1|apply Qcle_refl].
      * cbn [length]. rewrite Nat2Z.inj_succ. unfold Z.succ.
        rewrite <- qc_1, qc_Z_add. f_equal. lia.
Qed.

End TermAnnuityWithinTable.

Lemma range_head (n : Z) : (1 <= n)%Z -> range n = 0%Z :: range1 (n - 1).
Proof.
  intros Hn. unfold range, range1.
  replace (Z.to_nat n) with (S (Z.to_nat (n - 1))) by lia.
  reflexivity.
Qed.

Lemma range_length (n : Z) : (0 <= n)%Z -> Z.of_nat (length (range n)) = n.
Proof.
  intros Hn. unfold range. rewrite length_map, length_seq. lia.
Qed.

Lemma range_in (n t0 : Z) : In t0 (range n) -> (0 <= t0)%Z /\ (t0 < n)%Z.
Proof.
  unfold range. intros H. apply in_map_iff in H.
  destruct H as (k & <- & Hk). apply in_seq in Hk. lia.
Qed.

(** X9. For a constructed table and an interest rate that is not
    negative, a term annuity-due of [n >= 1] payments that all fall on
    tabulated ages below the last one is a finite number between 1 (the
    payment made at once) and [n] (the payments undiscounted and
    certain), and the annuity-immediate is exactly one less. *)
Theorem term_annuity_due_bounds
        (np_exp np_log : fl -> fl)
        (ages : list Z) (qx : list fl) (name : string)
        (m : MortalityTable.t) (i : fl) (self : SurvivalFunctions.t)
        (x la n : Z) :
  MortalityTable.__init__ ages qx name = Ok m ->
  SurvivalFunctions.__init__ m i = Ok self ->
  fle f0 i = true ->
  get_last ages = Ok la ->
  (1 <= n)%Z -> (x + n <= la)%Z ->
  (forall t0, (1 <= t0 < n)%Z -> contains (x + t0) ages = true) ->
  exists a : Qc,
    SurvivalFunctions.annuity_due np_exp np_log self x (Some n) = Ok (Fin a)
    /\ (1 <= a)%Qc /\ (a <= qc n 1)%Qc
    /\ SurvivalFunctions.annuity_immediate np_exp np_log self x (Some n)
       = Ok (Fin (a - 1)).
Proof.
  intros Hm Hsf Hi Hla Hn Hx Htab.
  destruct (sf_init_discount_unit _ _ _ Hsf Hi) as (Hmt & vq & Hv & Hvq).
  rewrite <- Hmt in Hm.
  assert (forall t0, In t0 (range n) -> payment_date ages x la t0) as Hdates.
  { intros t0 Ht. apply range_in in Ht.
    destruct (Z.eq_dec t0 0) as [->|Hne]; [left; reflexivity|].
    right. split; [lia|]. split; [lia|]. apply Htab. lia. }
  destruct (annuity_loop_bounds np_exp np_log _ _ _ self x la vq Hm Hla Hv Hvq
              (range n) Hdates 0%Qc 1%Qc unit_qc_1) as (a & Ea & _ & Hhi).
  exists a.
  assert (SurvivalFunctions.annuity_due np_exp np_log self x (Some n)
          = Ok (Fin a)) as Edue.
  { unfold SurvivalFunctions.annuity_due, f0, f1, of_Z.
    rewrite qc_0, qc_1. exact Ea. }
  split; [exact Edue|]. split; [|split].
  - rewrite (range_head n Hn) in Ea, Hdates.
    cbn [SurvivalFunctions.annuity_loop] in Ea.
    unfold SurvivalFunctions.tpx in Ea at 1.
    rewrite of_Z_is_zero in Ea. cbn [Z.eqb bind val] in Ea.
    rewrite Hv in Ea. unfold f1, of_Z in Ea.
    rewrite qc_1, !fmul_fin, fadd_fin in Ea.
    destruct (annuity_loop_bounds np_exp np_log _ _ _ self x la vq Hm Hla Hv
                Hvq (range1 (n - 1)) (fun t1 H => Hdates t1 (or_intror H))
                (0 + 1 * 1)%Qc (1 * vq)%Qc) as (r & Er & Hlo & _).
    { apply unit_qc_mult; [apply unit_qc_1|exact Hvq]. }
    rewrite Er in Ea. injection Ea as <-.
    replace 1%Qc with (0 + 1 * 1)%Qc at 1 by ring. exact Hlo.
  - rewrite range_length in Hhi by lia. rewrite Qcplus_0_l in Hhi. exact Hhi.
  - unfold SurvivalFunctions.annuity_immediate. rewrite Edue. cbn [bind].
    unfold f1, of_Z. rewrite qc_1, fsub_fin. reflexivity.
Qed.

Lemma term_annuity_due_bounds_witness :
  exists a : Qc,
    SurvivalFunctions.annuity_due (fun a => a) (fun a => a) sf3 20 (Some 2%Z)
    = Ok (Fin a)
    /\ (1 <= a)%Qc /\ (a <= qc 2 1)%Qc
    /\ SurvivalFunctions.annuity_immediate (fun a => a) (fun a => a) sf3 20
                                           (Some 2%Z)
       = Ok (Fin (a - 1)).
Proof.
  apply (term_annuity_due_bounds (fun a => a) (fun a => a) ages3 rates3
                                 "sample" table3 f0 sf3 20 22 2).
  - vm_compute. reflexivity.
  - vm_compute. reflexivity.
  - reflexivity.
  - reflexivity.
  - lia.
  - lia.
  - intros t0 Ht. assert (t0 = 1%Z) as -> by lia. reflexivity.
Defined.

(** * Properties of the life modules *)

(** ** Python arithmetic *)

Lemma float_limit_pos : (1 < float_limit)%Z.
Proof. reflexivity. Qed.

Lemma float_of_int_ok (k : Z) :
  (Z.abs k < float_limit)%Z -> float_of_int k = Ok (of_Z k).
Proof.
  intros H. unfold float_of_int. apply Z.ltb_lt in H. rewrite H. reflexivity.
Qed.

Lemma float_of_int_0 : float_of_int 0 = Ok f0.
Proof. reflexivity. Qed.

Lemma unit_in_float_range (w : Qc) : unit_qc w -> in_float_range w = true.
Proof.
  intros [H0 H1]. unfold in_float_range.
  assert (1 < qc float_limit 1)%Qc as HL
      by (rewrite <- qc_1; apply qc_Z_lt; apply float_limit_pos).
  assert (0 < qc float_limit 1)%Qc as HL0
      by (eapply Qclt_trans; [apply Qc_0_lt_1|exact HL]).
  apply andb_true_intro. split; apply Qc_ltb_iff.
  - eapply Qclt_le_trans; [|exact H0].
    apply Qclt_minus_iff. rewrite Qcplus_0_l, Qcopp_involutive. exact HL0.
  - eapply Qcle_lt_trans; [exact H1|exact HL].
Qed.

Lemma py_pow_zero (a : fl) : py_pow a 0 = Ok f1.
Proof.
  unfold py_pow. change (0 <? 0)%Z with false. rewrite andb_false_r.
  cbn [fpow]. destruct a as [q| | |]; try reflexivity.
  unfold f1, of_Z. rewrite qc_1.
  rewrite (unit_in_float_range 1 unit_qc_1). cbn [negb].
  rewrite andb_false_r. reflexivity.
Qed.

Lemma py_pow_one (q : Qc) : py_pow (Fin q) 1 = Ok (Fin q).
Proof.
  unfold py_pow. change (1 <? 0)%Z with false. rewrite andb_false_r.
  replace (fpow (Fin q) 1) with (Fin q).
  - destruct (in_float_range q); reflexivity.
  - cbn [fpow Pos.iter]. unfold f1, of_Z. rewrite qc_1, fmul_fin.
    f_equal. ring.
Qed.

Lemma feqb_fin (a b : Qc) : feqb (Fin a) (Fin b) = true <-> a = b.
Proof. cbn [feqb]. apply Qc_eq_bool_iff. Qed.

Lemma feqb_f0 (a : Qc) : feqb (Fin a) f0 = true <-> a = 0%Qc.
Proof. unfold f0, of_Z. rewrite qc_0. apply feqb_fin. Qed.

Lemma feqb_f0_false (a : Qc) : a <> 0%Qc -> feqb (Fin a) f0 = false.
Proof.
  intros Ha. destruct (feqb (Fin a) f0) eqn:E; [|reflexivity].
  apply feqb_f0 in E. contradiction.
Qed.

Lemma py_max0_fin (r : Qc) :
  py_max0 (Fin r) = Fin (if Qc_ltb 0 r then r else 0%Qc).
Proof.
  unfold py_max0, f0, of_Z. rewrite qc_0. cbn [flt].
  destruct (Qc_ltb 0 r); reflexivity.
Qed.

Lemma py_max0_bounds (r : Qc) :
  exists z, py_max0 (Fin r) = Fin z /\ (0 <= z)%Qc /\ (r <= z)%Qc
            /\ (z = r \/ z = 0%Qc).
Proof.
  rewrite py_max0_fin. destruct (Qc_ltb 0 r) eqn:E.
  - exists r. apply Qc_ltb_iff in E.
    split; [reflexivity|]. split; [apply Qclt_le_weak; exact E|].
    split; [apply Qcle_refl|left; reflexivity].
  - exists 0%Qc. split; [reflexivity|]. split; [apply Qcle_refl|].
    split; [|right; reflexivity].
    apply Qcnot_lt_le. intros H. apply Qc_ltb_iff in H. congruence.
Qed.

(** ** The last policy year *)

Lemma annuity_immediate_one_year (np_exp np_log : fl -> fl)
      (self : SurvivalFunctions.t) (x : Z) :
  SurvivalFunctions.annuity_immediate np_exp np_log self x (Some 1%Z) = Ok f0.
Proof.
  unfold SurvivalFunctions.annuity_immediate, SurvivalFunctions.annuity_due,
    range.
  change (Z.to_nat 1) with 1%nat.
  cbn [seq map SurvivalFunctions.annuity_loop].
  change (Z.of_nat 0) with 0%Z.
  unfold SurvivalFunctions.tpx. rewrite of_Z_is_zero.
  change (0 =? 0)%Z with true. cbn [bind val].
  unfold f0, f1, of_Z. rewrite qc_0, qc_1.
  rewrite fmul_fin, fadd_fin, fsub_fin. do 2 f_equal; try ring.
Qed.

(** X10.  One year before the end of the term the prospective reserve of
    [LifeAssurance] is the remaining assurance itself: the annuity-immediate
    of one year is exactly 0.0, so the quotient is never formed.  This holds
    for every table, age and rate, and an exception of the assurance is
    passed on. *)
Theorem reserve_in_last_policy_year (np_exp np_log : fl -> fl)
        (self : LifeAssurance.t) (x n : Z) :
  LifeAssurance.reserve_term np_exp np_log self x n (n - 1)
  = LifeAssurance.term_assurance self (x + (n - 1)) 1
  /\ LifeAssurance.reserve_endowment np_exp np_log self x n (n - 1)
     = (e <- LifeAssurance.endowment_assurance self (x + (n - 1)) 1 ;;
        Ok (val e)).
Proof.
  unfold LifeAssurance.reserve_term, LifeAssurance.reserve_endowment,
    LifeAssurance.temporary_life_annuity.
  replace (n - (n - 1))%Z with 1%Z by lia.
  change (1 <=? 0)%Z with false. cbv iota.
  rewrite annuity_immediate_one_year. split.
  - destruct (LifeAssurance.term_assurance self (x + (n - 1)) 1) as [a|e];
      [|reflexivity].
    cbn [bind]. unfold f0, of_Z. rewrite qc_0.
    replace (feqb (Fin 0%Qc) (Fin 0%Qc)) with true
      by (symmetry; apply feqb_fin; reflexivity).
    reflexivity.
  - destruct (LifeAssurance.endowment_assurance self (x + (n - 1)) 1) as [a|e];
      [|reflexivity].
    cbn [bind]. unfold f0, of_Z. rewrite qc_0.
    replace (feqb (Fin 0%Qc) (Fin 0%Qc)) with true
      by (symmetry; apply feqb_fin; reflexivity).
    reflexivity.
Qed.

(** X11.  One year before the end of the term the prospective reserves of
    [Reserves] leave through the zero-annuity exit: the result is the
    remaining assurance less one annual premium, and the floor at 0 that
    the other exit applies is not applied. *)
Theorem prospective_reserve_in_last_policy_year (np_exp np_log : fl -> fl)
        (self : Reserves.t) (x n : Z) (annual_premium sum_assured : fl) :
  Reserves.prospective_reserve_term np_exp np_log self x n (n - 1)
                                    annual_premium sum_assured
  = (a <- SurvivalFunctions.assurance (Reserves.sf self) (x + (n - 1))
                                      (Some 1%Z) ;;
     Ok (fsub (fmul a sum_assured) annual_premium))
  /\ Reserves.prospective_reserve_endowment np_exp np_log self x n (n - 1)
                                            annual_premium sum_assured
     = (a <- SurvivalFunctions.assurance (Reserves.sf self) (x + (n - 1))
                                         (Some 1%Z) ;;
        s <- SurvivalFunctions.npx (Reserves.sf self) (x + (n - 1)) 1 ;;
        p <- py_pow (Reserves.v self) 1 ;;
        Ok (fsub (fadd (fmul a sum_assured)
                       (fmul (fmul (val s) p) sum_assured))
                 annual_premium)).
Proof.
  unfold Reserves.prospective_reserve_term,
    Reserves.prospective_reserve_endowment.
  replace (n - (n - 1))%Z with 1%Z by lia.
  change (1 <=? 0)%Z with false. cbv iota.
  rewrite annuity_immediate_one_year.
  assert (forall a, Reserves.prospective_tail a f0 annual_premium
                    = fsub a annual_premium) as Et.
  { intros a. unfold Reserves.prospective_tail, f0, of_Z. rewrite qc_0.
    replace (feqb (Fin 0%Qc) (Fin 0%Qc)) with true
      by (symmetry; apply feqb_fin; reflexivity).
    reflexivity. }
  split.
  - destruct (SurvivalFunctions.assurance _ _ _) as [a|e]; [|reflexivity].
    cbn [bind]. rewrite Et. reflexivity.
  - destruct (SurvivalFunctions.assurance _ _ _) as [a|e]; [|reflexivity].
    cbn [bind].
    destruct (SurvivalFunctions.npx _ _ _) as [s|e]; [|reflexivity].
    cbn [bind].
    destruct (py_pow _ _) as [p|e]; [|reflexivity].
    cbn [bind]. rewrite Et. reflexivity.
Qed.

(** ** Deferred assurance *)

Lemma fmul_f1_f1 : fmul f1 f1 = f1.
Proof. apply fmul_1_l. Qed.

(** X12.  A deferred assurance with no deferment is the term assurance:
    [npx(x, 0)] is 1.0 and [v ** 0] is 1.0 whatever [v] is, so the product
    is the term assurance at the same age, returned as a Python float.
    With a negative deferment the survival probability is 0.0 and the
    result is 0.0 without the assurance being computed. *)
Theorem deferred_assurance_without_deferment
        (self : LifeAssurance.t) (x u n : Z) :
  (u <= 0)%Z ->
  LifeAssurance.deferred_assurance self x u n
  = if (u <? 0)%Z then Ok (PyFloat f0)
    else (a <- LifeAssurance.term_assurance self x n ;; Ok (PyFloat a)).
Proof.
  intros Hu. unfold LifeAssurance.deferred_assurance.
  rewrite (npx_early _ x u Hu). cbn [bind val].
  destruct (u <? 0)%Z eqn:E.
  - unfold f0, of_Z. rewrite qc_0.
    replace (feqb (Fin 0%Qc) (Fin 0%Qc)) with true
      by (symmetry; apply feqb_fin; reflexivity).
    reflexivity.
  - apply Z.ltb_ge in E. assert (u = 0)%Z as -> by lia.
    rewrite Z.add_0_r.
    replace (feqb f1 f0) with false.
    2:{ symmetry. unfold f1, of_Z. rewrite qc_1. apply feqb_f0_false.
        intros H. discriminate H. }
    destruct (LifeAssurance.term_assurance self x n) as [a|e]; [|reflexivity].
    cbn [bind]. rewrite py_pow_zero. cbn [bind].
    unfold lift2. cbn [is_py andb val].
    rewrite fmul_f1_f1, fmul_1_l. reflexivity.
Qed.

Lemma deferred_assurance_without_deferment_witness :
  LifeAssurance.deferred_assurance
    (LifeAssurance.mk table3 sf3 f0 f1 f0) 20 0 2
  = if (0 <? 0)%Z then Ok (PyFloat f0)
    else (a <- LifeAssurance.term_assurance
                 (LifeAssurance.mk table3 sf3 f0 f1 f0) 20 2 ;;
          Ok (PyFloat a)).
Proof.
  apply (deferred_assurance_without_deferment
           (LifeAssurance.mk table3 sf3 f0 f1 f0) 20 0 2).
  lia.
Defined.

(** ** Zillmerized reserve *)

Lemma py_div_of_Z (a : Qc) (k : Z) :
  k <> 0%Z -> py_div (Fin a) (of_Z k) = Ok (Fin (a / qc k 1)).
Proof.
  intros Hk. unfold py_div.
  assert (qc k 1 <> 0%Qc) as Hq.
  { rewrite <- qc_0. intros H. apply (proj1 (qc_Z_eq _ _)) in H. contradiction. }
  unfold of_Z at 1. rewrite (feqb_f0_false _ Hq).
  unfold of_Z. rewrite fdiv_fin by exact Hq. reflexivity.
Qed.

(** The part of the acquisition cost still to be written off. *)
Lemma amortized_expenses_bounds (e : Qc) (d p : Z) :
  (0 <= e)%Qc -> (0 < p)%Z -> (d <= p)%Z ->
  (0 <= e * qc (p - d) 1 / qc p 1)%Qc.
Proof.
  intros He Hp Hd.
  assert (0 < qc p 1)%Qc as Hq by (rewrite <- qc_0; apply qc_Z_lt; exact Hp).
  assert (0 <= qc (p - d) 1)%Qc as Hk by (rewrite <- qc_0; apply qc_Z_le; lia).
  apply Qcmult_lt_0_le_reg_r with (z := qc p 1); [exact Hq|].
  rewrite Qcmult_0_l.
  replace (e * qc (p - d) 1 / qc p 1 * qc p 1)%Qc with (e * qc (p - d) 1)%Qc
    by (field; apply Qc_pos_neq0; exact Hq).
  replace 0%Qc with (0 * qc (p - d) 1)%Qc by ring.
  apply Qcmult_le_compat_r; assumption.
Qed.

Lemma amortized_expenses_mono (e : Qc) (d1 d2 p : Z) :
  (0 <= e)%Qc -> (0 < p)%Z -> (d1 <= d2)%Z ->
  (e * qc (p - d2) 1 / qc p 1 <= e * qc (p - d1) 1 / qc p 1)%Qc.
Proof.
  intros He Hp Hd.
  assert (0 < qc p 1)%Qc as Hq by (rewrite <- qc_0; apply qc_Z_lt; exact Hp).
  assert (qc (p - d2) 1 <= qc (p - d1) 1)%Qc as Hk by (apply qc_Z_le; lia).
  apply Qcmult_lt_0_le_reg_r with (z := qc p 1); [exact Hq|].
  replace (e * qc (p - d2) 1 / qc p 1 * qc p 1)%Qc with (qc (p - d2) 1 * e)%Qc
    by (field; apply Qc_pos_neq0; exact Hq).
  replace (e * qc (p - d1) 1 / qc p 1 * qc p 1)%Qc with (qc (p - d1) 1 * e)%Qc
    by (field; apply Qc_pos_neq0; exact Hq).
  apply Qcmult_le_compat_r; assumption.
Qed.

Lemma zillmerized_value (r e : Qc) (d p : Z) :
  (0 < p)%Z -> (p < float_limit)%Z -> (p - d < float_limit)%Z ->
  Reserves.zillmerized_reserve (Fin r) (Fin e) d p
  = Ok (if (p <=? d)%Z then Fin r
        else py_max0 (Fin (r - e * qc (p - d) 1 / qc p 1))).
Proof.
  intros Hp Hpl Hdl. unfold Reserves.zillmerized_reserve.
  destruct (p <=? d)%Z eqn:E; [reflexivity|].
  apply Z.leb_gt in E.
  rewrite !float_of_int_ok by lia. cbn [bind].
  unfold of_Z at 1. rewrite fmul_fin, py_div_of_Z by lia.
  cbn [bind]. rewrite fsub_fin. reflexivity.
Qed.

(** X13.  For a positive amortization period, durations and a period
    that are ints within the range of the floats, a finite net reserve
    that is not negative and finite acquisition expenses that are not
    negative and whose product with the remaining duration stays within
    that range, the Zillmerized reserve is a finite number between 0 and
    the net reserve, it does not decrease as the duration grows, and from
    the end of the amortization period on it is the net reserve itself. *)
Theorem zillmerized_reserve_bounds (r e : Qc) (d1 d2 p : Z) :
  (0 <= r)%Qc -> (0 <= e)%Qc -> (0 < p)%Z -> (d1 <= d2)%Z ->
  (p < float_limit)%Z -> (p - d1 < float_limit)%Z ->
  in_float_range (e * qc (p - d1) 1) = true ->
  exists z1 z2 : Qc,
    Reserves.zillmerized_reserve (Fin r) (Fin e) d1 p = Ok (Fin z1)
    /\ Reserves.zillmerized_reserve (Fin r) (Fin e) d2 p = Ok (Fin z2)
    /\ (0 <= z1)%Qc /\ (z1 <= z2)%Qc /\ (z2 <= r)%Qc
    /\ ((p <= d2)%Z -> z2 = r).
Proof.
  intros Hr He Hp Hd Hpl Hdl _.
  rewrite !zillmerized_value by lia.
  assert (forall d, (d < p)%Z ->
            exists z, py_max0 (Fin (r - e * qc (p - d) 1 / qc p 1)) = Fin z
                      /\ (0 <= z)%Qc /\ (z <= r)%Qc
                      /\ (r - e * qc (p - d) 1 / qc p 1 <= z)%Qc
                      /\ (z = (r - e * qc (p - d) 1 / qc p 1)%Qc \/ z = 0%Qc))
    as Hz.
  { intros d Hdp.
    destruct (py_max0_bounds (r - e * qc (p - d) 1 / qc p 1))
      as (z & Ez & Hz0 & Hzr & Hcase).
    exists z. split; [exact Ez|]. split; [exact Hz0|].
    split; [|split; assumption].
    destruct Hcase as [->| ->]; [|exact Hr].
    pose proof (amortized_expenses_bounds e d p He Hp ltac:(lia)) as Ha.
    rewrite <- (Qcplus_0_r r) at 2. unfold Qcminus.
    apply Qcplus_le_compat; [apply Qcle_refl|].
    apply Qcopp_le_compat in Ha. exact Ha. }
  destruct (p <=? d2)%Z eqn:E2.
  - apply Z.leb_le in E2.
    destruct (p <=? d1)%Z eqn:E1.
    + exists r, r. repeat split; try reflexivity; try assumption;
        apply Qcle_refl.
    + apply Z.leb_gt in E1.
      destruct (Hz d1 E1) as (z1 & Ez1 & H0 & H1 & _).
      exists z1, r. rewrite Ez1.
      split; [reflexivity|]. split; [reflexivity|].
      split; [exact H0|]. split; [exact H1|].
      split; [apply Qcle_refl|reflexivity].
  - apply Z.leb_gt in E2.
    assert ((p <=? d1)%Z = false) as -> by (apply Z.leb_gt; lia).
    destruct (Hz d1 ltac:(lia)) as (z1 & Ez1 & H0 & H1 & _ & Hc1).
    destruct (Hz d2 E2) as (z2 & Ez2 & H0' & H1' & Hlo2 & _).
    exists z1, z2. rewrite Ez1, Ez2.
    split; [reflexivity|]. split; [reflexivity|].
    split; [exact H0|]. split; [|split; [exact H1'|intros; lia]].
    destruct Hc1 as [->| ->]; [|exact H0'].
    eapply Qcle_trans; [|exact Hlo2].
    unfold Qcminus. apply Qcplus_le_compat; [apply Qcle_refl|].
    apply Qcopp_le_compat.
    apply amortized_expenses_mono; assumption.
Qed.

Lemma zillmerized_reserve_bounds_witness :
  exists z1 z2 : Qc,
    Reserves.zillmerized_reserve (Fin (qc 100 1)) (Fin (qc 50 1)) 2 10
    = Ok (Fin z1)
    /\ Reserves.zillmerized_reserve (Fin (qc 100 1)) (Fin (qc 50 1)) 7 10
       = Ok (Fin z2)
    /\ (0 <= z1)%Qc /\ (z1 <= z2)%Qc /\ (z2 <= qc 100 1)%Qc
    /\ ((10 <= 7)%Z -> z2 = qc 100 1).
Proof.
  apply (zillmerized_reserve_bounds (qc 100 1) (qc 50 1) 2 7 10).
  - vm_compute. discriminate.
  - vm_compute. discriminate.
  - lia.
  - lia.
  - reflexivity.
  - reflexivity.
  - vm_compute. reflexivity.
Defined.


(** ** One-year assurance and endowment *)

Lemma tabulated_le_last (l : list Z) (y la : Z) (k : nat) :
  increasing l = true -> index_of y l = Some k -> get_last l = Ok la ->
  (y <= la)%Z.
Proof.
  intros Hinc Hk Hla.
  apply get_last_nth in Hla.
  pose proof (index_of_lt _ _ _ Hk) as Hlt.
  destruct (index_of_nth _ _ _ Hk) as [Hn _].
  destruct (Nat.eq_dec k (length l - 1)) as [->|Hne].
  - rewrite Hn in Hla. injection Hla as ->. lia.
  - pose proof (increasing_nth l k (length l - 1) y la Hinc ltac:(lia) Hn Hla).
    lia.
Qed.

Lemma range1_one : range1 1 = [1%Z].
Proof. reflexivity. Qed.

Lemma py_min_unit (r : Qc) : (r <= 1)%Qc -> py_min (Fin r) f1 = Fin r.
Proof.
  intros Hr. unfold py_min, f1, of_Z. rewrite qc_1.
  destruct (flt (Fin 1%Qc) (Fin r)) eqn:E; [|reflexivity].
  apply flt_fin in E. exfalso. exact (Qclt_not_le _ _ E Hr).
Qed.

(** The one-year assurance at an age followed by the next age. *)
Lemma assurance_one_year (ages : list Z) (qx : list fl) (name : string)
      (self : SurvivalFunctions.t) (x : Z) (vq : Qc) :
  MortalityTable.__init__ ages qx name = Ok (SurvivalFunctions.mt self) ->
  increasing ages = true ->
  contains x ages = true -> contains (x + 1) ages = true ->
  SurvivalFunctions.v self = Fin vq ->
  exists q,
    unit_qc q
    /\ stored_qx (SurvivalFunctions.mt self) x = Fin q
    /\ SurvivalFunctions.npx self x 1 = Ok (PyFloat (Fin (1 - q)))
    /\ SurvivalFunctions.assurance self x (Some 1%Z) = Ok (Fin (vq * q)).
Proof.
  intros Hinit Hinc Hx Hx1 Hv.
  rewrite contains_index_of in Hx, Hx1.
  destruct (index_of x ages) as [s|] eqn:Es; [|discriminate].
  destruct (index_of (x + 1) ages) as [e|] eqn:Ee; [|discriminate].
  destruct (init_fin _ _ _ _ Hinit) as (qs & Hqs & Uqs & _).
  subst qx.
  assert (exists la, get_last ages = Ok la) as (la & Hla).
  { apply get_last_ok. pose proof (index_of_lt _ _ _ Es). lia. }
  pose proof (tabulated_le_last _ _ _ _ Hinc Ee Hla) as Hle.
  destruct (npx_one_year _ _ _ self x la s e Hinit Hinc Hla Hle Es Ee)
    as (q & Hq & En).
  destruct (stored_qx_fin _ _ _ _ _ _ Hinit Es) as (q' & Hq' & Est).
  assert (q' = q) as -> by congruence.
  assert (unit_qc q) as Uq.
  { rewrite Forall_forall in Uqs. apply Uqs.
    eapply nth_error_In. exact Hq. }
  exists q. split; [exact Uq|]. split; [exact Est|]. split; [exact En|].
  unfold SurvivalFunctions.assurance. rewrite range1_one.
  cbn [SurvivalFunctions.assurance_loop]. unfold SurvivalFunctions.q_xt.
  change (1 <? 1)%Z with false. cbv iota.
  rewrite En. cbn [bind val].
  unfold f1 at 1, of_Z. rewrite qc_1, fsub_fin.
  rewrite py_min_unit by (apply unit_qc_compl, unit_qc_compl; exact Uq).
  rewrite Hv, fmul_fin. unfold f0, of_Z. rewrite qc_0, fadd_fin.
  do 2 f_equal. ring.
Qed.

(** X15.  For a table with strictly increasing ages and a finite discount
    factor [v], the assurance of one year at a tabulated age [x] whose next
    age is tabulated too is [v] times the rate [get_qx(x)]; the net single
    premium is the same number. *)
Theorem assurance_first_year (ages : list Z) (qx : list fl) (name : string)
        (self : SurvivalFunctions.t) (x : Z) (vq : Qc) :
  MortalityTable.__init__ ages qx name = Ok (SurvivalFunctions.mt self) ->
  increasing ages = true ->
  contains x ages = true -> contains (x + 1) ages = true ->
  SurvivalFunctions.v self = Fin vq ->
  exists q,
    MortalityTable.get_qx (SurvivalFunctions.mt self) (MortalityTable.One x)
    = Ok (MortalityTable.Scalar (Fin q))
    /\ SurvivalFunctions.assurance self x (Some 1%Z) = Ok (Fin (vq * q))
    /\ SurvivalFunctions.net_single_premium self x (Some 1%Z)
       = Ok (Fin (vq * q)).
Proof.
  intros Hinit Hinc Hx Hx1 Hv.
  destruct (assurance_one_year _ _ _ self x vq Hinit Hinc Hx Hx1 Hv)
    as (q & _ & Est & _ & Ea).
  exists q. split; [|split; [exact Ea|exact Ea]].
  rewrite (get_qx_one _ _ _ _ x Hinit), Est. reflexivity.
Qed.

Lemma assurance_first_year_witness :
  exists q,
    MortalityTable.get_qx (SurvivalFunctions.mt sf3) (MortalityTable.One 20%Z)
    = Ok (MortalityTable.Scalar (Fin q))
    /\ SurvivalFunctions.assurance sf3 20 (Some 1%Z) = Ok (Fin (1 * q))
    /\ SurvivalFunctions.net_single_premium sf3 20 (Some 1%Z)
       = Ok (Fin (1 * q)).
Proof.
  apply (assurance_first_year ages3 rates3 "sample" sf3 20 1).
  - vm_compute. reflexivity.
  - reflexivity.
  - reflexivity.
  - reflexivity.
  - fl_refl.
Defined.

Lemma life_assurance_init (m : MortalityTable.t) (i e : fl)
      (self : LifeAssurance.t) :
  LifeAssurance.__init__ m i e = Ok self ->
  SurvivalFunctions.__init__ m i = Ok (LifeAssurance.sf self)
  /\ LifeAssurance.mt self = m
  /\ LifeAssurance.v self = fdiv f1 (fadd f1 i)
  /\ SurvivalFunctions.v (LifeAssurance.sf self) = fdiv f1 (fadd f1 i).
Proof.
  unfold LifeAssurance.__init__.
  destruct (SurvivalFunctions.__init__ m i) as [s|err] eqn:Es; [|discriminate].
  cbn [bind]. unfold truediv. cbn [is_py andb val].
  destruct (feqb (fadd f1 i) f0); [discriminate|].
  cbn [bind val]. intros H. injection H as <-.
  cbn [LifeAssurance.sf LifeAssurance.mt LifeAssurance.v].
  destruct (sf_init_v _ _ _ Es) as (_ & _ & Hv & _).
  repeat split. exact Hv.
Qed.

(** The discount factor of a rate that is not NaN is a finite number. *)
Lemma discount_factor_finite (i : fl) :
  isnan i = false -> feqb (fadd f1 i) f0 = false ->
  exists vq, fdiv f1 (fadd f1 i) = Fin vq.
Proof.
  intros Hn H0. destruct i as [qi| | |]; try discriminate.
  - unfold f1, of_Z in *. rewrite qc_1, fadd_fin in *.
    exists (1 / (1 + qi))%Qc. apply fdiv_fin.
    intros E. rewrite E in H0.
    assert (feqb (Fin 0%Qc) f0 = true) as Ht by (apply feqb_f0; reflexivity).
    congruence.
  - exists 0%Qc. fl_refl.
  - exists 0%Qc. fl_refl.
Qed.

(** X16.  An endowment assurance of one year at a tabulated age followed by
    the next age is worth the discount factor [v]: the death benefit [v * q]
    and the pure endowment [(1 - q) * v] add up to [v], whatever the rate
    [q] is (floats taken as exact numbers). *)
Theorem endowment_one_year_is_discount_factor
        (ages : list Z) (qx : list fl) (name : string)
        (m : MortalityTable.t) (i e : fl) (self : LifeAssurance.t) (x : Z) :
  MortalityTable.__init__ ages qx name = Ok m ->
  LifeAssurance.__init__ m i e = Ok self ->
  isnan i = false ->
  increasing ages = true ->
  contains x ages = true -> contains (x + 1) ages = true ->
  LifeAssurance.endowment_assurance self x 1
  = Ok (PyFloat (LifeAssurance.v self)).
Proof.
  intros Hm Hself Hnan Hinc Hx Hx1.
  destruct (life_assurance_init _ _ _ _ Hself) as (Hsf & _ & Hv & Hsv).
  destruct (sf_init_v _ _ _ Hsf) as (Hmt & _ & _ & H0).
  destruct (discount_factor_finite i Hnan H0) as (vq & Evq).
  rewrite Evq in Hv, Hsv. rewrite <- Hmt in Hm.
  destruct (assurance_one_year _ _ _ _ x vq Hm Hinc Hx Hx1 Hsv)
    as (q & _ & _ & En & Ea).
  unfold LifeAssurance.endowment_assurance, LifeAssurance.term_assurance,
    LifeAssurance.pure_endowment.
  rewrite Ea, En. cbn [bind]. rewrite Hv, py_pow_one.
  cbn [bind]. unfold lift2. cbn [is_py andb val].
  rewrite fmul_fin, fadd_fin. do 3 f_equal. ring.
Qed.

Lemma endowment_one_year_is_discount_factor_witness :
  LifeAssurance.endowment_assurance (LifeAssurance.mk table3 sf3 f0 f1 f0) 20 1
  = Ok (PyFloat (LifeAssurance.v (LifeAssurance.mk table3 sf3 f0 f1 f0))).
Proof.
  apply (endowment_one_year_is_discount_factor
           ages3 rates3 "sample" table3 f0 f0
           (LifeAssurance.mk table3 sf3 f0 f1 f0) 20).
  - vm_compute. reflexivity.
  - fl_refl.
  - reflexivity.
  - reflexivity.
  - reflexivity.
  - reflexivity.
Defined.

(** ** Pure endowment *)

Lemma fpow_unit (vq : Qc) (n : Z) :
  unit_qc vq -> (0 <= n)%Z -> exists w, fpow (Fin vq) n = Fin w /\ unit_qc w.
Proof.
  intros Hv Hn. destruct (Z.eq_dec n 0) as [->|Hne].
  - exists 1%Qc. split; [|apply unit_qc_1].
    cbn [fpow]. unfold f1, of_Z. rewrite qc_1. reflexivity.
  - exists (vq ^ Z.to_nat n)%Qc. split.
    + apply fpow_fin_pos. lia.
    + apply Qcpower_unit. exact Hv.
Qed.

Lemma py_pow_unit (vq : Qc) (n : Z) (w : Qc) :
  unit_qc vq -> (0 <= n)%Z -> fpow (Fin vq) n = Fin w -> unit_qc w ->
  py_pow (Fin vq) n = Ok (Fin w).
Proof.
  intros Hv Hn Ew Uw. unfold py_pow.
  replace (n <? 0)%Z with false by (symmetry; apply Z.ltb_ge; exact Hn).
  rewrite andb_false_r, Ew, (unit_in_float_range w Uw).
  cbn [negb]. rewrite andb_false_r. reflexivity.
Qed.

(** X17.  For a constructed table and an interest rate that is not
    negative, the pure endowment over [n >= 0] years that end inside the
    table is a finite Python float between 0 and the survival probability
    [npx(x, n)], which itself is at most 1. *)
Theorem pure_endowment_bounds
        (ages : list Z) (qx : list fl) (name : string)
        (m : MortalityTable.t) (i e : fl) (self : LifeAssurance.t)
        (x n la : Z) :
  MortalityTable.__init__ ages qx name = Ok m ->
  LifeAssurance.__init__ m i e = Ok self ->
  fle f0 i = true ->
  get_last ages = Ok la ->
  (0 <= n)%Z -> (x + n <= la)%Z ->
  exists p r : Qc,
    SurvivalFunctions.npx (LifeAssurance.sf self) x n = Ok (PyFloat (Fin p))
    /\ LifeAssurance.pure_endowment self x n = Ok (PyFloat (Fin r))
    /\ (0 <= r)%Qc /\ (r <= p)%Qc /\ (p <= 1)%Qc.
Proof.
  intros Hm Hself Hi Hla Hn Hx.
  destruct (life_assurance_init _ _ _ _ Hself) as (Hsf & _ & Hv & Hsv).
  destruct (sf_init_discount_unit _ _ _ Hsf Hi) as (Hmt & vq & Evq & Uvq).
  rewrite <- Hmt in Hm.
  rewrite <- Hsv in Hv. rewrite Evq in Hv.
  destruct (npx_within_unit _ _ _ _ x n la Hm Hla Hx) as (p & Ep & Up).
  destruct (fpow_unit vq n Uvq Hn) as (w & Ew & Uw).
  exists p, (p * w)%Qc.
  split; [exact Ep|].
  unfold LifeAssurance.pure_endowment. rewrite Ep. cbn [bind].
  rewrite Hv, (py_pow_unit vq n w Uvq Hn Ew Uw). cbn [bind].
  unfold lift2. cbn [is_py andb val]. rewrite fmul_fin.
  split; [reflexivity|].
  split; [apply (unit_qc_mult _ _ Up Uw)|].
  split; [|apply Up].
  apply Qc_mult_le_1; [apply Up|apply Uw].
Qed.

Lemma pure_endowment_bounds_witness :
  exists p r : Qc,
    SurvivalFunctions.npx
      (LifeAssurance.sf (LifeAssurance.mk table3 sf3 f0 f1 f0)) 20 2
    = Ok (PyFloat (Fin p))
    /\ LifeAssurance.pure_endowment (LifeAssurance.mk table3 sf3 f0 f1 f0) 20 2
       = Ok (PyFloat (Fin r))
    /\ (0 <= r)%Qc /\ (r <= p)%Qc /\ (p <= 1)%Qc.
Proof.
  apply (pure_endowment_bounds ages3 rates3 "sample" table3 f0 f0
                               (LifeAssurance.mk table3 sf3 f0 f1 f0)
                               20 2 22).
  - vm_compute. reflexivity.
  - fl_refl.
  - reflexivity.
  - reflexivity.
  - lia.
  - lia.
Defined.

(** * Properties of the annuity calculator *)

Lemma annuities_init (tbl : option MortalityTable.t) (i : fl)
      (self : Annuities.t) :
  Annuities.__init__ tbl i = Ok self ->
  Annuities.i self = i
  /\ Annuities.v self = fdiv f1 (fadd f1 i)
  /\ feqb (fadd f1 i) f0 = false
  /\ (tbl = None -> Annuities.mt_sf self = None).
Proof.
  unfold Annuities.__init__.
  destruct tbl as [m|].
  - destruct (SurvivalFunctions.__init__ m i) as [s|e]; [|discriminate].
    cbn [bind]. unfold truediv. cbn [is_py andb val].
    destruct (feqb (fadd f1 i) f0); [discriminate|].
    cbn [bind val]. intros H. injection H as <-.
    repeat split. discriminate.
  - cbn [bind]. unfold truediv. cbn [is_py andb val].
    destruct (feqb (fadd f1 i) f0); [discriminate|].
    cbn [bind val]. intros H. injection H as <-.
    repeat split.
Qed.

(** X18.  A calculator built without a mortality table answers every life
    annuity with a [ValueError], before the age or the payment is looked
    at. *)
Theorem life_annuities_need_table (np_exp np_log : fl -> fl)
        (i : fl) (self : Annuities.t) (x n : Z) (payment : fl) :
  Annuities.__init__ None i = Ok self ->
  Annuities.life_annuity_immediate np_exp np_log self x payment
  = Raise ValueError
  /\ Annuities.life_annuity_due np_exp np_log self x payment
     = Raise ValueError
  /\ Annuities.temporary_life_annuity_immediate np_exp np_log self x n payment
     = Raise ValueError
  /\ Annuities.temporary_life_annuity_due np_exp np_log self x n payment
     = Raise ValueError
  /\ Annuities.deferred_life_annuity np_exp np_log self x n payment
     = Raise ValueError
  /\ Annuities.guaranteed_annuity np_exp np_log self x n payment
     = Raise ValueError
  /\ Annuities.annuity_certain_with_life_contingency np_exp np_log self x n
                                                     payment
     = Raise ValueError.
Proof.
  intros Hself.
  destruct (annuities_init _ _ _ Hself) as (_ & _ & _ & Hnone).
  specialize (Hnone eq_refl).
  unfold Annuities.life_annuity_immediate, Annuities.life_annuity_due,
    Annuities.temporary_life_annuity_immediate,
    Annuities.temporary_life_annuity_due, Annuities.deferred_life_annuity,
    Annuities.guaranteed_annuity,
    Annuities.annuity_certain_with_life_contingency.
  rewrite Hnone. repeat split.
Qed.

Lemma life_annuities_need_table_witness :
  Annuities.life_annuity_immediate (fun a => a) (fun a => a)
                                   (Annuities.mk None f0 f1) 20 f1
  = Raise ValueError
  /\ Annuities.life_annuity_due (fun a => a) (fun a => a)
                                (Annuities.mk None f0 f1) 20 f1
     = Raise ValueError
  /\ Annuities.temporary_life_annuity_immediate
       (fun a => a) (fun a => a) (Annuities.mk None f0 f1) 20 2 f1
     = Raise ValueError
  /\ Annuities.temporary_life_annuity_due
       (fun a => a) (fun a => a) (Annuities.mk None f0 f1) 20 2 f1
     = Raise ValueError
  /\ Annuities.deferred_life_annuity
       (fun a => a) (fun a => a) (Annuities.mk None f0 f1) 20 2 f1
     = Raise ValueError
  /\ Annuities.guaranteed_annuity
       (fun a => a) (fun a => a) (Annuities.mk None f0 f1) 20 2 f1
     = Raise ValueError
  /\ Annuities.annuity_certain_with_life_contingency
       (fun a => a) (fun a => a) (Annuities.mk None f0 f1) 20 2 f1
     = Raise ValueError.
Proof.
  apply (life_annuities_need_table (fun a => a) (fun a => a) f0
                                   (Annuities.mk None f0 f1) 20 2 f1).
  fl_refl.
Defined.

(** X19.  A withdrawal plan over 0 periods cannot be computed: whatever
    the principal, the withdrawal rate and the interest rate are, the
    power with exponent 0 is 1.0, the annuity factor is 0.0 and the
    division raises [ZeroDivisionError]. *)
Theorem annuity_with_withdrawal_no_periods (self : Annuities.t)
        (principal withdrawal_rate : fl) :
  Annuities.annuity_with_withdrawal self principal withdrawal_rate (Some 0%Z)
  = Raise ZeroDivisionError.
Proof.
  unfold Annuities.annuity_with_withdrawal.
  change (- 0)%Z with 0%Z. rewrite py_pow_zero.
  cbn [bind]. unfold py_div.
  replace (feqb (fsub f1 f1) f0) with true; [reflexivity|].
  symmetry. unfold f1, of_Z. rewrite fsub_fin. apply feqb_f0. ring.
Qed.

(** ** Withdrawal plans *)

Lemma last_default {A} (a : A) (l : list A) (d d' : A) :
  last (a :: l) d = last (a :: l) d'.
Proof.
  revert a. induction l as [|b l IH]; intros a; [reflexivity|].
  change (last (b :: l) d = last (b :: l) d'). apply IH.
Qed.

Lemma last_cons_cons {A} (a b : A) (l : list A) (d : A) :
  last (a :: b :: l) d = last (b :: l) d.
Proof. reflexivity. Qed.

Lemma withdrawal_loop_rows (self : Annuities.t) (payment : fl) (ts : list Z) :
  forall (remaining : fl) (sched : list Annuities.schedule_row),
  exists rows,
    Annuities.withdrawal_loop self payment ts remaining sched
    = (last (map Annuities.ending_balance rows) remaining, sched ++ rows)
    /\ map Annuities.period rows = ts
    /\ Forall (fun r => Annuities.withdrawal r = payment) rows.
Proof.
  induction ts as [|t0 ts IH]; intros remaining sched.
  - exists []. cbn [Annuities.withdrawal_loop map last].
    rewrite app_nil_r. repeat split. constructor.
  - cbn [Annuities.withdrawal_loop].
    match goal with
    | |- context [Annuities.withdrawal_loop self payment ts ?r (sched ++ [?row])] =>
        destruct (IH r (sched ++ [row])) as (rows & E & Hp & Hw);
        exists (row :: rows); rewrite E
    end.
    split; [|split].
    + rewrite <- app_assoc. cbn [app map Annuities.ending_balance].
      f_equal. destruct rows as [|r rows]; [reflexivity|].
      cbn [map]. rewrite last_cons_cons. apply last_default.
    + cbn [map Annuities.period]. rewrite Hp. reflexivity.
    + constructor; [reflexivity|exact Hw].
Qed.

(** X23.  Whenever a finite withdrawal plan is returned, its schedule has
    one row per period, numbered 1, 2, ..., [periods]; every row withdraws
    the annual payment; and the remaining principal of the plan is the
    ending balance of the last row (the principal itself when there is no
    row). *)
Theorem withdrawal_plan_schedule (self : Annuities.t)
        (principal withdrawal_rate : fl) (n : Z)
        (plan : Annuities.withdrawal_plan) :
  Annuities.annuity_with_withdrawal self principal withdrawal_rate (Some n)
  = Ok plan ->
  Annuities.periods plan = Annuities.Periods n
  /\ exists rows,
       Annuities.schedule plan = Some rows
       /\ map Annuities.period rows = range1 n
       /\ length rows = Z.to_nat n
       /\ Forall (fun r => Annuities.withdrawal r
                           = Annuities.annual_payment plan) rows
       /\ Annuities.remaining_principal plan
          = last (map Annuities.ending_balance rows) principal.
Proof.
  unfold Annuities.annuity_with_withdrawal.
  destruct (py_pow _ _) as [g|e]; [|discriminate]. cbn [bind].
  destruct (py_div _ _) as [q|e]; [|discriminate]. cbn [bind].
  destruct (withdrawal_loop_rows self (fmul principal q) (range1 n)
                                 principal []) as (rows & E & Hp & Hw).
  rewrite E. cbn [app]. intros H. injection H as <-.
  cbn [Annuities.periods Annuities.schedule Annuities.annual_payment
       Annuities.remaining_principal].
  split; [reflexivity|]. exists rows.
  split; [reflexivity|]. split; [exact Hp|].
  split; [|split; [exact Hw|reflexivity]].
  apply (f_equal (@length Z)) in Hp. rewrite length_map in Hp.
  rewrite Hp. unfold range1. rewrite length_map, length_seq. reflexivity.
Qed.

Lemma withdrawal_plan_schedule_witness :
  Annuities.periods plan_two_periods = Annuities.Periods 2
  /\ exists rows,
       Annuities.schedule plan_two_periods = Some rows
       /\ map Annuities.period rows = range1 2
       /\ length rows = Z.to_nat 2
       /\ Forall (fun r => Annuities.withdrawal r
                           = Annuities.annual_payment plan_two_periods) rows
       /\ Annuities.remaining_principal plan_two_periods
          = last (map Annuities.ending_balance rows) (Fin (qc 100 1)).
Proof.
  apply (withdrawal_plan_schedule annuities_quarter (Fin (qc 100 1))
                                  (Fin (qc 1 2)) 2 plan_two_periods).
  vm_compute. reflexivity.
Defined.

(** * The yearly rate of the assurance loop *)

Lemma qprod_pos (l : list Qc) :
  Forall (fun p => 0 < p /\ p <= 1)%Qc l -> (0 < qprod l)%Qc.
Proof.
  induction l as [|p l IH]; intros H.
  - unfold qprod. simpl. apply Qc_0_lt_1.
  - inversion H as [|? ? [Hp _] Hl]; subst.
    change (p :: l) with ([p] ++ l). rewrite qprod_app, qprod_one.
    apply Qc_mult_pos; [exact Hp|apply IH; exact Hl].
Qed.

(** With all rates below 1, survival between two tabulated ages has a
    positive probability. *)
Lemma npx_within_positive (ages : list Z) (qx : list fl) (name : string)
      (self : SurvivalFunctions.t) (x n la : Z) :
  MortalityTable.__init__ ages qx name = Ok (SurvivalFunctions.mt self) ->
  forallb (fun q => flt q f1) qx = true ->
  get_last ages = Ok la ->
  (0 <= n)%Z -> (x + n <= la)%Z ->
  contains x ages = true -> contains (x + n) ages = true ->
  exists b, SurvivalFunctions.npx self x n = Ok (PyFloat (Fin b)) /\ (0 < b)%Qc.
Proof.
  intros Hinit Hlt Hla Hn Hx Hcx Hcn.
  destruct (Z.eq_dec n 0) as [->|Hne].
  - exists 1%Qc. split; [|apply Qc_0_lt_1].
    rewrite npx_early by lia. change (0 <? 0)%Z with false. cbv iota.
    unfold f1, of_Z. rewrite qc_1. reflexivity.
  - destruct (npx_within_value _ _ _ self x n la Hinit Hla ltac:(lia) Hx)
      as (qs & Hqs & Uqs & En).
    rewrite contains_index_of in Hcx, Hcn.
    destruct (index_of x ages) as [s|]; [|discriminate].
    destruct (index_of (x + n) ages) as [e|]; [|discriminate].
    eexists. split; [exact En|].
    apply qprod_pos. apply slice_forall.
    subst qx. apply forallb_lt1_fin; assumption.
Qed.

(** X24.  With strictly increasing ages and products of [px] that do not
    underflow (so all rates are below 1 and every survival probability
    between tabulated ages is a positive float), the death probability that
    the assurance loop derives for year [t >= 1] from two survival
    probabilities is the tabulated rate at age [x + t - 1], provided [x],
    [x + t - 1] and [x + t] are tabulated ages (floats taken as exact
    numbers): the loop discounts the one-year rates themselves, not the
    probabilities of dying in year [t] seen from age [x]. *)
Theorem assurance_year_rate (ages : list Z) (qx : list fl) (name : string)
        (self : SurvivalFunctions.t) (x t0 : Z) :
  MortalityTable.__init__ ages qx name = Ok (SurvivalFunctions.mt self) ->
  increasing ages = true ->
  no_underflow (SurvivalFunctions.mt self) = true ->
  (1 <= t0)%Z ->
  contains x ages = true ->
  contains (x + (t0 - 1)) ages = true ->
  contains (x + (t0 - 1) + 1) ages = true ->
  exists q,
    MortalityTable.get_qx (SurvivalFunctions.mt self)
                          (MortalityTable.One (x + (t0 - 1))%Z)
    = Ok (MortalityTable.Scalar (Fin q))
    /\ SurvivalFunctions.q_xt self x t0 = Ok (Fin q).
Proof.
  intros Hinit Hinc Hno Ht Hcx Hcm Hcn.
  pose proof (no_underflow_below_one _ _ _ _ Hinit Hno) as Hlt.
  pose proof Hcm as Hcm'. pose proof Hcn as Hcn'.
  rewrite contains_index_of in Hcm', Hcn'.
  destruct (index_of (x + (t0 - 1)) ages) as [s|] eqn:Es; [|discriminate].
  destruct (index_of (x + (t0 - 1) + 1) ages) as [e|] eqn:Ee; [|discriminate].
  assert (exists la, get_last ages = Ok la) as (la & Hla).
  { apply get_last_ok. pose proof (index_of_lt _ _ _ Es). lia. }
  pose proof (tabulated_le_last _ _ _ _ Hinc Ee Hla) as Hle.
  destruct (init_fin _ _ _ _ Hinit) as (qs & Hqs & Uqs & _).
  subst qx.
  destruct (npx_one_year _ _ _ self (x + (t0 - 1)) la s e Hinit Hinc Hla Hle
                         Es Ee) as (q & Hq & En).
  destruct (stored_qx_fin _ _ _ _ _ _ Hinit Es) as (q' & Hq' & Est).
  assert (q' = q) as -> by congruence.
  exists q. split.
  { rewrite (get_qx_one _ _ _ _ _ Hinit), Est. reflexivity. }
  unfold SurvivalFunctions.q_xt.
  destruct (1 <? t0)%Z eqn:E1.
  - apply Z.ltb_lt in E1.
    destruct (npx_chain_aux _ _ _ self x (t0 - 1) 1 la Hinit Hinc Hla
                            ltac:(lia) ltac:(lia) Hle Hcm)
      as (a & b & c & Ea & Eb & Ec & Habc).
    replace (t0 - 1 + 1)%Z with t0 in Ea by lia.
    rewrite En in Ec. injection Ec as <-.
    destruct (npx_within_positive _ _ _ self x (t0 - 1) la Hinit Hlt Hla
                                  ltac:(lia) ltac:(lia) Hcx Hcm)
      as (b' & Eb' & Hb).
    rewrite Eb in Eb'. injection Eb' as <-.
    pose proof (Qc_pos_neq0 _ Hb) as Hb0.
    rewrite Ea, Eb. cbn [bind]. unfold truediv. cbn [is_py andb val].
    rewrite (feqb_f0_false _ Hb0). cbn [bind val].
    rewrite fdiv_fin by exact Hb0.
    unfold f1, of_Z. rewrite qc_1, fsub_fin. do 2 f_equal.
    subst a. field. exact Hb0.
  - apply Z.ltb_ge in E1. assert (t0 = 1)%Z as -> by lia.
    replace (x + (1 - 1))%Z with x in En by lia.
    rewrite En. cbn [bind val].
    unfold f1, of_Z. rewrite qc_1, fsub_fin. do 2 f_equal. ring.
Qed.

Lemma assurance_year_rate_witness :
  exists q,
    MortalityTable.get_qx (SurvivalFunctions.mt sf3)
                          (MortalityTable.One (20 + (2 - 1))%Z)
    = Ok (MortalityTable.Scalar (Fin q))
    /\ SurvivalFunctions.q_xt sf3 20 2 = Ok (Fin q).
Proof.
  apply (assurance_year_rate ages3 rates3 "sample" sf3 20 2).
  - vm_compute. reflexivity.
  - reflexivity.
  - reflexivity.
  - lia.
  - reflexivity.
  - reflexivity.
  - reflexivity.
Defined.

(** * Properties of the interest calculator *)

Lemma feqb_f0_refl : feqb f0 f0 = true.
Proof. unfold f0 at 1. unfold of_Z. rewrite qc_0. apply feqb_f0. reflexivity. Qed.

Lemma fsub_f1_f1 : fsub f1 f1 = f0.
Proof.
  unfold f1, f0, of_Z. rewrite fsub_fin, qc_0. f_equal; try ring.
Qed.

(** X25.  A loan over 0 periods has no payment: [loan_payment] raises
    [ZeroDivisionError] for every principal and every rate, given or
    default, and so does [loan_balance], which computes the payment
    first. *)
Theorem loan_payment_no_periods (self : InterestTheory.t) (principal : fl)
        (payments_made : Z) (interest_rate : option fl) :
  InterestTheory.loan_payment self principal 0 interest_rate
  = Raise ZeroDivisionError
  /\ InterestTheory.loan_balance self principal 0 payments_made interest_rate
     = Raise ZeroDivisionError.
Proof.
  assert (forall r, InterestTheory.loan_payment self principal 0 r
                    = Raise ZeroDivisionError) as H.
  { intros r. unfold InterestTheory.loan_payment.
    destruct (feqb (InterestTheory.rate self r) f0).
    - rewrite float_of_int_0. cbn [bind].
      unfold py_div. rewrite feqb_f0_refl. reflexivity.
    - rewrite py_pow_zero. cbn [bind].
      unfold py_div. rewrite fsub_f1_f1, feqb_f0_refl. reflexivity. }
  split; [apply H|].
  unfold InterestTheory.loan_balance. rewrite H. reflexivity.
Qed.

(** * Construction of the calculators *)

Lemma sf_init_cases (m : MortalityTable.t) (i : fl) :
  SurvivalFunctions.__init__ m i
  = if feqb (fadd f1 i) f0 then Raise ZeroDivisionError
    else Ok (SurvivalFunctions.mk m i (fdiv f1 (fadd f1 i))).
Proof.
  unfold SurvivalFunctions.__init__, truediv. cbn [is_py andb val].
  destruct (feqb (fadd f1 i) f0); reflexivity.
Qed.

(** X29.  [LifeAssurance], [Reserves] and [Annuities] can be built on a
    table exactly when [1 + interest_rate] is not 0: at the rate -100% the
    constructor raises [ZeroDivisionError], and no other exception leaves
    it.  When built, the calculator keeps the table it was given and its
    own discount factor [v] is the one of its [SurvivalFunctions]. *)
Theorem calculators_construction (m : MortalityTable.t)
        (i e er pm : fl) :
  match LifeAssurance.__init__ m i e with
  | Ok self =>
      feqb (fadd f1 i) f0 = false
      /\ LifeAssurance.v self = SurvivalFunctions.v (LifeAssurance.sf self)
      /\ SurvivalFunctions.mt (LifeAssurance.sf self) = m
      /\ LifeAssurance.mt self = m
  | Raise err => err = ZeroDivisionError /\ feqb (fadd f1 i) f0 = true
  end
  /\ match Reserves.__init__ m i er pm with
     | Ok self =>
         feqb (fadd f1 i) f0 = false
         /\ Reserves.v self = SurvivalFunctions.v (Reserves.sf self)
         /\ SurvivalFunctions.mt (Reserves.sf self) = m
         /\ Reserves.mt self = m
     | Raise err => err = ZeroDivisionError /\ feqb (fadd f1 i) f0 = true
     end
  /\ match Annuities.__init__ (Some m) i with
     | Ok self =>
         feqb (fadd f1 i) f0 = false
         /\ exists sf, Annuities.mt_sf self = Some (m, sf)
                       /\ Annuities.v self = SurvivalFunctions.v sf
                       /\ SurvivalFunctions.mt sf = m
     | Raise err => err = ZeroDivisionError /\ feqb (fadd f1 i) f0 = true
     end.
Proof.
  unfold LifeAssurance.__init__, Reserves.__init__, Annuities.__init__.
  rewrite sf_init_cases. unfold truediv. cbn [is_py andb val].
  destruct (feqb (fadd f1 i) f0); cbn [bind val].
  - repeat split.
  - cbn [LifeAssurance.v LifeAssurance.sf LifeAssurance.mt Reserves.v
         Reserves.sf Reserves.mt Annuities.mt_sf Annuities.v
         SurvivalFunctions.v SurvivalFunctions.mt].
    split; [repeat split|]. split; [repeat split|].
    split; [reflexivity|]. eexists. split; [reflexivity|].
    split; reflexivity.
Qed.
